(** * Variant annotation tool: the annotation client, its rate limiter,
      the orchestrator and the report sink

    A shallow embedding of [ensembl_api_client.py],
    [annotate_variants.py] and the iteration of [vcf_reader.py].

    - Python values (JSON payloads, record fields) are the inductive
      [value]; a [dict] is an association list in insertion order, the
      way CPython keeps it.
    - Coroutines are terms of [prog], a small free monad over the
      effects the code performs ([time.time()], [asyncio.sleep], the
      lock, [session.get], the logger, the fields of [self]); [try]
      blocks are [try_except].
    - [run] executes one coroutine alone; [resume] and [exec] interleave
      several coroutines at their await points under a schedule chosen
      by the event loop; the answers of the remote service are a
      function of the number of the request.
    - Time is an integer number of milliseconds ([second] = 1000). *)

From Stdlib Require Import ZArith List String Ascii Bool Lia Permutation.
From Stdlib Require Import DecimalString.
Import ListNotations.
Local Open Scope Z_scope.
Local Open Scope list_scope.

(** ** Python values *)

#[local] Set Warnings "-register-all".

Inductive value : Type :=
| VNone
| VBool (b : bool)
| VInt (n : Z)
| VFloat (repr : string)   (* a float, carried by its shortest repr *)
| VStr (s : string)
| VList (items : list value)
| VDict (entries : list (string * value)).

Definition dict : Type := list (string * value).

Definition keys (d : dict) : list string := map fst d.

(** [d.get(k)] as an option: the first binding of [k]. *)
Fixpoint dict_get (k : string) (d : dict) : option value :=
  match d with
  | [] => None
  | (k', v) :: d' => if String.eqb k k' then Some v else dict_get k d'
  end.

(** [d[k] = v]: an existing key keeps its position, a new key goes last. *)
Fixpoint dict_set (k : string) (v : value) (d : dict) : dict :=
  match d with
  | [] => [(k, v)]
  | (k', v') :: d' =>
      if String.eqb k k' then (k', v) :: d' else (k', v') :: dict_set k v d'
  end.

(** [d.update(u)]: the bindings of [u], in order. *)
Definition dict_update (d u : dict) : dict :=
  fold_left (fun acc kv => dict_set (fst kv) (snd kv) acc) u d.

(** ** Exceptions *)

Inductive header_value : Type :=
| HSeconds (ms : Z)       (* text that [float()] parses: the delay, in ms *)
| HText (s : string).     (* any other text: [float()] raises ValueError *)

Definition headers : Type := list (string * header_value).

(** [c.lower()] of a character of a header name; header names are
    ASCII. *)
Definition lower_ascii (c : ascii) : ascii :=
  let n := N_of_ascii c in
  if ((65 <=? n) && (n <=? 90))%N then ascii_of_N (n + 32) else c.

(** [s.lower()] *)
Fixpoint lower (s : string) : string :=
  match s with
  | EmptyString => EmptyString
  | String c s' => String (lower_ascii c) (lower s')
  end.

(** [h[k]] and [k in h] of the headers of a response: the names are
    compared without regard to letter case, and the first header of
    that name is taken. *)
Fixpoint header_get (k : string) (h : headers) : option header_value :=
  match h with
  | [] => None
  | (k', v) :: h' =>
      if String.eqb (lower k) (lower k') then Some v else header_get k h'
  end.

Inductive exn : Type :=
| ClientResponseError (status : Z) (message : string) (hdrs : headers)
| ClientConnectionError          (* any transport-level failure *)
| JSONDecodeError
| KeyError
| IndexError
| TypeError
| AttributeError
| ValueError
| IOError.

(** [except (IndexError, KeyError)] *)
Definition is_lookup_error (e : exn) : bool :=
  match e with
  | IndexError | KeyError => true
  | _ => false
  end.

(** ** The HTTP exchange *)

(** [f"{path}{arg}"]: the interpolated value is kept as it is. *)
Inductive endpoint : Type :=
| Endpoint (path : string) (arg : value).

Record request : Type := {
  url_server : string;
  url_endpoint : endpoint;
  url_params : list (string * value);
  req_headers : list (string * string)
}.

(** What [response.json()] does. *)
Inductive body : Type :=
| Json (v : value)
| WrongContentType      (* ContentTypeError, a ClientResponseError *)
| Undecodable.          (* JSONDecodeError *)

Record response : Type := {
  status : Z;
  resp_headers : headers;
  resp_body : body
}.

(** What [session.get] does: a response arrives or the transport fails. *)
Inductive exchange : Type :=
| Responded (r : response)
| Failed.

(** ** The client object *)

Record EnsemblApiClient : Type := {
  server : string;
  reqs_per_sec : Z;
  req_count : Z;
  last_req : Z
}.

(** [EnsemblApiClient.__init__] *)
Definition init (server : string) (reqs_per_sec : Z) : EnsemblApiClient :=
  {| server := server; reqs_per_sec := reqs_per_sec;
     req_count := 0; last_req := 0 |}.

Definition default_client : EnsemblApiClient :=
  init "https://grch37.rest.ensembl.org" 10.

Definition set_req_count (n : Z) (c : EnsemblApiClient) : EnsemblApiClient :=
  {| server := server c; reqs_per_sec := reqs_per_sec c;
     req_count := n; last_req := last_req c |}.

Definition set_last_req (t : Z) (c : EnsemblApiClient) : EnsemblApiClient :=
  {| server := server c; reqs_per_sec := reqs_per_sec c;
     req_count := req_count c; last_req := t |}.

(** ** Coroutines *)

Inductive level : Type := DEBUG | INFO | WARNING | ERROR.

Inductive op : Type -> Type :=
| Acquire : op unit                    (* enter [async with self.lock] *)
| Release : op unit                    (* leave it *)
| Sleep (ms : Z) : op unit             (* [await asyncio.sleep] *)
| Time : op Z                          (* [time.time()] *)
| Self : op EnsemblApiClient           (* read the fields of [self] *)
| SetReqCount (n : Z) : op unit
| SetLastReq (t : Z) : op unit
| SessionGet (r : request) : op exchange
| Log (l : level) (fmt : string) : op unit.

Inductive prog (A : Type) : Type :=
| Ret (a : A)
| Raise (e : exn)
| OutOfFuel
| Do (X : Type) (o : op X) (k : X -> prog A).

Arguments Ret {A} a.
Arguments Raise {A} e.
Arguments OutOfFuel {A}.
Arguments Do {A X} o k.

Fixpoint bind {A B} (p : prog A) (f : A -> prog B) : prog B :=
  match p with
  | Ret a => f a
  | Raise e => Raise e
  | OutOfFuel => OutOfFuel
  | Do o k => Do o (fun x => bind (k x) f)
  end.

(** [try: p  except ...: h e] *)
Fixpoint try_except {A} (p : prog A) (h : exn -> prog A) : prog A :=
  match p with
  | Ret a => Ret a
  | Raise e => h e
  | OutOfFuel => OutOfFuel
  | Do o k => Do o (fun x => try_except (k x) h)
  end.

Definition perform {X} (o : op X) : prog X := Do o Ret.

Declare Scope prog_scope.
Delimit Scope prog_scope with prog.
Notation "x <- p ;; q" := (bind p (fun x => q))
  (at level 61, p at next level, right associativity) : prog_scope.
Notation "p ;; q" := (bind p (fun _ => q))
  (at level 61, right associativity) : prog_scope.
Local Open Scope prog_scope.

(** ** Subscripts and attribute access on Python values *)

(** [items[i]], with Python's negative indices. *)
Definition list_index (items : list value) (i : Z) : prog value :=
  let n := Z.of_nat (List.length items) in
  let j := if i <? 0 then i + n else i in
  if (0 <=? j) && (j <? n) then
    match nth_error items (Z.to_nat j) with
    | Some x => Ret x
    | None => Raise IndexError
    end
  else Raise IndexError.

(** [s[i]]: a one-character string.  A string is its sequence of bytes
    here, so the index counts bytes where Python counts characters: the
    two agree on ASCII text, and on every string about whether it has
    an element zero. *)
Definition str_index (s : string) (i : Z) : prog value :=
  let n := Z.of_nat (String.length s) in
  let j := if i <? 0 then i + n else i in
  if (0 <=? j) && (j <? n) then
    match String.get (Z.to_nat j) s with
    | Some c => Ret (VStr (String c EmptyString))
    | None => Raise IndexError
    end
  else Raise IndexError.

(** [c[k]].  The keys of every dict here are strings; a list or a dict
    used as a key is unhashable; [bool] is a subclass of [int]. *)
Definition subscript (c k : value) : prog value :=
  match c with
  | VDict d =>
      match k with
      | VStr s =>
          match dict_get s d with
          | Some v => Ret v
          | None => Raise KeyError
          end
      | VList _ | VDict _ => Raise TypeError
      | _ => Raise KeyError
      end
  | VList items =>
      match k with
      | VInt i => list_index items i
      | VBool b => list_index items (if b then 1 else 0)
      | _ => Raise TypeError
      end
  | VStr s =>
      match k with
      | VInt i => str_index s i
      | VBool b => str_index s (if b then 1 else 0)
      | _ => Raise TypeError
      end
  | _ => Raise TypeError
  end.

(** [variant[k]] on a record. *)
Definition getitem (d : dict) (k : string) : prog value :=
  subscript (VDict d) (VStr k).

(** [c.get(k)]: only a dict has the method. *)
Definition method_get (c : value) (k : string) : prog value :=
  match c with
  | VDict d =>
      match dict_get k d with
      | Some v => Ret v
      | None => Ret VNone
      end
  | _ => Raise AttributeError
  end.

(** [float(retry)] *)
Definition float (h : header_value) : prog Z :=
  match h with
  | HSeconds ms => Ret ms
  | HText _ => Raise ValueError
  end.

(** ** ensembl_api_client.py *)

Definition second : Z := 1000.

(** [EnsemblApiClient._apply_rate_limit] *)
Definition _apply_rate_limit : prog unit :=
  perform Acquire ;;
  self <- perform Self ;;
  (if req_count self >=? reqs_per_sec self then
     now <- perform Time ;;
     let delta := now - last_req self in
     (if delta <? second then perform (Sleep (second - delta)) else Ret tt) ;;
     now' <- perform Time ;;
     perform (SetLastReq now') ;;
     perform (SetReqCount 0)
   else Ret tt) ;;
  self' <- perform Self ;;
  perform (SetReqCount (req_count self' + 1)) ;;
  perform Release.

(** [session.get(url, headers=...)] *)
Definition session_get (r : request) : prog response :=
  x <- perform (SessionGet r) ;;
  match x with
  | Responded resp => Ret resp
  | Failed => Raise ClientConnectionError
  end.

(** [response.raise_for_status()]: aiohttp raises from status 400 on. *)
Definition raise_for_status (resp : response) : prog unit :=
  if 400 <=? status resp then
    Raise (ClientResponseError (status resp) "" (resp_headers resp))
  else Ret tt.

(** [await response.json()] *)
Definition json (resp : response) : prog value :=
  match resp_body resp with
  | Json v => Ret v
  | WrongContentType =>
      Raise (ClientResponseError (status resp) "" (resp_headers resp))
  | Undecodable => Raise JSONDecodeError
  end.

Definition empty_dict : value := VDict [].

(** [EnsemblApiClient.perform_rest_action].  [fuel] bounds the depth of
    the recursion of the retry: [OutOfFuel] stands for a call that has
    been throttled [fuel] times and is about to retry once more.  In
    CPython the depth is bounded by the recursion limit of the
    interpreter (1000 frames unless it is changed); how a call ends
    when it reaches that limit is not modelled, so the model speaks of
    calls that retry fewer times than that. *)
Fixpoint perform_rest_action (fuel : nat) (endpoint : endpoint)
    (params : list (string * value)) : prog value :=
  match fuel with
  | O => OutOfFuel
  | S fuel' =>
      self <- perform Self ;;
      let url := {| url_server := server self; url_endpoint := endpoint;
                    url_params := params;
                    req_headers := [("Content-Type", "application/json")%string] |} in
      _apply_rate_limit ;;
      try_except
        (response <- session_get url ;;
         raise_for_status response ;;
         payload <- json response ;;
         subscript payload (VInt 0))
        (fun e =>
           match e with
           | ClientResponseError status _ hdrs =>
               if status =? 429 then
                 match header_get "Retry-After" hdrs with
                 | Some retry =>
                     perform (Log WARNING "Rate limit exceeded. Retrying after %s seconds.") ;;
                     d <- float retry ;;
                     perform (Sleep d) ;;
                     perform_rest_action fuel' endpoint params
                 | None => Ret empty_dict
                 end
               else if status =? 400 then
                 perform (Log INFO "Endpoint not found: %s") ;;
                 Ret empty_dict
               else
                 perform (Log ERROR "Request failed for %s: %s - %s") ;;
                 Ret empty_dict
           | _ =>
               perform (Log ERROR "Error making request for %s: %s") ;;
               Ret empty_dict
           end)
  end.

(** The six annotation fields, in the order of the [update] call. *)
Definition annotation_fields : list string :=
  ["gene_id"; "gene_symbol"; "biotype"; "impact";
   "most_severe_consequence"; "minor_allele_frequency"]%string.

(** [EnsemblApiClient.update_variant_info] *)
Definition update_variant_info (fuel : nat) (variant : dict) : prog dict :=
  hgvs <- getitem variant "hgvs" ;;
  vep_info <- perform_rest_action fuel (Endpoint "/vep/human/hgvs/" hgvs)
                [("pick"%string, VInt 1)] ;;
  transcript_consequences <-
    try_except
      (tcs <- subscript vep_info (VStr "transcript_consequences") ;;
       subscript tcs (VInt 0))
      (fun e =>
         if is_lookup_error e then
           perform (Log DEBUG "No transcript consequences found for %s: %s") ;;
           Ret empty_dict
         else Raise e) ;;
  maf <-
    try_except
      (cvs <- subscript vep_info (VStr "colocated_variants") ;;
       cv <- subscript cvs (VInt (-1)) ;;
       freqs <- subscript cv (VStr "frequencies") ;;
       alt <- getitem variant "alt" ;;
       freq <- subscript freqs alt ;;
       subscript freq (VStr "af"))
      (fun e =>
         if is_lookup_error e then
           perform (Log DEBUG "No minor allele frequency found for %s: %s") ;;
           Ret VNone
         else Raise e) ;;
  gene_id <- method_get transcript_consequences "gene_id" ;;
  gene_symbol <- method_get transcript_consequences "gene_symbol" ;;
  biotype <- method_get transcript_consequences "biotype" ;;
  impact <- method_get transcript_consequences "impact" ;;
  most_severe_consequence <- method_get vep_info "most_severe_consequence" ;;
  Ret (dict_update variant
         [("gene_id", gene_id); ("gene_symbol", gene_symbol);
          ("biotype", biotype); ("impact", impact);
          ("most_severe_consequence", most_severe_consequence);
          ("minor_allele_frequency", maf)]%string).

(** ** Running coroutines *)

Inductive event : Type :=
| EvAcquire (t : Z)
| EvRelease (t : Z)
| EvSleep (t : Z) (ms : Z)
| EvGet (t : Z) (r : request)
| EvLog (l : level) (fmt : string).

(** The event loop's view: the clock, the shared client object and its
    lock, the answers of the remote service to the successive requests,
    and what has happened so far. *)
Record world : Type := {
  clock : Z;
  client : EnsemblApiClient;
  locked : bool;
  network : nat -> exchange;
  sent : nat;
  trace : list event
}.

Definition boot (now : Z) (c : EnsemblApiClient) (net : nat -> exchange) : world :=
  {| clock := now; client := c; locked := false;
     network := net; sent := 0; trace := [] |}.

Definition with_clock (t : Z) (w : world) : world :=
  {| clock := t; client := client w; locked := locked w;
     network := network w; sent := sent w; trace := trace w |}.

Definition with_client (c : EnsemblApiClient) (w : world) : world :=
  {| clock := clock w; client := c; locked := locked w;
     network := network w; sent := sent w; trace := trace w |}.

Definition with_lock (b : bool) (w : world) : world :=
  {| clock := clock w; client := client w; locked := b;
     network := network w; sent := sent w; trace := trace w |}.

Definition emit (e : event) (w : world) : world :=
  {| clock := clock w; client := client w; locked := locked w;
     network := network w; sent := sent w; trace := trace w ++ [e] |}.

Definition next_request (w : world) : world :=
  {| clock := clock w; client := client w; locked := locked w;
     network := network w; sent := S (sent w); trace := trace w |}.

(** A sleep lasts what was asked for; a negative delay does not wait. *)
Definition wake_time (w : world) (ms : Z) : Z := clock w + Z.max 0 ms.

(** One effect, for a coroutine that runs alone. *)
Definition exec_op {X} (o : op X) (w : world) : X * world :=
  match o in op X return X * world with
  | Acquire => (tt, with_lock true (emit (EvAcquire (clock w)) w))
  | Release => (tt, with_lock false (emit (EvRelease (clock w)) w))
  | Sleep ms => (tt, with_clock (wake_time w ms) (emit (EvSleep (clock w) ms) w))
  | Time => (clock w, w)
  | Self => (client w, w)
  | SetReqCount n => (tt, with_client (set_req_count n (client w)) w)
  | SetLastReq t => (tt, with_client (set_last_req t (client w)) w)
  | SessionGet r => (network w (sent w), next_request (emit (EvGet (clock w) r) w))
  | Log l fmt => (tt, emit (EvLog l fmt) w)
  end.

Inductive outcome (A : Type) : Type :=
| Returned (a : A)
| Raised (e : exn)
| Pending.

Arguments Returned {A} a.
Arguments Raised {A} e.
Arguments Pending {A}.

(** A coroutine run alone, to its end. *)
Fixpoint run {A} (p : prog A) (w : world) : outcome A * world :=
  match p with
  | Ret a => (Returned a, w)
  | Raise e => (Raised e, w)
  | OutOfFuel => (Pending, w)
  | Do o k => let (x, w') := exec_op o w in run (k x) w'
  end.

(** The moments at which [_apply_rate_limit] returned: the lock is
    released as its last step. *)
Fixpoint admissions (tr : list event) : list Z :=
  match tr with
  | [] => []
  | EvRelease t :: tr' => t :: admissions tr'
  | _ :: tr' => admissions tr'
  end.

(** The requests put on the wire, with their times. *)
Fixpoint sends (tr : list event) : list (Z * request) :=
  match tr with
  | [] => []
  | EvGet t r :: tr' => (t, r) :: sends tr'
  | _ :: tr' => sends tr'
  end.

(** The time spent in [asyncio.sleep]. *)
Fixpoint slept (tr : list event) : Z :=
  match tr with
  | [] => 0
  | EvSleep _ ms :: tr' => Z.max 0 ms + slept tr'
  | _ :: tr' => slept tr'
  end.

(** ** Concurrent coroutines *)

(** A task is suspended, with the time before which it cannot go on
    (the end of its sleep; the time of its request) and the code it will
    run then, or it has completed with a result or an exception.  A task
    that has not started is suspended at its first instruction. *)
Inductive task (A : Type) : Type :=
| Suspended (wake : Z) (p : prog A)
| Returns (a : A)
| Raises (e : exn).

Arguments Suspended {A} wake p.
Arguments Returns {A} a.
Arguments Raises {A} e.

Definition finished {A} (t : task A) : bool :=
  match t with
  | Suspended _ _ => false
  | _ => true
  end.

(** The code of a task from where it is to its next suspension: a sleep,
    a request on the wire, a lock that is held, or its end. *)
Fixpoint advance {A} (p : prog A) (w : world) : task A * world :=
  match p with
  | Ret a => (Returns a, w)
  | Raise e => (Raises e, w)
  | OutOfFuel => (Suspended (clock w) OutOfFuel, w)
  | Do o k =>
      match o in op X return (X -> prog A) -> task A * world with
      | Acquire => fun k =>
          if locked w then (Suspended (clock w) (Do Acquire k), w)
          else advance (k tt) (with_lock true (emit (EvAcquire (clock w)) w))
      | Release => fun k =>
          advance (k tt) (with_lock false (emit (EvRelease (clock w)) w))
      | Sleep ms => fun k =>
          (Suspended (wake_time w ms) (k tt), emit (EvSleep (clock w) ms) w)
      | Time => fun k => advance (k (clock w)) w
      | Self => fun k => advance (k (client w)) w
      | SetReqCount n => fun k =>
          advance (k tt) (with_client (set_req_count n (client w)) w)
      | SetLastReq t => fun k =>
          advance (k tt) (with_client (set_last_req t (client w)) w)
      | SessionGet r => fun k =>
          (Suspended (clock w) (k (network w (sent w))),
           next_request (emit (EvGet (clock w) r) w))
      | Log l fmt => fun k => advance (k tt) (emit (EvLog l fmt) w)
      end k
  end.

Record system (A : Type) : Type := {
  sys_world : world;
  tasks : list (task A);
  completed : list nat       (* task numbers, in completion order *)
}.

Arguments sys_world {A} s.
Arguments tasks {A} s.
Arguments completed {A} s.

Fixpoint replace {A} (i : nat) (x : A) (l : list A) : list A :=
  match l, i with
  | [], _ => []
  | _ :: l', O => x :: l'
  | y :: l', S i' => y :: replace i' x l'
  end.

(** The event loop resumes task [i], [dt] later or when the task can go
    on, whichever comes last; a task that has completed stays as it is. *)
Definition resume {A} (s : system A) (choice : nat * Z) : system A :=
  let (i, dt) := choice in
  match nth_error (tasks s) i with
  | Some (Suspended wake p) =>
      let now := Z.max (clock (sys_world s) + Z.max 0 dt) wake in
      let (t, w) := advance p (with_clock now (sys_world s)) in
      {| sys_world := w;
         tasks := replace i t (tasks s);
         completed := if finished t then completed s ++ [i]
                      else completed s |}
  | _ => s
  end.

Definition schedule : Type := list (nat * Z).

Definition exec {A} (sched : schedule) (s : system A) : system A :=
  fold_left resume sched s.

(** All coroutines of [progs], not yet started. *)
Definition spawn {A} (progs : list (prog A)) (w : world) : system A :=
  {| sys_world := w;
     tasks := map (Suspended (clock w)) progs;
     completed := [] |}.

(** ** annotate_variants.py *)

(** The results of [asyncio.as_completed], awaited in completion order:
    the first exception met ends the loop. *)
Fixpoint gather {A} (ts : list (task A)) (done : list nat) : outcome (list A) :=
  match done with
  | [] => Returned []
  | i :: done' =>
      match nth_error ts i with
      | Some (Returns a) =>
          match gather ts done' with
          | Returned l => Returned (a :: l)
          | o => o
          end
      | Some (Raises e) => Raised e
      | _ => Pending
      end
  end.

(** The tasks of [process_variants] under a schedule of the event loop:
    one [update_variant_info] per variant, on a fresh client. *)
Definition annotating (fuel : nat) (vcf_reader : list dict)
    (sched : schedule) (now : Z) (net : nat -> exchange) : system dict :=
  exec sched
    (spawn (map (update_variant_info fuel) vcf_reader)
       (boot now default_client net)).

(** [process_variants]: [Pending] while some task has not completed. *)
Definition process_variants (fuel : nat) (vcf_reader : list dict)
    (sched : schedule) (now : Z) (net : nat -> exchange)
    : outcome (list dict) :=
  let s := annotating fuel vcf_reader sched now net in
  match gather (tasks s) (completed s) with
  | Returned annotated_variants =>
      if Nat.eqb (List.length annotated_variants) (List.length vcf_reader)
      then Returned annotated_variants
      else Pending
  | o => o
  end.

(** The output file as the csv writer receives it: the header row, then
    one row of cells per record. *)
Definition tsv : Type := list (list value).

Record filesystem : Type := {
  writable : string -> bool;       (* does [open(path, "w")] succeed *)
  files : list (string * tsv)
}.

Definition store (path : string) (content : tsv) (fs : filesystem) : filesystem :=
  {| writable := writable fs; files := (path, content) :: files fs |}.

Definition mem (k : string) (l : list string) : bool :=
  existsb (String.eqb k) l.

(** [DictWriter._dict_to_list]: a key outside the field names raises, a
    missing one is written as the empty string. *)
Definition dict_to_list (fieldnames : list string) (row : dict)
    : outcome (list value) :=
  if forallb (fun k => mem k fieldnames) (keys row) then
    Returned (map (fun k => match dict_get k row with
                            | Some v => v
                            | None => VStr ""
                            end) fieldnames)
  else Raised ValueError.

(** [DictWriter.writerows]: rows are written until one raises. *)
Fixpoint writerows (fieldnames : list string) (rows : list dict) (file : tsv)
    : outcome unit * tsv :=
  match rows with
  | [] => (Returned tt, file)
  | row :: rows' =>
      match dict_to_list fieldnames row with
      | Returned cells => writerows fieldnames rows' (file ++ [cells])
      | Raised e => (Raised e, file)
      | Pending => (Pending, file)
      end
  end.

(** [write_to_tsv] *)
Definition write_to_tsv (annotated_variants : list dict) (output_tsv : string)
    (fs : filesystem) : outcome unit * filesystem :=
  match annotated_variants with
  | [] => (Returned tt, fs)
  | first :: _ =>
      let fieldnames := keys first in
      if writable fs output_tsv then
        let (r, file) :=
          writerows fieldnames annotated_variants [map VStr fieldnames] in
        (r, store output_tsv file fs)
      else (Raised IOError, fs)
  end.

(** [main], after the arguments are parsed.  [vcf] is what
    [VcfReader(args.input_vcf)] gives: the variants of the file, or
    [None] when the file cannot be opened.  The result is the exit
    status and the file system, or [None] while the annotation has not
    returned. *)
Definition main (vcf : option (list dict)) (output_tsv : string)
    (fuel : nat) (sched : schedule) (now : Z) (net : nat -> exchange)
    (fs : filesystem) : option (Z * filesystem) :=
  match vcf with
  | None => Some (1, fs)
  | Some vcf_reader =>
      match process_variants fuel vcf_reader sched now net with
      | Returned annotated_variants =>
          match write_to_tsv annotated_variants output_tsv fs with
          | (Returned _, fs') => Some (0, fs')
          | (Raised _, fs') => Some (1, fs')
          | (Pending, _) => None
          end
      | Raised _ => Some (1, fs)
      | Pending => None
      end
  end.

(** ** Worlds along one call *)

(** The world when [_apply_rate_limit] returns. *)
Definition admitted (w : world) : world := snd (run _apply_rate_limit w).

(** The request of a call. *)
Definition request_of (c : EnsemblApiClient) (e : endpoint)
    (params : list (string * value)) : request :=
  {| url_server := server c; url_endpoint := e; url_params := params;
     req_headers := [("Content-Type", "application/json")%string] |}.

(** The world once [_apply_rate_limit] has returned and the request is
    on the wire. *)
Definition attempt (w : world) (r : request) : world :=
  next_request (emit (EvGet (clock (admitted w)) r) (admitted w)).

(** The end of a sleep of [ms], after the logger was called. *)
Definition backoff (w : world) (ms : Z) : world :=
  with_clock (wake_time w ms) (emit (EvSleep (clock w) ms) w).

(** ** The response object, as the interface describes it *)

Definition is_dict (v : value) : bool :=
  match v with
  | VDict _ => true
  | _ => false
  end.

(** An element of [colocated_variants]: an object whose [frequencies],
    if present, maps alleles to objects. *)
Definition colocated_variant (v : value) : bool :=
  match v with
  | VDict d =>
      match dict_get "frequencies" d with
      | None => true
      | Some (VDict f) => forallb (fun kv => is_dict (snd kv)) f
      | Some _ => false
      end
  | _ => false
  end.

(** A response object: [transcript_consequences], if present, is an
    array of objects and [colocated_variants], if present, an array of
    objects as above. *)
Definition response_object (v : value) : bool :=
  match v with
  | VDict d =>
      match dict_get "transcript_consequences" d with
      | None => true
      | Some (VList l) => forallb is_dict l
      | Some _ => false
      end &&
      match dict_get "colocated_variants" d with
      | None => true
      | Some (VList l) => forallb colocated_variant l
      | Some _ => false
      end
  | _ => false
  end.

(** The extraction paths of the interface: a key of an object, the
    first or the last element of an array. *)
Inductive step : Type :=
| Key (k : string)
| First
| Last.

Fixpoint last_element (l : list value) : option value :=
  match l with
  | [] => None
  | [x] => Some x
  | _ :: l' => last_element l'
  end.

Fixpoint lookup_path (v : value) (path : list step) : option value :=
  match path with
  | [] => Some v
  | s :: path' =>
      match s, v with
      | Key k, VDict d =>
          match dict_get k d with
          | Some x => lookup_path x path'
          | None => None
          end
      | First, VList (x :: _) => lookup_path x path'
      | Last, VList l =>
          match last_element l with
          | Some x => lookup_path x path'
          | None => None
          end
      | _, _ => None
      end
  end.

(** A field that is absent is null. *)
Definition or_null (o : option value) : value :=
  match o with
  | Some v => v
  | None => VNone
  end.

(** The six annotation fields that the interface reads off a response
    object, for the alternate allele [alt]. *)
Definition extracted (alt : string) (p : value) : dict :=
  [("gene_id",
    or_null (lookup_path p [Key "transcript_consequences"; First; Key "gene_id"]));
   ("gene_symbol",
    or_null (lookup_path p [Key "transcript_consequences"; First; Key "gene_symbol"]));
   ("biotype",
    or_null (lookup_path p [Key "transcript_consequences"; First; Key "biotype"]));
   ("impact",
    or_null (lookup_path p [Key "transcript_consequences"; First; Key "impact"]));
   ("most_severe_consequence",
    or_null (lookup_path p [Key "most_severe_consequence"]));
   ("minor_allele_frequency",
    or_null (lookup_path p [Key "colocated_variants"; Last; Key "frequencies";
                            Key alt; Key "af"]))]%string.

(** A variant as the reader yields it: the query identifier is present
    and the alternate allele is a string. *)
Definition variant_of (alt : string) (d : dict) : Prop :=
  (exists h, dict_get "hgvs" d = Some h) /\ dict_get "alt" d = Some (VStr alt).

(** ** The two [try] blocks of [update_variant_info] *)

Definition tc_block (vep_info : value) : prog value :=
  try_except
    (tcs <- subscript vep_info (VStr "transcript_consequences") ;;
     subscript tcs (VInt 0))
    (fun e =>
       if is_lookup_error e then
         perform (Log DEBUG "No transcript consequences found for %s: %s") ;;
         Ret empty_dict
       else Raise e).

Definition maf_block (variant : dict) (vep_info : value) : prog value :=
  try_except
    (cvs <- subscript vep_info (VStr "colocated_variants") ;;
     cv <- subscript cvs (VInt (-1)) ;;
     freqs <- subscript cv (VStr "frequencies") ;;
     alt <- getitem variant "alt" ;;
     freq <- subscript freqs alt ;;
     subscript freq (VStr "af"))
    (fun e =>
       if is_lookup_error e then
         perform (Log DEBUG "No minor allele frequency found for %s: %s") ;;
         Ret VNone
       else Raise e).

(** The [update] call at the end of [update_variant_info]. *)
Definition merge (variant : dict) (vep_info transcript_consequences maf : value)
    : prog dict :=
  gene_id <- method_get transcript_consequences "gene_id" ;;
  gene_symbol <- method_get transcript_consequences "gene_symbol" ;;
  biotype <- method_get transcript_consequences "biotype" ;;
  impact <- method_get transcript_consequences "impact" ;;
  most_severe_consequence <- method_get vep_info "most_severe_consequence" ;;
  Ret (dict_update variant
         [("gene_id", gene_id); ("gene_symbol", gene_symbol);
          ("biotype", biotype); ("impact", impact);
          ("most_severe_consequence", most_severe_consequence);
          ("minor_allele_frequency", maf)]%string).

(** What [update_variant_info] does with the payload of its call. *)
Definition annotate (variant : dict) (vep_info : value) : prog dict :=
  transcript_consequences <- tc_block vep_info ;;
  maf <- maf_block variant vep_info ;;
  merge variant vep_info transcript_consequences maf.

(** The six annotation fields, all null. *)
Definition null_annotation : dict :=
  [("gene_id", VNone); ("gene_symbol", VNone); ("biotype", VNone);
   ("impact", VNone); ("most_severe_consequence", VNone);
   ("minor_allele_frequency", VNone)]%string.

(** ** Ordinary failures of the remote service *)

(** A parsed body of which element zero can be taken. *)
Definition has_element_zero (v : value) : bool :=
  match v with
  | VList (_ :: _) => true
  | VStr (String _ _) => true
  | _ => false
  end.

(** A body of which [perform_rest_action] gets no payload: it does not
    parse, or it has no element zero. *)
Definition unreadable (b : body) : bool :=
  match b with
  | Json v => negb (has_element_zero v)
  | WrongContentType | Undecodable => true
  end.

(** The failures that the call absorbs: a transport-level failure,
    HTTP 400, HTTP 5xx, or a success whose body is unreadable.  This is
    narrower than the ordinary failures of the specification, which are
    [ordinary_failure_of_spec] below. *)
Definition ordinary_failure (x : exchange) : bool :=
  match x with
  | Failed => true
  | Responded resp =>
      (status resp =? 400)
      || ((500 <=? status resp) && (status resp <=? 599))
      || ((status resp <? 400) && unreadable (resp_body resp))
  end.

(** A malformed response body, in the words of the specification: any
    body that is not a JSON array whose element zero is a response
    object of the interface. *)
Definition malformed_response (b : body) : bool :=
  match b with
  | Json (VList (p :: _)) => negb (response_object p)
  | Json _ | WrongContentType | Undecodable => true
  end.

(** The ordinary failures of the specification: a transport-level
    failure, HTTP 400, HTTP 5xx, or a success with a malformed
    response body. *)
Definition ordinary_failure_of_spec (x : exchange) : bool :=
  match x with
  | Failed => true
  | Responded resp =>
      (status resp =? 400)
      || ((500 <=? status resp) && (status resp <=? 599))
      || ((status resp <? 400) && malformed_response (resp_body resp))
  end.

(** The endpoint and the parameters of the call of a variant. *)
Definition vep_endpoint (hgvs : value) : endpoint :=
  Endpoint "/vep/human/hgvs/" hgvs.

Definition pick_one : list (string * value) := [("pick"%string, VInt 1)].

(** ** The scenarios of the specification *)

Definition variant_A : dict :=
  [("chrom", VStr "1"); ("pos", VInt 100); ("ref", VStr "A");
   ("alt", VStr "T"); ("hgvs", VStr "1:g.100A>T")]%string.

Definition payload_A : value :=
  VDict
    [("transcript_consequences",
      VList [VDict [("gene_id", VStr "G1"); ("gene_symbol", VStr "GENE1");
                    ("biotype", VStr "protein_coding");
                    ("impact", VStr "MODERATE")]]);
     ("most_severe_consequence", VStr "missense_variant");
     ("colocated_variants",
      VList [VDict [("frequencies",
                     VDict [("T", VDict [("af", VFloat "0.05")])])]])]%string.

Definition variant_B : dict :=
  [("chrom", VStr "1"); ("pos", VInt 200); ("ref", VStr "C");
   ("alt", VStr "G"); ("hgvs", VStr "1:g.200C>G")]%string.

(** A success carrying the one-element array [[p]]. *)
Definition ok (p : value) : exchange :=
  Responded {| status := 200; resp_headers := []; resp_body := Json (VList [p]) |}.

(** A failure with the given status and headers. *)
Definition http_error (code : Z) (h : headers) : exchange :=
  Responded {| status := code; resp_headers := h; resp_body := Undecodable |}.

(** A service that always gives the same answer. *)
Definition always (x : exchange) : nat -> exchange := fun _ => x.

(** A service that gives the answers of a list, then [x] for ever. *)
Definition script (l : list exchange) (x : exchange) : nat -> exchange :=
  fun n => nth n l x.

(** A time of day, in milliseconds since the epoch. *)
Definition noon : Z := 1700000000000.

(** HTTP 429 asking to retry after [ms]. *)
Definition throttle (ms : Z) : exchange :=
  http_error 429 [("Retry-After"%string, HSeconds ms)].

(** The call that [update_variant_info] makes for scenario A. *)
Definition request_A : request :=
  request_of default_client (vep_endpoint (VStr "1:g.100A>T")) pick_one.

Definition retry_warning : event :=
  EvLog WARNING "Rate limit exceeded. Retrying after %s seconds.".

(** A response of which [update_variant_info] takes the object [p]:
    a success status and a parsed array that starts with [p]. *)
Definition carries (resp : response) (p : value) : Prop :=
  status resp < 400 /\ exists rest, resp_body resp = Json (VList (p :: rest)).

Definition tc_path (field : string) : list step :=
  [Key "transcript_consequences"; First; Key field].

Definition maf_path (alt : string) : list step :=
  [Key "colocated_variants"; Last; Key "frequencies"; Key alt; Key "af"].

Definition gene_fields : list string :=
  ["gene_id"; "gene_symbol"; "biotype"; "impact"]%string.

(** A response object with neither [transcript_consequences] nor
    [colocated_variants]. *)
Definition bare_payload : value :=
  VDict [("most_severe_consequence"%string, VStr "intergenic_variant")].

(** Two runs that end in the same world, with the same exception or
    with results related by [R]. *)
Definition outcome_rel {A} (R : A -> A -> Prop) (x y : outcome A * world) : Prop :=
  snd x = snd y /\
  match fst x, fst y with
  | Returned a, Returned b => R a b
  | Raised e, Raised e' => e = e'
  | Pending, Pending => True
  | _, _ => False
  end.

(** Two records with the same fields. *)
Definition same_fields (r r' : dict) : Prop :=
  forall k, dict_get k r = dict_get k r'.

(** [r] has the fields of [v], but for the annotation fields. *)
Definition frame (v r : dict) : Prop :=
  forall k, ~ In k annotation_fields -> dict_get k r = dict_get k v.

(** ** The rate of admissions *)

(** The admissions within the second that ends at [t]. *)
Definition window_count (t : Z) (adm : list Z) : nat :=
  List.length (filter (fun a => (t - second <? a) && (a <=? t)) adm).

(** The event loop starts the tasks one after the other, at once. *)
Definition start_all (n : nat) : schedule := map (fun i => (i, 0)) (seq 0 n).

(** [n] concurrent calls of [_apply_rate_limit] on a fresh client,
    started at time [now]. *)
Definition burst (n : nat) (now : Z) : system unit :=
  exec (start_all n)
    (spawn (repeat _apply_rate_limit n) (boot now default_client (always Failed))).

(** ** Tasks of the orchestrator *)

(** Every result that the code can still return satisfies [P]. *)
Fixpoint all_rets {A} (P : A -> Prop) (p : prog A) : Prop :=
  match p with
  | Ret a => P a
  | Raise _ | OutOfFuel => True
  | Do o k => forall x, all_rets P (k x)
  end.

(** The identifying fields of a variant. *)
Definition same_variant (v r : dict) : Prop :=
  dict_get "chrom" r = dict_get "chrom" v
  /\ dict_get "pos" r = dict_get "pos" v
  /\ dict_get "ref" r = dict_get "ref" v
  /\ dict_get "alt" r = dict_get "alt" v.

(** What holds of a system of tasks whose results are to satisfy the
    predicates of [Ps], task by task. *)
Definition task_rets {A} (P : A -> Prop) (t : task A) : Prop :=
  match t with
  | Suspended _ p => all_rets P p
  | Returns a => P a
  | Raises _ => True
  end.

Record sound {A} (Ps : list (A -> Prop)) (s : system A) : Prop := {
  sound_tasks : Forall2 task_rets Ps (tasks s);
  sound_NoDup : NoDup (completed s);
  sound_completed : forall i, In i (completed s) -> (i < List.length (tasks s))%nat;
  sound_finished : forall i, In i (completed s) ->
                   exists t, nth_error (tasks s) i = Some t /\ finished t = true;
  sound_all : forall i t, nth_error (tasks s) i = Some t -> finished t = true ->
              In i (completed s)
}.

(** An answer from which [update_variant_info] returns: an ordinary
    failure, or a success that carries a response object. *)
Definition well_behaved (x : exchange) : Prop :=
  ordinary_failure x = true
  \/ exists resp p, x = Responded resp /\ carries resp p
                    /\ response_object p = true.

(** ** One task after the other *)

(** The coroutines of [progs] run one after the other, each to its
    end. *)
Fixpoint run_all {A} (progs : list (prog A)) (w : world)
    : outcome (list A) * world :=
  match progs with
  | [] => (Returned [], w)
  | p :: progs' =>
      match run p w with
      | (Returned a, w') =>
          match run_all progs' w' with
          | (Returned l, w'') => (Returned (a :: l), w'')
          | r => r
          end
      | (Raised e, w') => (Raised e, w')
      | (Pending, w') => (Pending, w')
      end
  end.

(** The schedule that resumes task 0 [k] times, then task 1, and so
    on. *)
Definition serial_schedule (n k : nat) : schedule :=
  List.concat (map (fun i => repeat (i, 0) k) (seq 0 n)).

(** The run of [p] from [w] never meets the lock held. *)
Fixpoint unblocked {A} (p : prog A) (w : world) : Prop :=
  match p with
  | Do o k =>
      match o with
      | Acquire => locked w = false
      | _ => True
      end
      /\ unblocked (k (fst (exec_op o w))) (snd (exec_op o w))
  | _ => True
  end.

(** The number of times the run of [p] from [w] is suspended. *)
Fixpoint suspensions {A} (p : prog A) (w : world) : nat :=
  match p with
  | Do o k =>
      match o with
      | Sleep _ | SessionGet _ => 1
      | _ => 0
      end
      + suspensions (k (fst (exec_op o w))) (snd (exec_op o w))
  | _ => 0
  end.

(** The task that a run has become when it has ended. *)
Definition task_of {A} (o : outcome A) (w : world) : task A :=
  match o with
  | Returned a => Returns a
  | Raised e => Raises e
  | Pending => Suspended (clock w) OutOfFuel
  end.

(** A run that starts and ends with the lock free, never finds it held
    and is suspended at most [k] times. *)
Definition calm {A} (k : nat) (p : prog A) (w : world) : Prop :=
  locked w = false
  /\ unblocked p w
  /\ (suspensions p w <= k)%nat
  /\ locked (snd (run p w)) = false.

(** Code that neither touches the lock nor suspends. *)
Fixpoint quiet {A} (p : prog A) : Prop :=
  match p with
  | Do o k =>
      match o with
      | Acquire | Release | Sleep _ | SessionGet _ => False
      | _ => True
      end
      /\ forall x, quiet (k x)
  | _ => True
  end.

(** The tasks and the world that [run_all] leaves. *)
Fixpoint serial_tasks {A} (progs : list (prog A)) (w : world) : list (task A) :=
  match progs with
  | [] => []
  | p :: progs' =>
      task_of (fst (run p w)) (snd (run p w))
      :: serial_tasks progs' (snd (run p w))
  end.

Fixpoint serial_world {A} (progs : list (prog A)) (w : world) : world :=
  match progs with
  | [] => w
  | p :: progs' => serial_world progs' (snd (run p w))
  end.

(** Each coroutine, run after the ones before it, never finds the lock
    held, is suspended less than [k] times and comes to an end. *)
Fixpoint serial_ok {A} (k : nat) (progs : list (prog A)) (w : world) : Prop :=
  match progs with
  | [] => True
  | p :: progs' =>
      unblocked p w
      /\ (suspensions p w < k)%nat
      /\ fst (run p w) <> Pending
      /\ serial_ok k progs' (snd (run p w))
  end.

(** ** Throttling *)

(** HTTP 429 with a [Retry-After] that [float()] parses to [ms]. *)
Definition throttled_for (ms : Z) (x : exchange) : Prop :=
  exists resp, x = Responded resp /\ status resp = 429
               /\ header_get "Retry-After" (resp_headers resp) = Some (HSeconds ms).

(** The time asked for by a list of delays. *)
Fixpoint total_delay (delays : list Z) : Z :=
  match delays with
  | [] => 0
  | d :: delays' => Z.max 0 d + total_delay delays'
  end.

(** A [Retry-After] header that carries a date. *)
Definition retry_at_date : exchange :=
  http_error 429 [("Retry-After"%string, HText "Wed, 21 Oct 2015 07:28:00 GMT")].

(** A record that lacks the query identifier. *)
Definition variant_without_hgvs : dict :=
  [("chrom", VStr "1"); ("pos", VInt 100); ("ref", VStr "A"); ("alt", VStr "T")]%string.

(** ** The report *)

(** The cells of a record under the field names of the header. *)
Definition row_of (fieldnames : list string) (row : dict) : list value :=
  map (fun k => match dict_get k row with
                | Some v => v
                | None => VStr ""
                end) fieldnames.

(** The file of a list of records whose keys are all in the header. *)
Definition report (fieldnames : list string) (rows : list dict) : tsv :=
  map VStr fieldnames :: map (row_of fieldnames) rows.

(** [r] is [v] after an update of the six annotation fields. *)
Definition annotated (v r : dict) : Prop :=
  exists u, keys u = annotation_fields /\ r = dict_update v u.

(** ** Calls of the rate limiter, one after the other *)

(** The calls of [_apply_rate_limit] are serialized by the lock: each
    one starts when the one before has returned, [dt] later. *)
Fixpoint admit_each (delays : list Z) (w : world) : world :=
  match delays with
  | [] => w
  | dt :: delays' =>
      admit_each delays' (admitted (with_clock (clock w + Z.max 0 dt) w))
  end.

(** What the rate limiter keeps, for a ceiling that is at least 1: the
    admissions so far are those of older windows, at least a second
    old, those of the window before the last reset, and those since
    the last reset, as many as the counter says. *)
Definition limiter_inv (w : world) : Prop :=
  exists older prev cur,
    admissions (trace w) = older ++ prev ++ cur
    /\ Forall (fun a => a <= clock w - second) older
    /\ Forall (fun a => a <= last_req (client w)) prev
    /\ Forall (fun a => a <= clock w) cur
    /\ Z.of_nat (List.length prev) <= reqs_per_sec (client w)
    /\ Z.of_nat (List.length cur) = req_count (client w)
    /\ req_count (client w) <= reqs_per_sec (client w)
    /\ forall t, Z.of_nat (window_count t (admissions (trace w)))
                 <= 2 * reqs_per_sec (client w).

(** ** vcf_reader.py *)

(** A record of the VCF parser: [CHROM] and [REF] are strings, [POS] an
    integer, [ALT] the alternate alleles, each as [str()] gives it.
    [sample i] is what the [try] block of [get_coverage_info] comes to
    for the alternate allele [i]: the number of reads, the reads of the
    variant and the percentage, or the exception that a lookup in the
    sample or the arithmetic raises (IndexError without a sample or
    past the end of a field, AttributeError for a field the sample does
    not have, TypeError for a field that is no list of numbers); the
    lookups and the division themselves are not modelled. *)
Record vcf_record : Type := {
  CHROM : string;
  POS : Z;
  REF : string;
  ALT : list string;
  sample : nat -> exn + (value * value * value)
}.

(** The reads of the alternate allele [i], when the [try] block has
    them. *)
Definition reads (record : vcf_record) (i : nat)
    : option (value * value * value) :=
  match sample record i with
  | inr r => Some r
  | inl _ => None
  end.

(** The dict that [get_coverage_info] returns, when it returns. *)
Definition coverage_info (record : vcf_record) (index : nat) : dict :=
  match reads record index with
  | None => []
  | Some (num_reads, variant_reads, variant_percentage) =>
      [("num_reads", num_reads); ("variant_reads", variant_reads);
       ("variant_percentage", variant_percentage)]%string
  end.

(** [VcfReader.get_coverage_info]: the handler catches IndexError and
    KeyError; any other exception leaves the method. *)
Definition get_coverage_info (record : vcf_record) (index : nat) : exn + dict :=
  match sample record index with
  | inr (num_reads, variant_reads, variant_percentage) =>
      inr [("num_reads", num_reads); ("variant_reads", variant_reads);
           ("variant_percentage", variant_percentage)]%string
  | inl e => if is_lookup_error e then inr [] else inl e
  end.

(** [str(n)] of an integer. *)
Definition str_int (n : Z) : string := NilZero.string_of_int (Z.to_int n).

(** [f"{record.CHROM}:g.{record.POS}{record.REF}>{alt}"] *)
Definition hgvs_of (record : vcf_record) (alt : string) : string :=
  (CHROM record ++ ":g." ++ str_int (POS record) ++ REF record ++ ">" ++ alt)%string.

(** The dict literal of the inner loop of [VcfReader.__iter__]. *)
Definition variant_fields (record : vcf_record) (alt : string) : dict :=
  [("chrom", VStr (CHROM record)); ("pos", VInt (POS record));
   ("ref", VStr (REF record)); ("alt", VStr alt);
   ("hgvs", VStr (hgvs_of record alt))]%string.

(** The variant that the inner loop yields for the alternate allele
    [i], when [get_coverage_info] returns. *)
Definition variant_info (record : vcf_record) (i : nat) (alt : string) : dict :=
  dict_update (variant_fields record alt) (coverage_info record i).

(** [enumerate(l)], counting from [i]. *)
Fixpoint enumerate {A} (i : nat) (l : list A) : list (nat * A) :=
  match l with
  | [] => []
  | x :: l' => (i, x) :: enumerate (S i) l'
  end.

(** What a generator does when it is run to its end: the values it
    yields, in order, and the exception that ends it, if one does. *)
Definition generator : Type := list dict * option exn.

(** The inner loop of [VcfReader.__iter__], over
    [enumerate(record.ALT)]. *)
Fixpoint alternates (record : vcf_record) (l : list (nat * string)) : generator :=
  match l with
  | [] => ([], None)
  | (i, alt) :: l' =>
      match get_coverage_info record i with
      | inl e => ([], Some e)
      | inr info =>
          let (yielded, e) := alternates record l' in
          (dict_update (variant_fields record alt) info :: yielded, e)
      end
  end.

(** [VcfReader.__iter__], over the records that the parser gives. *)
Fixpoint __iter__ (vcf_reader : list vcf_record) : generator :=
  match vcf_reader with
  | [] => ([], None)
  | record :: records =>
      match alternates record (enumerate 0 (ALT record)) with
      | (yielded, Some e) => (yielded, Some e)
      | (yielded, None) =>
          let (yielded', e) := __iter__ records in
          (yielded ++ yielded', e)
      end
  end.

(** [process_variants] on the reader itself: the list comprehension
    runs the generator to its end before any task exists, so that an
    exception of the reader leaves [process_variants] with no request
    sent. *)
Definition process_reader (fuel : nat) (vcf_reader : list vcf_record)
    (sched : schedule) (now : Z) (net : nat -> exchange) : outcome (list dict) :=
  match __iter__ vcf_reader with
  | (variants, None) => process_variants fuel variants sched now net
  | (_, Some e) => Raised e
  end.

(** The alternate alleles of a file, in its order: the record, the
    index and the allele. *)
Definition alleles (vcf_reader : list vcf_record)
    : list (vcf_record * nat * string) :=
  flat_map (fun record =>
              map (fun ia => (record, fst ia, snd ia))
                (enumerate 0 (ALT record)))
    vcf_reader.

(** The variant of an alternate allele, and what [get_coverage_info]
    does for it. *)
Definition yielded_for (a : vcf_record * nat * string) : dict :=
  variant_info (fst (fst a)) (snd (fst a)) (snd a).

Definition coverage_of (a : vcf_record * nat * string) : exn + dict :=
  get_coverage_info (fst (fst a)) (snd (fst a)).

(** The record of scenario A. *)
Definition record_A : vcf_record :=
  {| CHROM := "1"; POS := 100; REF := "A"; ALT := ["T"%string];
     sample := fun _ => inl IndexError |}.

(** A record with two alternate alleles and the reads of the first. *)
Definition record_C : vcf_record :=
  {| CHROM := "2"; POS := 5000; REF := "G"; ALT := ["A"; "GT"]%string;
     sample := fun i => match i with
                        | O => inr (VInt 40, VInt 10, VFloat "25.0")
                        | _ => inl IndexError
                        end |}.

(** A record whose sample has no field [NR]. *)
Definition record_D : vcf_record :=
  {| CHROM := "3"; POS := 7; REF := "C"; ALT := ["G"%string];
     sample := fun _ => inl AttributeError |}.

(** * Properties *)

(** ** Dicts *)

Lemma dict_get_set_same (k : string) (v : value) (d : dict) :
  dict_get k (dict_set k v d) = Some v.
Proof.
  induction d as [|[k' v'] d IH]; simpl.
  - now rewrite String.eqb_refl.
  - destruct (String.eqb k k') eqn:E; simpl; rewrite E; auto.
Qed.

Lemma dict_get_set_other (k k' : string) (v : value) (d : dict) :
  k <> k' -> dict_get k (dict_set k' v d) = dict_get k d.
Proof.
  intros Hne. induction d as [|[k0 v0] d IH]; simpl.
  - destruct (String.eqb k k') eqn:E; auto.
    apply String.eqb_eq in E. contradiction.
  - destruct (String.eqb k' k0) eqn:E; simpl.
    + apply String.eqb_eq in E. subst k0.
      destruct (String.eqb k k') eqn:E'; auto.
      apply String.eqb_eq in E'. contradiction.
    + now rewrite IH.
Qed.

Lemma dict_get_update_other (k : string) (u d : dict) :
  ~ In k (keys u) -> dict_get k (dict_update d u) = dict_get k d.
Proof.
  unfold dict_update. revert d.
  induction u as [|[k' v'] u IH]; intros d Hk; simpl; auto.
  rewrite IH.
  - apply dict_get_set_other. intro; subst. apply Hk. now left.
  - intro. apply Hk. now right.
Qed.

Lemma keys_dict_set_in (k : string) (v : value) (d : dict) :
  In k (keys d) -> keys (dict_set k v d) = keys d.
Proof.
  induction d as [|[k' v'] d IH]; simpl; intros Hin; [tauto|].
  destruct (String.eqb k k') eqn:E; simpl; auto.
  f_equal. apply IH. destruct Hin as [->|]; auto.
  now rewrite String.eqb_refl in E.
Qed.

Lemma keys_dict_set_new (k : string) (v : value) (d : dict) :
  ~ In k (keys d) -> keys (dict_set k v d) = keys d ++ [k].
Proof.
  induction d as [|[k' v'] d IH]; simpl; intros Hin; auto.
  destruct (String.eqb k k') eqn:E; simpl.
  - apply String.eqb_eq in E. subst. tauto.
  - f_equal. apply IH. tauto.
Qed.

Lemma in_keys_dict_set (k k' : string) (v : value) (d : dict) :
  In k (keys (dict_set k' v d)) <-> k = k' \/ In k (keys d).
Proof.
  induction d as [|[k0 v0] d IH]; simpl.
  - intuition.
  - destruct (String.eqb k' k0) eqn:E; simpl.
    + apply String.eqb_eq in E. subst. intuition.
    + rewrite IH. intuition.
Qed.

Lemma NoDup_keys_dict_set (k : string) (v : value) (d : dict) :
  NoDup (keys d) -> NoDup (keys (dict_set k v d)).
Proof.
  induction d as [|[k' v'] d IH]; simpl; intros Hd.
  - constructor; [tauto | constructor].
  - inversion Hd as [|? ? Hnotin Hd']; subst.
    destruct (String.eqb k k') eqn:E; simpl.
    + constructor; auto.
    + constructor; auto.
      rewrite in_keys_dict_set. intros [->|]; auto.
      now rewrite String.eqb_refl in E.
Qed.

Lemma NoDup_keys_dict_update (u d : dict) :
  NoDup (keys d) -> NoDup (keys (dict_update d u)).
Proof.
  unfold dict_update. revert d.
  induction u as [|[k v] u IH]; simpl; intros d Hd; auto.
  apply IH. now apply NoDup_keys_dict_set.
Qed.

Lemma dict_set_set (k : string) (x y : value) (d : dict) :
  dict_set k x (dict_set k y d) = dict_set k x d.
Proof.
  induction d as [|[k' v'] d IH]; simpl.
  - now rewrite String.eqb_refl.
  - destruct (String.eqb k k') eqn:E; simpl; rewrite E; auto.
    now rewrite IH.
Qed.

(** Writing a key that is present commutes with writing any other key. *)
Lemma dict_set_comm (k k' : string) (x y : value) (d : dict) :
  k <> k' -> In k (keys d) ->
  dict_set k x (dict_set k' y d) = dict_set k' y (dict_set k x d).
Proof.
  intros Hne. induction d as [|[k0 v0] d IH]; simpl; intros Hin; [tauto|].
  destruct (String.eqb k' k0) eqn:E'; destruct (String.eqb k k0) eqn:E;
    simpl; rewrite ?E, ?E'; auto.
  - apply String.eqb_eq in E, E'. congruence.
  - f_equal. apply IH. destruct Hin as [->|]; auto.
    now rewrite String.eqb_refl in E.
Qed.

Lemma dict_set_update (k : string) (x : value) (u d : dict) :
  ~ In k (keys u) -> In k (keys d) ->
  dict_set k x (dict_update d u) = dict_update (dict_set k x d) u.
Proof.
  unfold dict_update. revert d.
  induction u as [|[k' v'] u IH]; simpl; intros d Hu Hd; auto.
  rewrite IH.
  - f_equal. apply dict_set_comm; auto.
  - tauto.
  - apply in_keys_dict_set. auto.
Qed.

(** Updating twice with the same keys is updating once, with the
    second values. *)
Lemma dict_update_update (u1 u2 d : dict) :
  keys u1 = keys u2 -> NoDup (keys u1) ->
  dict_update (dict_update d u1) u2 = dict_update d u2.
Proof.
  revert u2 d.
  induction u1 as [|[k a] u1 IH]; intros [|[k' b] u2] d Hk Hnd;
    simpl in Hk; try discriminate; auto.
  injection Hk as <- Hk. inversion Hnd as [|? ? Hnotin Hnd']; subst.
  change (dict_update (dict_update d ((k, a) :: u1)) ((k, b) :: u2))
    with (dict_update (dict_set k b (dict_update (dict_set k a d) u1)) u2).
  rewrite dict_set_update; auto.
  - rewrite dict_set_set. rewrite IH; auto.
  - apply in_keys_dict_set. auto.
Qed.

(** ** A coroutine run alone *)

Lemma run_bind {A B} (p : prog A) (f : A -> prog B) (w : world) :
  run (bind p f) w =
  match run p w with
  | (Returned a, w') => run (f a) w'
  | (Raised e, w') => (Raised e, w')
  | (Pending, w') => (Pending, w')
  end.
Proof.
  revert w. induction p as [a|e| |X o k IH]; intros w; simpl; auto.
  destruct (exec_op o w) as [x w']. apply IH.
Qed.

Lemma run_try_except {A} (p : prog A) (h : exn -> prog A) (w : world) :
  run (try_except p h) w =
  match run p w with
  | (Raised e, w') => run (h e) w'
  | r => r
  end.
Proof.
  revert w. induction p as [a|e| |X o k IH]; intros w; simpl; auto.
  destruct (exec_op o w) as [x w']. apply IH.
Qed.

Lemma run_apply_rate_limit (w : world) :
  run _apply_rate_limit w = (Returned tt, admitted w).
Proof.
  unfold admitted, _apply_rate_limit. simpl.
  destruct (req_count (client w) >=? reqs_per_sec (client w)); simpl; auto.
  destruct (clock w - last_req (client w) <? second); simpl; auto.
Qed.

Lemma admitted_network (w : world) : network (admitted w) = network w.
Proof.
  unfold admitted, _apply_rate_limit. simpl.
  destruct (req_count (client w) >=? reqs_per_sec (client w)); simpl; auto.
  destruct (clock w - last_req (client w) <? second); simpl; auto.
Qed.

Lemma admitted_sent (w : world) : sent (admitted w) = sent w.
Proof.
  unfold admitted, _apply_rate_limit. simpl.
  destruct (req_count (client w) >=? reqs_per_sec (client w)); simpl; auto.
  destruct (clock w - last_req (client w) <? second); simpl; auto.
Qed.

Lemma admitted_server (w : world) : server (client (admitted w)) = server (client w).
Proof.
  unfold admitted, _apply_rate_limit. simpl.
  destruct (req_count (client w) >=? reqs_per_sec (client w)); simpl; auto.
  destruct (clock w - last_req (client w) <? second); simpl; auto.
Qed.

Lemma admitted_clock (w : world) : clock w <= clock (admitted w).
Proof.
  unfold admitted, _apply_rate_limit. simpl.
  destruct (req_count (client w) >=? reqs_per_sec (client w)); simpl; try lia.
  destruct (clock w - last_req (client w) <? second); simpl;
    unfold wake_time; simpl; lia.
Qed.

(** [_apply_rate_limit] takes the lock, sleeps at most once and
    releases the lock at the time it returns. *)
Lemma admitted_trace (w : world) :
  exists evs,
    trace (admitted w) =
      trace w ++ EvAcquire (clock w) :: evs ++ [EvRelease (clock (admitted w))]
    /\ admissions evs = [] /\ sends evs = [].
Proof.
  unfold admitted, _apply_rate_limit. simpl.
  destruct (req_count (client w) >=? reqs_per_sec (client w)); simpl.
  - destruct (clock w - last_req (client w) <? second); simpl.
    + eexists [_]. rewrite <- !app_assoc. simpl. split; [reflexivity|].
      split; reflexivity.
    + exists []. rewrite <- !app_assoc. simpl. auto.
  - exists []. rewrite <- !app_assoc. simpl. auto.
Qed.

Lemma subscript_cases (c k : value) :
  (exists v, subscript c k = Ret v) \/
  subscript c k = Raise KeyError \/
  subscript c k = Raise IndexError \/
  subscript c k = Raise TypeError.
Proof.
  assert (Hl : forall l i, (exists v, list_index l i = Ret v) \/
                           list_index l i = Raise IndexError).
  { intros l i. unfold list_index.
    destruct ((0 <=? _) && _); auto.
    destruct (nth_error _ _); eauto. }
  assert (Hs : forall s i, (exists v, str_index s i = Ret v) \/
                           str_index s i = Raise IndexError).
  { intros s i. unfold str_index.
    destruct ((0 <=? _) && _); auto.
    destruct (String.get _ _); eauto. }
  destruct c; simpl; auto.
  - destruct k; auto;
      match goal with |- context [str_index ?s ?i] =>
        destruct (Hs s i) as [?|?]; auto end.
  - destruct k; auto;
      match goal with |- context [list_index ?l ?i] =>
        destruct (Hl l i) as [?|?]; auto end.
  - destruct k; auto. destruct (dict_get _ _); eauto.
Qed.

(** ** Header names *)

(** A header is found under its name in any letter case. *)
Lemma header_get_lower (k k' : string) (v : header_value) (h : headers) :
  lower k = lower k' -> header_get k ((k', v) :: h) = Some v.
Proof.
  intros E. simpl. rewrite E, String.eqb_refl. reflexivity.
Qed.

Lemma header_get_other (k k' : string) (v : header_value) (h : headers) :
  lower k <> lower k' -> header_get k ((k', v) :: h) = header_get k h.
Proof.
  intros E. simpl. apply String.eqb_neq in E. rewrite E. reflexivity.
Qed.

(** A service that names the header [retry-after] is retried as well:
    two requests, and a sleep of one second between them. *)
Lemma retry_after_in_lower_case :
  let net := script [http_error 429 [("retry-after"%string, HSeconds 1000)]]
               (ok payload_A) in
  let r := run (perform_rest_action 2 (vep_endpoint (VStr "1:g.100A>T")) pick_one)
               (boot noon default_client net) in
  fst r = Returned payload_A
  /\ sent (snd r) = 2%nat
  /\ slept (trace (snd r)) = 1000.
Proof.
  vm_compute. repeat split; reflexivity.
Qed.

(** One call of [perform_rest_action], by the answer to its request. *)
Lemma perform_rest_action_S (fuel : nat) (e : endpoint)
    (params : list (string * value)) (w : world) :
  run (perform_rest_action (S fuel) e params) w =
  let w1 := attempt w (request_of (client w) e params) in
  match network w (sent w) with
  | Failed =>
      (Returned empty_dict, emit (EvLog ERROR "Error making request for %s: %s") w1)
  | Responded resp =>
      if 400 <=? status resp then
        if status resp =? 429 then
          match header_get "Retry-After" (resp_headers resp) with
          | Some (HSeconds d) =>
              run (perform_rest_action fuel e params)
                (backoff (emit (EvLog WARNING "Rate limit exceeded. Retrying after %s seconds.") w1) d)
          | Some (HText _) =>
              (Raised ValueError,
               emit (EvLog WARNING "Rate limit exceeded. Retrying after %s seconds.") w1)
          | None => (Returned empty_dict, w1)
          end
        else if status resp =? 400 then
          (Returned empty_dict, emit (EvLog INFO "Endpoint not found: %s") w1)
        else
          (Returned empty_dict, emit (EvLog ERROR "Request failed for %s: %s - %s") w1)
      else
        match resp_body resp with
        | Json v =>
            match subscript v (VInt 0) with
            | Ret x => (Returned x, w1)
            | _ => (Returned empty_dict,
                    emit (EvLog ERROR "Error making request for %s: %s") w1)
            end
        | WrongContentType =>
            (Returned empty_dict, emit (EvLog ERROR "Request failed for %s: %s - %s") w1)
        | Undecodable =>
            (Returned empty_dict, emit (EvLog ERROR "Error making request for %s: %s") w1)
        end
  end.
Proof.
  cbn [perform_rest_action].
  rewrite run_bind. cbn [perform run exec_op].
  rewrite run_bind, run_apply_rate_limit.
  rewrite run_try_except, run_bind.
  unfold session_get. rewrite run_bind. cbn [perform run exec_op].
  rewrite admitted_network, admitted_sent.
  unfold attempt, request_of.
  destruct (network w (sent w)) as [resp|]; cbn [run]; auto.
  rewrite run_bind. unfold raise_for_status.
  destruct (400 <=? status resp) eqn:E400; cbn [run].
  - destruct (status resp =? 429) eqn:E429.
    + destruct (header_get _ _) as [[d|s]|]; reflexivity.
    + destruct (status resp =? 400); reflexivity.
  - rewrite run_bind. unfold json.
    destruct (resp_body resp) as [v| |]; cbn [run].
    + destruct (subscript_cases v (VInt 0)) as [ [x ->] | [ -> | [ -> | -> ] ] ];
        reflexivity.
    + assert ((status resp =? 429) = false) as -> by lia.
      assert ((status resp =? 400) = false) as -> by lia.
      reflexivity.
    + reflexivity.
Qed.

(** ** The body of [update_variant_info] *)

Lemma update_variant_info_blocks (fuel : nat) (variant : dict) :
  update_variant_info fuel variant =
  (hgvs <- getitem variant "hgvs" ;;
   vep_info <- perform_rest_action fuel (Endpoint "/vep/human/hgvs/" hgvs)
                 [("pick"%string, VInt 1)] ;;
   transcript_consequences <- tc_block vep_info ;;
   maf <- maf_block variant vep_info ;;
   merge variant vep_info transcript_consequences maf).
Proof. reflexivity. Qed.

Lemma list_index_first (l : list value) :
  list_index l 0 = match l with
                   | x :: _ => Ret x
                   | [] => Raise IndexError
                   end.
Proof. destruct l; reflexivity. Qed.

Lemma last_element_nth (l : list value) :
  l <> [] -> last_element l = nth_error l (pred (List.length l)).
Proof.
  induction l as [|x l IH]; intros Hne; [congruence|].
  destruct l as [|y l]; [reflexivity|].
  change (last_element (x :: y :: l)) with (last_element (y :: l)).
  rewrite IH by discriminate. reflexivity.
Qed.

Lemma list_index_last (l : list value) :
  list_index l (-1) = match last_element l with
                      | Some x => Ret x
                      | None => Raise IndexError
                      end.
Proof.
  destruct l as [|x l]; [reflexivity|].
  rewrite last_element_nth by discriminate.
  unfold list_index.
  change (-1 <? 0) with true. cbv iota.
  change (pred (List.length (x :: l))) with (List.length l).
  assert (Hn : -1 + Z.of_nat (List.length (x :: l)) = Z.of_nat (List.length l))
    by (simpl List.length; lia).
  rewrite Hn, Nat2Z.id.
  assert (H0 : (0 <=? Z.of_nat (List.length l)) = true)
    by (apply Z.leb_le; lia).
  assert (H1 : (Z.of_nat (List.length l) <? Z.of_nat (List.length (x :: l))) = true)
    by (apply Z.ltb_lt; simpl List.length; lia).
  rewrite H0, H1. simpl andb.
  destruct (nth_error (x :: l) (List.length l)); reflexivity.
Qed.

Lemma method_get_dict (d : dict) (k : string) :
  method_get (VDict d) k = Ret (or_null (dict_get k d)).
Proof. unfold method_get. destruct (dict_get k d); reflexivity. Qed.

(** On a response object the first block gives an object: the first
    transcript consequence, or the empty one. *)
Lemma run_tc_block (p : value) (w : world) :
  response_object p = true ->
  exists t w',
    run (tc_block p) w = (Returned (VDict t), w') /\
    forall k, or_null (dict_get k t) =
              or_null (lookup_path p [Key "transcript_consequences"; First; Key k]).
Proof.
  intros Hp. destruct p as [| | | | | |d]; try discriminate.
  simpl in Hp. apply andb_prop in Hp. destruct Hp as [Htc _].
  unfold tc_block. rewrite run_try_except, run_bind. simpl subscript.
  simpl lookup_path.
  destruct (dict_get "transcript_consequences" d) as [tcs|]; simpl run.
  - destruct tcs as [| | | | |l|]; try discriminate.
    simpl subscript. rewrite list_index_first.
    destruct l as [|x l]; simpl run.
    + exists [], (emit (EvLog DEBUG "No transcript consequences found for %s: %s") w).
      split; reflexivity.
    + simpl in Htc. apply andb_prop in Htc. destruct Htc as [Hx _].
      destruct x as [| | | | | |t]; try discriminate.
      exists t, w. split; [reflexivity|].
      intros k. destruct (dict_get k t); reflexivity.
  - exists [], (emit (EvLog DEBUG "No transcript consequences found for %s: %s") w).
    split; reflexivity.
Qed.

Lemma forallb_last_element (f : value -> bool) (l : list value) (x : value) :
  forallb f l = true -> last_element l = Some x -> f x = true.
Proof.
  induction l as [|y l IH]; [discriminate|].
  intros Hf Hl. simpl in Hf. apply andb_prop in Hf. destruct Hf as [Hy Hf].
  destruct l as [|z l].
  - injection Hl as <-. exact Hy.
  - apply IH; auto.
Qed.

Lemma forallb_dict_get (f : value -> bool) (d : dict) (k : string) (x : value) :
  forallb (fun kv => f (snd kv)) d = true -> dict_get k d = Some x -> f x = true.
Proof.
  induction d as [|[k' v'] d IH]; [discriminate|].
  simpl. intros Hf Hk. apply andb_prop in Hf. destruct Hf as [Hv Hf].
  destruct (String.eqb k k'); auto. injection Hk as <-. exact Hv.
Qed.

(** On a response object the second block gives the frequency found
    along the path, or null. *)
Lemma run_maf_block (variant : dict) (alt : string) (p : value) (w : world) :
  dict_get "alt" variant = Some (VStr alt) ->
  response_object p = true ->
  exists w',
    run (maf_block variant p) w =
    (Returned (or_null (lookup_path p
                 [Key "colocated_variants"; Last; Key "frequencies";
                  Key alt; Key "af"])), w').
Proof.
  intros Halt Hp. destruct p as [| | | | | |d]; try discriminate.
  simpl in Hp. apply andb_prop in Hp. destruct Hp as [_ Hcv].
  unfold maf_block. rewrite run_try_except, run_bind. simpl subscript.
  simpl lookup_path.
  destruct (dict_get "colocated_variants" d) as [cvs|]; simpl run;
    [|eexists; reflexivity].
  destruct cvs as [| | | | |l|]; try discriminate.
  rewrite run_bind. simpl subscript. rewrite list_index_last.
  destruct (last_element l) as [cv|] eqn:El; simpl run;
    [|eexists; reflexivity].
  pose proof (forallb_last_element _ _ _ Hcv El) as Hc.
  destruct cv as [| | | | | |c]; try discriminate.
  simpl in Hc. rewrite run_bind. simpl subscript.
  destruct (dict_get "frequencies" c) as [freqs|]; simpl run;
    [|eexists; reflexivity].
  destruct freqs as [| | | | | |f]; try discriminate.
  rewrite run_bind. unfold getitem. simpl subscript. rewrite Halt.
  simpl run. cbv beta iota. rewrite run_bind.
  destruct (dict_get alt f) as [freq|] eqn:Ef; simpl run;
    [|eexists; reflexivity].
  pose proof (forallb_dict_get _ _ _ _ Hc Ef) as Hfreq.
  destruct freq as [| | | | | |a]; try discriminate.
  simpl subscript.
  destruct (dict_get "af" a); simpl run; eexists; reflexivity.
Qed.

Lemma run_update_variant_info (fuel : nat) (variant : dict) (w : world) :
  run (update_variant_info fuel variant) w =
  match dict_get "hgvs" variant with
  | None => (Raised KeyError, w)
  | Some hgvs =>
      match run (perform_rest_action fuel (vep_endpoint hgvs) pick_one) w with
      | (Returned vep_info, w') => run (annotate variant vep_info) w'
      | (Raised e, w') => (Raised e, w')
      | (Pending, w') => (Pending, w')
      end
  end.
Proof.
  rewrite update_variant_info_blocks, run_bind.
  unfold getitem. simpl subscript.
  destruct (dict_get "hgvs" variant) as [hgvs|]; [|reflexivity].
  simpl run. cbv beta iota. rewrite run_bind. reflexivity.
Qed.

(** With the empty payload every annotation field is null; the two
    lookups that fail are logged. *)
Lemma run_annotate_empty (variant : dict) (w : world) :
  run (annotate variant empty_dict) w =
  (Returned (dict_update variant null_annotation),
   emit (EvLog DEBUG "No minor allele frequency found for %s: %s")
     (emit (EvLog DEBUG "No transcript consequences found for %s: %s") w)).
Proof. reflexivity. Qed.

(** With a response object the annotation fields are the ones found
    along the extraction paths. *)
Lemma run_annotate_response_object (variant : dict) (alt : string)
    (p : value) (w : world) :
  dict_get "alt" variant = Some (VStr alt) ->
  response_object p = true ->
  exists w',
    run (annotate variant p) w =
    (Returned (dict_update variant (extracted alt p)), w').
Proof.
  intros Halt Hp. unfold annotate.
  rewrite run_bind.
  destruct (run_tc_block p w Hp) as (t & w1 & -> & Ht).
  rewrite run_bind.
  destruct (run_maf_block variant alt p w1 Halt Hp) as (w2 & ->).
  exists w2. unfold merge.
  rewrite !method_get_dict. cbn [bind].
  destruct p as [| | | | | |d]; try discriminate.
  rewrite method_get_dict. cbn [bind run].
  unfold extracted. rewrite <- !Ht.
  do 3 f_equal. simpl lookup_path.
  destruct (dict_get "most_severe_consequence" d); reflexivity.
Qed.

Lemma dict_get_update_in (k : string) (v : value) (u d : dict) :
  NoDup (keys u) -> In (k, v) u -> dict_get k (dict_update d u) = Some v.
Proof.
  unfold dict_update. revert d.
  induction u as [|[k' v'] u IH]; intros d Hnd Hin; [contradiction|].
  simpl in Hnd. inversion Hnd as [|? ? Hk Hnd']; subst.
  destruct Hin as [E|Hin].
  - injection E as -> ->. simpl.
    change (dict_get k (dict_update (dict_set k v d) u) = Some v).
    rewrite dict_get_update_other by exact Hk.
    apply dict_get_set_same.
  - simpl. apply IH; auto.
Qed.

Lemma NoDup_annotation_fields : NoDup annotation_fields.
Proof.
  unfold annotation_fields.
  repeat (constructor; [simpl; intuition discriminate|]). constructor.
Qed.

Lemma null_annotation_get (variant : dict) (f : string) :
  In f annotation_fields ->
  dict_get f (dict_update variant null_annotation) = Some VNone.
Proof.
  intros Hf. apply dict_get_update_in.
  - exact NoDup_annotation_fields.
  - unfold annotation_fields in Hf. simpl in Hf. unfold null_annotation.
    repeat (destruct Hf as [<-|Hf]; [simpl; tauto|]). contradiction.
Qed.

Lemma subscript_no_element_zero (v : value) :
  has_element_zero v = false ->
  match subscript v (VInt 0) with
  | Ret _ => False
  | _ => True
  end.
Proof.
  destruct v as [| | | |s|l|d]; simpl; auto.
  - destruct s; [reflexivity|discriminate].
  - destruct l; [reflexivity|discriminate].
Qed.

(** ** Ordinary failures are absorbed *)

Lemma perform_rest_action_ordinary_failure (fuel : nat) (e : endpoint)
    (params : list (string * value)) (w : world) :
  ordinary_failure (network w (sent w)) = true ->
  exists w',
    run (perform_rest_action (S fuel) e params) w = (Returned empty_dict, w').
Proof.
  intros Hf. rewrite perform_rest_action_S. cbv zeta.
  destruct (network w (sent w)) as [resp|]; [|eexists; reflexivity].
  simpl in Hf.
  destruct (400 <=? status resp) eqn:E400.
  - destruct (status resp =? 429) eqn:E429.
    + exfalso.
      assert (status resp = 429) by lia. 
      assert ((status resp =? 400) = false) by lia.
      assert ((500 <=? status resp) = false) by lia.
      assert ((status resp <? 400) = false) by lia.
      repeat match goal with H : _ = false |- _ => rewrite H in Hf end.
      discriminate.
    + destruct (status resp =? 400); eexists; reflexivity.
  - assert (E : (status resp =? 400) = false) by lia. rewrite E in Hf.
    assert (E' : (500 <=? status resp) = false) by lia. rewrite E' in Hf.
    simpl in Hf. apply andb_prop in Hf. destruct Hf as [_ Hm].
    destruct (resp_body resp) as [v| |]; try (eexists; reflexivity).
    simpl in Hm. apply negb_true_iff in Hm.
    pose proof (subscript_no_element_zero v Hm) as Hs.
    destruct (subscript v (VInt 0)); try contradiction; eexists; reflexivity.
Qed.

(** Every failure that the call absorbs is an ordinary failure of the
    specification. *)
Lemma ordinary_failure_is_of_spec (x : exchange) :
  ordinary_failure x = true -> ordinary_failure_of_spec x = true.
Proof.
  destruct x as [resp|]; [|reflexivity]. simpl.
  destruct (status resp =? 400); [reflexivity|].
  destruct ((500 <=? status resp) && (status resp <=? 599)); [reflexivity|].
  destruct (status resp <? 400); [|discriminate]. simpl.
  destruct (resp_body resp) as [v| |]; try reflexivity.
  destruct v as [| | | |s|[|p l]|d]; try reflexivity. discriminate.
Qed.




(** ** Traces *)

Lemma admissions_app (l l' : list event) :
  admissions (l ++ l') = admissions l ++ admissions l'.
Proof.
  induction l as [|e l IH]; simpl; auto.
  destruct e; simpl; rewrite IH; auto.
Qed.

Lemma sends_app (l l' : list event) :
  sends (l ++ l') = sends l ++ sends l'.
Proof.
  induction l as [|e l IH]; simpl; auto.
  destruct e; simpl; rewrite IH; auto.
Qed.

Lemma admitted_admissions (w : world) :
  admissions (trace (admitted w)) = admissions (trace w) ++ [clock (admitted w)].
Proof.
  destruct (admitted_trace w) as (evs & -> & Ha & _).
  rewrite admissions_app. simpl. rewrite admissions_app, Ha. reflexivity.
Qed.

Lemma admitted_sends (w : world) :
  sends (trace (admitted w)) = sends (trace w).
Proof.
  destruct (admitted_trace w) as (evs & -> & _ & Hs).
  rewrite sends_app. simpl. rewrite sends_app, Hs. simpl.
  now rewrite app_nil_r.
Qed.

Lemma attempt_admissions (w : world) (r : request) :
  admissions (trace (attempt w r)) = admissions (trace w) ++ [clock (admitted w)].
Proof.
  unfold attempt. simpl. rewrite admissions_app, admitted_admissions. simpl.
  now rewrite app_nil_r.
Qed.

Lemma attempt_sends (w : world) (r : request) :
  sends (trace (attempt w r)) = sends (trace w) ++ [(clock (admitted w), r)].
Proof.
  unfold attempt. simpl. rewrite sends_app, admitted_sends. reflexivity.
Qed.

(** What has happened stays in the trace. *)
Lemma run_trace {A} (p : prog A) (w w' : world) (o : outcome A) :
  run p w = (o, w') -> exists evs, trace w' = trace w ++ evs.
Proof.
  revert w. induction p as [a|e| |X op k IH]; intros w Hr; simpl in Hr;
    try (injection Hr as <- <-; exists []; now rewrite app_nil_r).
  destruct (exec_op op w) as [x w1] eqn:E.
  destruct (IH x w1 Hr) as [evs Hevs].
  assert (exists e1, trace w1 = trace w ++ e1) as [e1 He1].
  { destruct op; simpl in E; injection E as <- <-; simpl;
      try (eexists; reflexivity); exists []; now rewrite app_nil_r. }
  exists (e1 ++ evs). rewrite Hevs, He1. now rewrite app_assoc.
Qed.

(** A call that has fuel is admitted and puts its request on the wire
    before anything else. *)
Lemma perform_rest_action_trace (fuel : nat) (e : endpoint)
    (params : list (string * value)) (w w' : world) (o : outcome value) :
  run (perform_rest_action (S fuel) e params) w = (o, w') ->
  exists evs,
    trace w' = trace (attempt w (request_of (client w) e params)) ++ evs.
Proof.
  rewrite perform_rest_action_S. cbv zeta.
  set (w1 := attempt w (request_of (client w) e params)).
  assert (Hemit : forall ev o0 w0, (o0, emit ev w1) = (o, w0) ->
                    exists evs, trace w0 = trace w1 ++ evs).
  { intros ev o0 w0 H. injection H as <- <-. simpl. eexists; reflexivity. }
  assert (Hsame : forall o0 w0, (o0, w1) = (o, w0) ->
                    exists evs, trace w0 = trace w1 ++ evs).
  { intros o0 w0 H. injection H as <- <-. exists []. now rewrite app_nil_r. }
  destruct (network w (sent w)) as [resp|]; eauto.
  destruct (400 <=? status resp).
  - destruct (status resp =? 429).
    + destruct (header_get _ _) as [[d|s]|]; eauto.
      intros Hr. apply run_trace in Hr. destruct Hr as [evs Hevs].
      rewrite Hevs. unfold backoff. cbn [trace emit with_clock].
      rewrite <- !app_assoc. eexists; reflexivity.
    + destruct (status resp =? 400); eauto.
  - destruct (resp_body resp) as [v| |]; eauto.
    destruct (subscript v (VInt 0)); eauto.
Qed.

(** ** HTTP 429 *)

(** C4: a call answered with HTTP 429 and [Retry-After: d] sleeps [d]
    and goes on as the same call made afresh: it is admitted by the
    rate limiter again, and it sends the same request no sooner than
    [d] after the first one.  With [Retry-After: 2] followed by a
    success the request is sent exactly twice, two seconds apart. *)
Theorem retry_after_honoured :
  (forall (fuel : nat) (e : endpoint) (params : list (string * value))
          (w : world) (resp : response) (d : Z),
      network w (sent w) = Responded resp ->
      status resp = 429 ->
      header_get "Retry-After" (resp_headers resp) = Some (HSeconds d) ->
      let req := request_of (client w) e params in
      let t1 := clock (admitted w) in
      let w2 := backoff (emit retry_warning (attempt w req)) d in
      let t2 := clock (admitted w2) in
      run (perform_rest_action (S fuel) e params) w
        = run (perform_rest_action fuel e params) w2
      /\ clock w2 = t1 + Z.max 0 d
      /\ request_of (client w2) e params = req
      /\ t1 + d <= t2
      /\ admissions (trace (attempt w2 req)) = admissions (trace w) ++ [t1; t2]
      /\ sends (trace (attempt w2 req)) = sends (trace w) ++ [(t1, req); (t2, req)]
      /\ (forall o w', (0 < fuel)%nat ->
            run (perform_rest_action (S fuel) e params) w = (o, w') ->
            exists evs, trace w' = trace (attempt w2 req) ++ evs))
  /\
  (forall fuel : nat,
      let r := run (perform_rest_action (S (S fuel))
                      (vep_endpoint (VStr "1:g.100A>T")) pick_one)
                   (boot noon default_client (script [throttle 2000] (ok payload_A))) in
      fst r = Returned payload_A
      /\ sends (trace (snd r)) = [(noon, request_A); (noon + 2000, request_A)]
      /\ admissions (trace (snd r)) = [noon; noon + 2000]
      /\ slept (trace (snd r)) = 2000).
Proof.
  split.
  - intros fuel e params w resp d Hn H429 Hra req t1 w2 t2.
    assert (Hrun : run (perform_rest_action (S fuel) e params) w
                   = run (perform_rest_action fuel e params) w2).
    { rewrite perform_rest_action_S. cbv zeta. rewrite Hn, H429, Hra.
      reflexivity. }
    assert (Hreq : request_of (client w2) e params = req).
    { unfold request_of, req. subst w2. simpl. now rewrite admitted_server. }
    assert (Hclock : clock w2 = t1 + Z.max 0 d) by reflexivity.
    split; [exact Hrun|]. split; [exact Hclock|]. split; [exact Hreq|].
    split; [|split; [|split]].
    + pose proof (admitted_clock w2). subst t2. lia.
    + rewrite attempt_admissions.
      assert (admissions (trace w2) = admissions (trace w) ++ [t1]) as ->.
      { subst w2. unfold backoff. cbn [trace emit with_clock].
        rewrite !admissions_app, attempt_admissions. simpl.
        now rewrite !app_nil_r. }
      now rewrite <- app_assoc.
    + rewrite attempt_sends.
      assert (sends (trace w2) = sends (trace w) ++ [(t1, req)]) as ->.
      { subst w2. unfold backoff. cbn [trace emit with_clock].
        rewrite !sends_app, attempt_sends. simpl.
        now rewrite !app_nil_r. }
      now rewrite <- app_assoc.
    + intros o w' Hfuel Hr. rewrite Hrun in Hr.
      destruct fuel as [|fuel']; [lia|].
      apply perform_rest_action_trace in Hr. rewrite Hreq in Hr. exact Hr.
  - intros fuel. cbv zeta. repeat split; vm_compute; reflexivity.
Qed.

Lemma retry_after_honoured_scenario :
  let w := boot noon default_client (script [throttle 1000] (ok payload_A)) in
  let w2 := backoff (emit retry_warning (attempt w request_A)) 1000 in
  run (perform_rest_action 2 (vep_endpoint (VStr "1:g.100A>T")) pick_one) w
    = run (perform_rest_action 1 (vep_endpoint (VStr "1:g.100A>T")) pick_one) w2
  /\ clock (admitted w) + 1000 <= clock (admitted w2).
Proof.
  intros w w2.
  pose proof (proj1 retry_after_honoured 1%nat (vep_endpoint (VStr "1:g.100A>T"))
                pick_one w _ 1000 eq_refl eq_refl eq_refl) as H.
  cbv zeta in H. split; [apply H|]. apply H.
Defined.

(** C10: a call answered with HTTP 429 without a [Retry-After] header
    returns the empty payload once its request is sent: no sleep, no
    second request; the record comes back with its six annotation
    fields null. *)
Theorem throttled_without_retry_after (fuel : nat) (variant : dict)
    (hgvs : value) (w : world) (resp : response) :
  dict_get "hgvs" variant = Some hgvs ->
  network w (sent w) = Responded resp ->
  status resp = 429 ->
  header_get "Retry-After" (resp_headers resp) = None ->
  let req := request_of (client w) (vep_endpoint hgvs) pick_one in
  let w1 := attempt w req in
  run (perform_rest_action (S fuel) (vep_endpoint hgvs) pick_one) w
    = (Returned empty_dict, w1)
  /\ trace w1 = trace (admitted w) ++ [EvGet (clock (admitted w)) req]
  /\ clock w1 = clock (admitted w)
  /\ sent w1 = S (sent w)
  /\ exists r w2,
       run (update_variant_info (S fuel) variant) w = (Returned r, w2)
       /\ r = dict_update variant null_annotation
       /\ (forall f, In f annotation_fields -> dict_get f r = Some VNone)
       /\ sends (trace w2) = sends (trace w) ++ [(clock (admitted w), req)]
       /\ slept (trace w2) = slept (trace (admitted w))
       /\ clock w2 = clock (admitted w).
Proof.
  intros Hh Hn H429 Hra req w1.
  assert (Hrun : run (perform_rest_action (S fuel) (vep_endpoint hgvs) pick_one) w
                 = (Returned empty_dict, w1)).
  { rewrite perform_rest_action_S. cbv zeta. rewrite Hn, H429, Hra. reflexivity. }
  split; [exact Hrun|]. split; [reflexivity|]. split; [reflexivity|].
  split; [unfold w1, attempt; simpl; now rewrite admitted_sent|].
  eexists (dict_update variant null_annotation), _.
  split; [|split; [|split; [|split; [|split]]]].
  - rewrite run_update_variant_info, Hh, Hrun. apply run_annotate_empty.
  - reflexivity.
  - apply null_annotation_get.
  - cbn [trace emit]. rewrite !sends_app. simpl. rewrite !app_nil_r.
    apply attempt_sends.
  - cbn [trace emit]. unfold w1, attempt. cbn [trace emit next_request].
    assert (Happ : forall l l', slept (l ++ l') = slept l + slept l').
    { induction l as [|ev l IH]; intros l'; simpl; auto.
      destruct ev; rewrite ?IH; lia. }
    rewrite !Happ. simpl. lia.
  - reflexivity.
Qed.

Lemma throttled_without_retry_after_example :
  exists r w2,
    run (update_variant_info 1 variant_B)
        (boot noon default_client (always (http_error 429 []))) = (Returned r, w2)
    /\ r = dict_update variant_B null_annotation
    /\ (forall f, In f annotation_fields -> dict_get f r = Some VNone)
    /\ sends (trace w2) =
         [(noon, request_of default_client (vep_endpoint (VStr "1:g.200C>G")) pick_one)]
    /\ slept (trace w2) = 0
    /\ clock w2 = noon.
Proof.
  pose proof (throttled_without_retry_after 0 variant_B (VStr "1:g.200C>G")
                (boot noon default_client (always (http_error 429 []))) _
                eq_refl eq_refl eq_refl eq_refl) as H.
  cbv zeta in H.
  exact (proj2 (proj2 (proj2 (proj2 H)))).
Defined.

(** ** Extraction from a response object *)

Lemma perform_rest_action_carries (fuel : nat) (e : endpoint)
    (params : list (string * value)) (w : world) (resp : response) (p : value) :
  network w (sent w) = Responded resp ->
  carries resp p ->
  run (perform_rest_action (S fuel) e params) w
  = (Returned p, attempt w (request_of (client w) e params)).
Proof.
  intros Hn [Hs [rest Hb]].
  rewrite perform_rest_action_S. cbv zeta. rewrite Hn.
  assert ((400 <=? status resp) = false) as -> by lia.
  rewrite Hb. reflexivity.
Qed.

Lemma update_variant_info_carries (fuel : nat) (variant : dict) (alt : string)
    (w : world) (resp : response) (p : value) :
  variant_of alt variant ->
  network w (sent w) = Responded resp ->
  carries resp p ->
  response_object p = true ->
  exists w',
    run (update_variant_info (S fuel) variant) w
    = (Returned (dict_update variant (extracted alt p)), w').
Proof.
  intros [[h Hh] Halt] Hn Hc Hp.
  rewrite run_update_variant_info, Hh.
  rewrite (perform_rest_action_carries _ _ _ _ _ _ Hn Hc).
  apply run_annotate_response_object; assumption.
Qed.

Lemma NoDup_keys_extracted (alt : string) (p : value) :
  NoDup (keys (extracted alt p)).
Proof. exact NoDup_annotation_fields. Qed.

Lemma lookup_path_app (v : value) (a b : list step) :
  lookup_path v (a ++ b) =
  match lookup_path v a with
  | Some x => lookup_path x b
  | None => None
  end.
Proof.
  revert v. induction a as [|s a IH]; intros v; [reflexivity|].
  simpl. destruct s, v; auto.
  - destruct (dict_get k entries); auto.
  - destruct items; auto.
  - destruct (last_element items); auto.
Qed.

Lemma extracted_get (variant : dict) (alt : string) (p : value) :
  let r := dict_update variant (extracted alt p) in
  (forall f, In f gene_fields ->
     dict_get f r = Some (or_null (lookup_path p (tc_path f))))
  /\ dict_get "most_severe_consequence" r
     = Some (or_null (lookup_path p [Key "most_severe_consequence"]))
  /\ dict_get "minor_allele_frequency" r
     = Some (or_null (lookup_path p (maf_path alt))).
Proof.
  cbv zeta. split; [|split].
  - intros f Hf. apply dict_get_update_in; [apply NoDup_keys_extracted|].
    unfold gene_fields in Hf. simpl in Hf. unfold extracted, tc_path.
    repeat (destruct Hf as [<-|Hf]; [simpl; tauto|]). contradiction.
  - apply dict_get_update_in; [apply NoDup_keys_extracted|].
    unfold extracted. simpl. tauto.
  - apply dict_get_update_in; [apply NoDup_keys_extracted|].
    unfold extracted, maf_path. simpl. tauto.
Qed.

(** C7: from a response object the client takes [gene_id],
    [gene_symbol], [biotype] and [impact] from
    [transcript_consequences[0]], [most_severe_consequence] from the top
    level and the minor allele frequency from the last element of
    [colocated_variants], under [frequencies], the record's alternate
    allele and [af]; a field that is absent is null.  In scenario A the
    merged record has [gene_id] G1 and minor allele frequency 0.05. *)
Theorem extraction_paths :
  (forall (fuel : nat) (variant : dict) (alt : string) (w : world)
          (resp : response) (p : value),
      variant_of alt variant ->
      network w (sent w) = Responded resp ->
      carries resp p ->
      response_object p = true ->
      exists r w',
        run (update_variant_info (S fuel) variant) w = (Returned r, w')
        /\ (forall f, In f gene_fields ->
              dict_get f r = Some (or_null (lookup_path p (tc_path f))))
        /\ dict_get "most_severe_consequence" r
           = Some (or_null (lookup_path p [Key "most_severe_consequence"]))
        /\ dict_get "minor_allele_frequency" r
           = Some (or_null (lookup_path p (maf_path alt))))
  /\
  (let r := fst (run (update_variant_info 1 variant_A)
                     (boot noon default_client (always (ok payload_A)))) in
   exists merged,
     r = Returned merged
     /\ dict_get "gene_id" merged = Some (VStr "G1")
     /\ dict_get "minor_allele_frequency" merged = Some (VFloat "0.05")).
Proof.
  split.
  - intros fuel variant alt w resp p Hv Hn Hc Hp.
    destruct (update_variant_info_carries fuel variant alt w resp p Hv Hn Hc Hp)
      as [w' Hw'].
    exists (dict_update variant (extracted alt p)), w'.
    split; [exact Hw'|]. apply extracted_get.
  - cbv zeta. eexists. repeat split; reflexivity.
Qed.

Lemma extraction_paths_scenario_A :
  exists r w',
    run (update_variant_info 1 variant_A)
        (boot noon default_client (always (ok payload_A))) = (Returned r, w')
    /\ (forall f, In f gene_fields ->
          dict_get f r = Some (or_null (lookup_path payload_A (tc_path f))))
    /\ dict_get "most_severe_consequence" r
       = Some (or_null (lookup_path payload_A [Key "most_severe_consequence"]))
    /\ dict_get "minor_allele_frequency" r
       = Some (or_null (lookup_path payload_A (maf_path "T"))).
Proof.
  refine (proj1 extraction_paths 0%nat variant_A "T"%string
            (boot noon default_client (always (ok payload_A))) _ payload_A
            _ eq_refl _ eq_refl).
  - split; [exists (VStr "1:g.100A>T")|]; reflexivity.
  - split; [reflexivity|]. exists []. reflexivity.
Defined.

(** ** What a call can raise *)

Lemma perform_rest_action_raises (fuel : nat) (e : endpoint)
    (params : list (string * value)) (w w' : world) (ex : exn) :
  run (perform_rest_action fuel e params) w = (Raised ex, w') ->
  ex = ValueError.
Proof.
  revert w. induction fuel as [|fuel IH]; intros w; [discriminate|].
  rewrite perform_rest_action_S. cbv zeta.
  destruct (network w (sent w)) as [resp|]; [|discriminate].
  destruct (400 <=? status resp).
  - destruct (status resp =? 429).
    + destruct (header_get _ _) as [[d|s]|]; try discriminate.
      * apply IH.
      * intros H. now injection H as <- _.
    + destruct (status resp =? 400); discriminate.
  - destruct (resp_body resp) as [v| |]; try discriminate.
    destruct (subscript v (VInt 0)); discriminate.
Qed.

(** A handler of [except (IndexError, KeyError)] that logs and gives a
    default lets no lookup error through. *)
Lemma run_except_lookup {A} (q : prog A) (l : level) (fmt : string) (x : A)
    (w w' : world) (e : exn) :
  run (try_except q
         (fun e => if is_lookup_error e then perform (Log l fmt) ;; Ret x
                   else Raise e)) w = (Raised e, w') ->
  is_lookup_error e = false.
Proof.
  rewrite run_try_except.
  destruct (run q w) as [[a|e0|] w0]; try discriminate.
  destruct (is_lookup_error e0) eqn:E; [discriminate|].
  simpl. intros H. injection H as <- _. exact E.
Qed.

Lemma run_merge_raises (variant : dict) (p tc maf : value) (w w' : world)
    (e : exn) :
  run (merge variant p tc maf) w = (Raised e, w') -> e = AttributeError.
Proof.
  unfold merge.
  destruct tc as [| | | | | |t];
    try (simpl; intros H; injection H as <- _; reflexivity).
  rewrite !method_get_dict. cbn [bind].
  destruct p as [| | | | | |d];
    try (simpl; intros H; injection H as <- _; reflexivity).
  rewrite method_get_dict. discriminate.
Qed.

Lemma run_annotate_raises (variant : dict) (p : value) (w w' : world) (e : exn) :
  run (annotate variant p) w = (Raised e, w') -> is_lookup_error e = false.
Proof.
  unfold annotate. rewrite run_bind.
  destruct (run (tc_block p) w) as [[tc|e0|] w0] eqn:Etc.
  - rewrite run_bind.
    destruct (run (maf_block variant p) w0) as [[maf|e1|] w1] eqn:Emaf.
    + intros H. apply run_merge_raises in H. now subst.
    + intros H. injection H as <- _.
      unfold maf_block in Emaf. now apply run_except_lookup in Emaf.
    + discriminate.
  - intros H. injection H as <- _.
    unfold tc_block in Etc. now apply run_except_lookup in Etc.
  - discriminate.
Qed.

Lemma update_variant_info_raises (fuel : nat) (variant : dict) (w w' : world)
    (e : exn) :
  dict_get "hgvs" variant <> None ->
  run (update_variant_info fuel variant) w = (Raised e, w') ->
  is_lookup_error e = false.
Proof.
  intros Hh. rewrite run_update_variant_info.
  destruct (dict_get "hgvs" variant) as [h|]; [|congruence].
  destruct (run (perform_rest_action fuel (vep_endpoint h) pick_one) w)
    as [[p|e0|] w0] eqn:E.
  - apply run_annotate_raises.
  - intros H. injection H as <- _.
    apply perform_rest_action_raises in E. now subst.
  - discriminate.
Qed.

(** C5: on a response object the call returns without raising; when a
    step of an extraction path fails (the key [transcript_consequences]
    or [colocated_variants] is missing, the array is empty, a key along
    the path is missing) the annotation field of that path is null.
    No call, whatever the answer, lets a lookup failure (KeyError,
    IndexError) out. *)
Theorem graceful_degradation :
  (forall (fuel : nat) (variant : dict) (alt : string) (w : world)
          (resp : response) (p : value),
      variant_of alt variant ->
      network w (sent w) = Responded resp ->
      carries resp p ->
      response_object p = true ->
      exists r w',
        run (update_variant_info (S fuel) variant) w = (Returned r, w')
        /\ (forall f a b, In f gene_fields -> tc_path f = a ++ b ->
              lookup_path p a = None -> dict_get f r = Some VNone)
        /\ (forall a b, maf_path alt = a ++ b ->
              lookup_path p a = None ->
              dict_get "minor_allele_frequency" r = Some VNone)
        /\ (lookup_path p [Key "most_severe_consequence"] = None ->
              dict_get "most_severe_consequence" r = Some VNone))
  /\
  (forall (fuel : nat) (variant : dict) (w w' : world) (e : exn),
      dict_get "hgvs" variant <> None ->
      run (update_variant_info fuel variant) w = (Raised e, w') ->
      is_lookup_error e = false).
Proof.
  split; [|exact update_variant_info_raises].
  intros fuel variant alt w resp p Hv Hn Hc Hp.
  destruct (update_variant_info_carries fuel variant alt w resp p Hv Hn Hc Hp)
    as [w' Hw'].
  exists (dict_update variant (extracted alt p)), w'.
  split; [exact Hw'|].
  destruct (extracted_get variant alt p) as (Hg & Hm & Hf).
  split; [|split].
  - intros f a b Hin Hsplit Ha. rewrite (Hg f Hin), Hsplit, lookup_path_app, Ha.
    reflexivity.
  - intros a b Hsplit Ha. rewrite Hf, Hsplit, lookup_path_app, Ha. reflexivity.
  - intros Hnone. rewrite Hm, Hnone. reflexivity.
Qed.

Lemma graceful_degradation_bare_response :
  exists r w',
    run (update_variant_info 1 variant_A)
        (boot noon default_client (always (ok bare_payload))) = (Returned r, w')
    /\ (forall f a b, In f gene_fields -> tc_path f = a ++ b ->
          lookup_path bare_payload a = None -> dict_get f r = Some VNone)
    /\ (forall a b, maf_path "T" = a ++ b ->
          lookup_path bare_payload a = None ->
          dict_get "minor_allele_frequency" r = Some VNone)
    /\ (lookup_path bare_payload [Key "most_severe_consequence"] = None ->
        dict_get "most_severe_consequence" r = Some VNone).
Proof.
  refine (proj1 graceful_degradation 0%nat variant_A "T"%string
            (boot noon default_client (always (ok bare_payload))) _
            bare_payload _ eq_refl _ eq_refl).
  - split; [exists (VStr "1:g.100A>T")|]; reflexivity.
  - split; [reflexivity|]. exists []. reflexivity.
Defined.

(** ** The merge *)

Lemma run_merge_returns (variant : dict) (p tc maf : value) (w w' : world)
    (r : dict) :
  run (merge variant p tc maf) w = (Returned r, w') ->
  exists u, keys u = annotation_fields /\ r = dict_update variant u.
Proof.
  unfold merge.
  destruct tc as [| | | | | |t]; try discriminate.
  rewrite !method_get_dict. cbn [bind].
  destruct p as [| | | | | |d]; try discriminate.
  rewrite method_get_dict. cbn [bind run].
  intros H.
  exists [("gene_id", or_null (dict_get "gene_id" t));
          ("gene_symbol", or_null (dict_get "gene_symbol" t));
          ("biotype", or_null (dict_get "biotype" t));
          ("impact", or_null (dict_get "impact" t));
          ("most_severe_consequence",
           or_null (dict_get "most_severe_consequence" d));
          ("minor_allele_frequency", maf)]%string.
  split; [reflexivity|]. congruence.
Qed.

Lemma update_variant_info_returns (fuel : nat) (variant : dict) (w w' : world)
    (r : dict) :
  run (update_variant_info fuel variant) w = (Returned r, w') ->
  exists u, keys u = annotation_fields /\ r = dict_update variant u.
Proof.
  rewrite run_update_variant_info.
  destruct (dict_get "hgvs" variant) as [h|]; [|discriminate].
  destruct (run (perform_rest_action fuel (vep_endpoint h) pick_one) w)
    as [[p|e0|] w0]; try discriminate.
  unfold annotate. rewrite run_bind.
  destruct (run (tc_block p) w0) as [[tc|e1|] w1]; try discriminate.
  rewrite run_bind.
  destruct (run (maf_block variant p) w1) as [[maf|e2|] w2]; try discriminate.
  apply run_merge_returns.
Qed.

Lemma keys_dict_update (u d : dict) :
  exists added,
    keys (dict_update d u) = keys d ++ added /\
    forall k, In k added -> In k (keys u).
Proof.
  unfold dict_update. revert d.
  induction u as [|[k v] u IH]; intros d; simpl.
  - exists []. rewrite app_nil_r. split; [reflexivity|contradiction].
  - destruct (IH (dict_set k v d)) as (added & Hk & Hin).
    destruct (in_dec string_dec k (keys d)) as [Hd|Hd].
    + rewrite keys_dict_set_in in Hk by exact Hd.
      exists added. split; [exact Hk|]. intros k' Hk'. right. now apply Hin.
    + rewrite keys_dict_set_new in Hk by exact Hd.
      exists (k :: added). rewrite Hk, <- app_assoc. split; [reflexivity|].
      intros k' [<-|Hk']; [now left|right; now apply Hin].
Qed.

Lemma in_keys_dict_update (u d : dict) (k : string) :
  In k (keys u) -> In k (keys (dict_update d u)).
Proof.
  unfold dict_update. revert d.
  induction u as [|[k' v] u IH]; intros d; simpl; [contradiction|].
  intros [->|Hin].
  - destruct (keys_dict_update u (dict_set k v d)) as (added & Hk & _).
    unfold dict_update in Hk. rewrite Hk. apply in_or_app. left.
    apply in_keys_dict_set. now left.
  - now apply IH.
Qed.

Lemma dict_get_in_NoDup (k : string) (v : value) (u : dict) :
  NoDup (keys u) -> In (k, v) u -> dict_get k u = Some v.
Proof.
  induction u as [|[k' v'] u IH]; simpl; intros Hnd Hin; [contradiction|].
  inversion Hnd as [|? ? Hk Hnd']; subst.
  destruct Hin as [E|Hin].
  - injection E as -> ->. now rewrite String.eqb_refl.
  - destruct (String.eqb k k') eqn:E; [|now apply IH].
    apply String.eqb_eq in E. subst. exfalso. apply Hk.
    change k' with (fst (k', v)). now apply in_map.
Qed.

(** After an update a key of the update has the value of the update. *)
Lemma dict_get_update_key (k : string) (u d : dict) :
  NoDup (keys u) -> In k (keys u) ->
  dict_get k (dict_update d u) = dict_get k u.
Proof.
  intros Hnd Hin. unfold keys in Hin. apply in_map_iff in Hin.
  destruct Hin as ([k' v] & <- & Hin). simpl.
  rewrite (dict_get_update_in _ _ _ _ Hnd Hin).
  symmetry. now apply dict_get_in_NoDup.
Qed.

Lemma maf_block_alt (v v' : dict) (p : value) :
  dict_get "alt" v = dict_get "alt" v' -> maf_block v p = maf_block v' p.
Proof.
  intros Halt. unfold maf_block.
  destruct (subscript_cases p (VStr "colocated_variants"))
    as [ [cvs ->] | [ -> | [ -> | -> ] ] ]; try reflexivity.
  cbn [bind].
  destruct (subscript_cases cvs (VInt (-1)))
    as [ [cv ->] | [ -> | [ -> | -> ] ] ]; try reflexivity.
  cbn [bind].
  destruct (subscript_cases cv (VStr "frequencies"))
    as [ [freqs ->] | [ -> | [ -> | -> ] ] ]; try reflexivity.
  cbn [bind]. unfold getitem. cbn [subscript]. rewrite Halt. reflexivity.
Qed.

Lemma update_variant_info_rel (R : dict -> dict -> Prop) (fuel : nat)
    (v v' : dict) (w : world) :
  dict_get "hgvs" v = dict_get "hgvs" v' ->
  dict_get "alt" v = dict_get "alt" v' ->
  (forall u, keys u = annotation_fields ->
             R (dict_update v u) (dict_update v' u)) ->
  outcome_rel R (run (update_variant_info fuel v) w)
                (run (update_variant_info fuel v') w).
Proof.
  intros Hh Halt HR. rewrite !run_update_variant_info, <- Hh.
  destruct (dict_get "hgvs" v) as [h|]; [|split; reflexivity].
  destruct (run (perform_rest_action fuel (vep_endpoint h) pick_one) w)
    as [[p|e0|] w0]; try (split; reflexivity).
  unfold annotate. rewrite !run_bind.
  destruct (run (tc_block p) w0) as [[tc|e1|] w1]; try (split; reflexivity).
  rewrite !run_bind, <- (maf_block_alt v v' p Halt).
  destruct (run (maf_block v p) w1) as [[maf|e2|] w2]; try (split; reflexivity).
  unfold merge.
  destruct tc as [| | | | | |t]; try (split; reflexivity).
  rewrite !method_get_dict. cbn [bind].
  destruct p as [| | | | | |d]; try (split; reflexivity).
  rewrite method_get_dict. cbn [bind run].
  split; [reflexivity|]. cbn [fst]. apply HR. reflexivity.
Qed.

Lemma outcome_rel_eq {A} (x y : outcome A * world) :
  outcome_rel eq x y -> x = y.
Proof.
  destruct x as [[a|e|] w], y as [[b|e'|] w']; intros [Hw Ho];
    simpl in *; subst; try contradiction; reflexivity.
Qed.

Lemma frame_update (v u : dict) :
  keys u = annotation_fields -> frame v (dict_update v u).
Proof.
  intros Hu k Hk. apply dict_get_update_other. now rewrite Hu.
Qed.

Lemma not_annotation_field (k : string) :
  k = "hgvs"%string \/ k = "alt"%string \/ k = "chrom"%string
  \/ k = "pos"%string \/ k = "ref"%string ->
  ~ In k annotation_fields.
Proof.
  unfold annotation_fields. simpl.
  intros [ -> | [ -> | [ -> | [ -> | -> ] ] ] ]; intuition discriminate.
Qed.

(** C6: running the client again on a record it has annotated gives
    what running it on the original record gives; the keys of the
    record stay distinct and hold every annotation field; two records
    that differ in annotation fields only get the same fields from the
    same answers; and from a response object every annotation field is
    the one extracted from it (null when absent), whatever the record
    held before. *)
Theorem idempotent_merge :
  (forall (f1 f2 : nat) (v r1 : dict) (w1 w1' w2 : world),
      run (update_variant_info f1 v) w1 = (Returned r1, w1') ->
      run (update_variant_info f2 r1) w2 = run (update_variant_info f2 v) w2)
  /\
  (forall (fuel : nat) (v r : dict) (w w' : world),
      NoDup (keys v) ->
      run (update_variant_info fuel v) w = (Returned r, w') ->
      NoDup (keys r) /\ forall f, In f annotation_fields -> In f (keys r))
  /\
  (forall (fuel : nat) (v v' : dict) (w : world),
      (forall k, ~ In k annotation_fields -> dict_get k v = dict_get k v') ->
      outcome_rel same_fields (run (update_variant_info fuel v) w)
                              (run (update_variant_info fuel v') w))
  /\
  (forall (fuel : nat) (v : dict) (alt : string) (w : world)
          (resp : response) (p : value),
      variant_of alt v ->
      network w (sent w) = Responded resp ->
      carries resp p ->
      response_object p = true ->
      exists r w',
        run (update_variant_info (S fuel) v) w = (Returned r, w')
        /\ forall f, In f annotation_fields ->
             dict_get f r = dict_get f (extracted alt p)).
Proof.
  split; [|split; [|split]].
  - intros f1 f2 v r1 w1 w1' w2 Hr.
    destruct (update_variant_info_returns _ _ _ _ _ Hr) as (u1 & Hu1 & ->).
    apply outcome_rel_eq. apply update_variant_info_rel.
    + apply frame_update; [exact Hu1|]. apply not_annotation_field. tauto.
    + apply frame_update; [exact Hu1|]. apply not_annotation_field. tauto.
    + intros u Hu. apply dict_update_update.
      * now rewrite Hu1, Hu.
      * rewrite Hu1. exact NoDup_annotation_fields.
  - intros fuel v r w w' Hnd Hr.
    destruct (update_variant_info_returns _ _ _ _ _ Hr) as (u & Hu & ->).
    split; [now apply NoDup_keys_dict_update|].
    intros f Hf. apply in_keys_dict_update. now rewrite Hu.
  - intros fuel v v' w Hsame. apply update_variant_info_rel.
    + apply Hsame. apply not_annotation_field. tauto.
    + apply Hsame. apply not_annotation_field. tauto.
    + intros u Hu k.
      destruct (in_dec string_dec k annotation_fields) as [Hk|Hk].
      * rewrite !dict_get_update_key; auto;
          rewrite Hu; auto; exact NoDup_annotation_fields.
      * rewrite !dict_get_update_other by (now rewrite Hu). now apply Hsame.
  - intros fuel v alt w resp p Hv Hn Hc Hp.
    destruct (update_variant_info_carries fuel v alt w resp p Hv Hn Hc Hp)
      as [w' Hw'].
    exists (dict_update v (extracted alt p)), w'. split; [exact Hw'|].
    intros f Hf. apply dict_get_update_key; [apply NoDup_keys_extracted|exact Hf].
Qed.

Lemma idempotent_merge_rerun :
  run (update_variant_info 1 (dict_update variant_A (extracted "T" payload_A)))
      (boot noon default_client (always (ok bare_payload)))
  = run (update_variant_info 1 variant_A)
      (boot noon default_client (always (ok bare_payload))).
Proof.
  exact (proj1 idempotent_merge 1%nat 1%nat variant_A
           (dict_update variant_A (extracted "T" payload_A))
           (boot noon default_client (always (ok payload_A)))
           (snd (run (update_variant_info 1 variant_A)
                   (boot noon default_client (always (ok payload_A)))))
           (boot noon default_client (always (ok bare_payload)))
           eq_refl).
Defined.

(** ** The empty input *)

Lemma exec_no_tasks {A} (sched : schedule) (s : system A) :
  tasks s = [] -> exec sched s = s.
Proof.
  intros Ht. unfold exec. induction sched as [|[i dt] sched IH]; [reflexivity|].
  simpl. rewrite Ht. destruct i; simpl; exact IH.
Qed.

(** C9: with no variant [process_variants] returns the empty list under
    every schedule, [write_to_tsv] leaves the file system as it is, and
    [main] ends with status 0. *)
Theorem empty_input (output_tsv : string) (fuel : nat) (sched : schedule)
    (now : Z) (net : nat -> exchange) (fs : filesystem) :
  process_variants fuel [] sched now net = Returned []
  /\ write_to_tsv [] output_tsv fs = (Returned tt, fs)
  /\ main (Some []) output_tsv fuel sched now net fs = Some (0, fs).
Proof.
  assert (H : process_variants fuel [] sched now net = Returned []).
  { unfold process_variants, annotating. rewrite exec_no_tasks; reflexivity. }
  split; [exact H|]. split; [reflexivity|].
  unfold main. rewrite H. reflexivity.
Qed.

(** ** The rate limiter under a burst *)

(** C1 fails on the code: twenty concurrent calls of
    [_apply_rate_limit] on a fresh client with ceiling 10 all return at
    the moment they are made, so the second that ends then holds twenty
    admissions; and [process_variants] on twenty variants puts twenty
    requests on the wire at that moment. *)
Theorem rate_ceiling_exceeded :
  reqs_per_sec default_client = 10
  /\ completed (burst 20 noon) = seq 0 20
  /\ admissions (trace (sys_world (burst 20 noon))) = repeat noon 20
  /\ window_count noon (admissions (trace (sys_world (burst 20 noon)))) = 20%nat
  /\ map fst (sends (trace (sys_world
        (annotating 1 (repeat variant_A 20) (start_all 20) noon
           (always (ok payload_A)))))) = repeat noon 20.
Proof.
  repeat split; vm_compute; reflexivity.
Qed.

(** ** Tasks under a schedule *)

Lemma all_rets_bind {A B} (P : B -> Prop) (p : prog A) (f : A -> prog B) :
  (forall a, all_rets P (f a)) -> all_rets P (bind p f).
Proof.
  intros Hf. induction p as [a|e| |X o k IH]; simpl; auto.
Qed.

Lemma all_rets_advance {A} (P : A -> Prop) (p : prog A) (w : world) :
  all_rets P p -> task_rets P (fst (advance p w)).
Proof.
  revert w. induction p as [a|e| |X o k IH]; intros w Hp; simpl; auto.
  destruct o; simpl in *; auto.
  destruct (locked w); simpl; auto.
Qed.

Lemma length_replace {A} (i : nat) (x : A) (l : list A) :
  List.length (replace i x l) = List.length l.
Proof.
  revert i. induction l as [|y l IH]; intros [|i]; simpl; auto.
Qed.

Lemma nth_error_replace_same {A} (i : nat) (x : A) (l : list A) :
  (i < List.length l)%nat -> nth_error (replace i x l) i = Some x.
Proof.
  revert i. induction l as [|y l IH]; intros [|i]; simpl; intros Hi;
    try lia; auto. apply IH. lia.
Qed.

Lemma nth_error_replace_other {A} (i j : nat) (x : A) (l : list A) :
  i <> j -> nth_error (replace i x l) j = nth_error l j.
Proof.
  revert i j. induction l as [|y l IH]; intros [|i] [|j] Hne; simpl; auto.
  congruence.
Qed.

Lemma Forall2_replace {A B} (R : A -> B -> Prop) (i : nat) (y y' : B)
    (l : list A) (l' : list B) :
  Forall2 R l l' ->
  nth_error l' i = Some y ->
  (forall a, R a y -> R a y') ->
  Forall2 R l (replace i y' l').
Proof.
  intros H. revert i. induction H as [|a b l l' Hab H IH]; intros [|i]; simpl;
    try discriminate.
  - intros E Himp. injection E as ->. constructor; auto.
  - intros E Himp. constructor; auto.
Qed.

Lemma sound_resume {A} (Ps : list (A -> Prop)) (s : system A) (c : nat * Z) :
  sound Ps s -> sound Ps (resume s c).
Proof.
  intros [Ht Hnd Hc Hf Hall]. destruct c as [i dt]. unfold resume.
  destruct (nth_error (tasks s) i) as [[wake p|a|e]|] eqn:Ei;
    try (now split).
  destruct (advance p _) as [t w] eqn:Ea.
  assert (Hlt : (i < List.length (tasks s))%nat).
  { apply nth_error_Some. congruence. }
  assert (Hi : ~ In i (completed s)).
  { intros H. apply Hf in H. destruct H as (t0 & Ht0 & Hfin).
    rewrite Ei in Ht0. injection Ht0 as <-. discriminate. }
  split; simpl.
  - eapply Forall2_replace; [exact Ht|exact Ei|].
    intros P HP. simpl in HP.
    pose proof (all_rets_advance P p
                  (with_clock (Z.max (clock (sys_world s) + Z.max 0 dt) wake)
                     (sys_world s)) HP) as H.
    rewrite Ea in H. exact H.
  - destruct (finished t); auto.
    apply NoDup_app; auto.
    + constructor; [tauto|constructor].
    + intros x Hx [<-|[]]. contradiction.
  - rewrite length_replace. intros j Hj.
    destruct (finished t); auto.
    apply in_app_or in Hj. destruct Hj as [Hj|[<-|[]]]; auto.
  - intros j Hj.
    assert (Hold : In j (completed s) ->
                   exists t0, nth_error (replace i t (tasks s)) j = Some t0
                              /\ finished t0 = true).
    { intros Hin. destruct (Hf j Hin) as (t0 & Ht0 & Hfin).
      exists t0. split; [|exact Hfin].
      rewrite nth_error_replace_other; [exact Ht0|]. congruence. }
    destruct (finished t) eqn:Efin; auto.
    apply in_app_or in Hj. destruct Hj as [Hj|[<-|[]]]; auto.
    exists t. split; [|exact Efin]. now apply nth_error_replace_same.
  - intros j t0 Hj Hfin.
    destruct (Nat.eq_dec i j) as [<-|Hne].
    + rewrite nth_error_replace_same in Hj by exact Hlt.
      injection Hj as <-. rewrite Hfin. apply in_or_app. right. now left.
    + rewrite nth_error_replace_other in Hj by exact Hne.
      specialize (Hall j t0 Hj Hfin).
      destruct (finished t); auto. apply in_or_app. now left.
Qed.

Lemma sound_exec {A} (Ps : list (A -> Prop)) (sched : schedule) (s : system A) :
  sound Ps s -> sound Ps (exec sched s).
Proof.
  unfold exec. revert s.
  induction sched as [|c sched IH]; intros s Hs; simpl; auto.
  apply IH. now apply sound_resume.
Qed.

Lemma length_tasks_resume {A} (s : system A) (c : nat * Z) :
  List.length (tasks (resume s c)) = List.length (tasks s).
Proof.
  destruct c as [i dt]. unfold resume.
  destruct (nth_error (tasks s) i) as [[wake p|a|e]|]; auto.
  destruct (advance p _) as [t w]. simpl. apply length_replace.
Qed.

Lemma length_tasks_exec {A} (sched : schedule) (s : system A) :
  List.length (tasks (exec sched s)) = List.length (tasks s).
Proof.
  unfold exec. revert s.
  induction sched as [|c sched IH]; intros s; simpl; auto.
  rewrite IH. apply length_tasks_resume.
Qed.

(** What [gather] returns are results of the tasks it names. *)
Lemma gather_sound {A} (Ps : list (A -> Prop)) (ts : list (task A))
    (done : list nat) (rs : list A) :
  Forall2 task_rets Ps ts ->
  gather ts done = Returned rs ->
  Forall2 (fun i r => exists P, nth_error Ps i = Some P /\ P r) done rs.
Proof.
  intros Ht. revert rs.
  induction done as [|i done IH]; intros rs; simpl.
  - intros H. injection H as <-. constructor.
  - destruct (nth_error ts i) as [[wake p|a|e]|] eqn:Ei; try discriminate.
    destruct (gather ts done) as [l|e|]; try discriminate.
    intros H. injection H as <-.
    constructor; [|now apply IH].
    clear IH. revert i Ei.
    induction Ht as [|P t Ps ts HP Ht IHt]; intros [|i]; simpl;
      try discriminate.
    + intros E. injection E as ->. exists P. split; [reflexivity|exact HP].
    + apply IHt.
Qed.

Lemma gather_length {A} (ts : list (task A)) (done : list nat) (rs : list A) :
  gather ts done = Returned rs -> List.length rs = List.length done.
Proof.
  revert rs. induction done as [|i done IH]; intros rs; simpl.
  - intros H. now injection H as <-.
  - destruct (nth_error ts i) as [[wake p|a|e]|]; try discriminate.
    destruct (gather ts done) as [l|e|]; try discriminate.
    intros H. injection H as <-. simpl. f_equal. now apply IH.
Qed.

Lemma NoDup_bounded_Permutation (l : list nat) (n : nat) :
  NoDup l -> (forall i, In i l -> (i < n)%nat) -> List.length l = n ->
  Permutation l (seq 0 n).
Proof.
  intros Hnd Hlt Hlen. apply NoDup_Permutation_bis; auto.
  - rewrite length_seq. lia.
  - intros i Hi. apply in_seq. specialize (Hlt i Hi). lia.
Qed.

Lemma sound_spawn {A} (Ps : list (A -> Prop)) (progs : list (prog A)) (w : world) :
  Forall2 (fun P p => all_rets P p) Ps progs -> sound Ps (spawn progs w).
Proof.
  intros H. split; simpl.
  - induction H; simpl; constructor; auto.
  - constructor.
  - contradiction.
  - contradiction.
  - intros i t Hi Hfin. rewrite nth_error_map in Hi.
    destruct (nth_error progs i); [|discriminate].
    injection Hi as <-. discriminate.
Qed.

Lemma all_rets_merge (variant : dict) (p tc maf : value) :
  all_rets (frame variant) (merge variant p tc maf).
Proof.
  unfold merge.
  destruct tc as [| | | | | |t]; try exact I.
  rewrite !method_get_dict. cbn [bind].
  destruct p as [| | | | | |d]; try exact I.
  rewrite method_get_dict. cbn [bind all_rets].
  apply frame_update. reflexivity.
Qed.

Lemma all_rets_update_variant_info (fuel : nat) (variant : dict) :
  all_rets (frame variant) (update_variant_info fuel variant).
Proof.
  rewrite update_variant_info_blocks.
  do 4 (apply all_rets_bind; intros ?).
  apply all_rets_merge.
Qed.

Lemma sound_annotating (fuel : nat) (vcf_reader : list dict) (sched : schedule)
    (now : Z) (net : nat -> exchange) :
  sound (map frame vcf_reader) (annotating fuel vcf_reader sched now net).
Proof.
  apply sound_exec, sound_spawn.
  induction vcf_reader as [|v vs IH]; simpl; constructor; auto.
  apply all_rets_update_variant_info.
Qed.

(** The results of [process_variants] are results of its tasks, one per
    task, in the order of completion. *)
Lemma process_variants_sound (fuel : nat) (vcf_reader : list dict)
    (sched : schedule) (now : Z) (net : nat -> exchange) (rs : list dict) :
  process_variants fuel vcf_reader sched now net = Returned rs ->
  List.length rs = List.length vcf_reader
  /\ exists order,
       Permutation order (seq 0 (List.length vcf_reader))
       /\ Forall2 (fun i r => exists v, nth_error vcf_reader i = Some v /\ frame v r)
            order rs.
Proof.
  unfold process_variants.
  set (s := annotating fuel vcf_reader sched now net).
  assert (Hs : sound (map frame vcf_reader) s) by apply sound_annotating.
  assert (Hlen : List.length (tasks s) = List.length vcf_reader).
  { unfold s, annotating. rewrite length_tasks_exec. simpl.
    now rewrite !length_map. }
  destruct (gather (tasks s) (completed s)) as [l|e|] eqn:Eg; try discriminate.
  destruct (Nat.eqb (List.length l) (List.length vcf_reader)) eqn:El;
    [|discriminate].
  intros H. injection H as <-. apply Nat.eqb_eq in El.
  split; [exact El|].
  exists (completed s). split.
  - apply NoDup_bounded_Permutation.
    + apply Hs.
    + intros i Hi. rewrite <- Hlen. now apply Hs.
    + rewrite <- El. symmetry. eapply gather_length. exact Eg.
  - pose proof (gather_sound _ _ _ _ (sound_tasks _ _ Hs) Eg) as Hg.
    eapply Forall2_impl; [|exact Hg].
    intros i r (P & HP & Hr). rewrite nth_error_map in HP.
    destruct (nth_error vcf_reader i) as [v|]; [|discriminate].
    injection HP as <-. exists v. auto.
Qed.


(** ** A task driven alone *)

Lemma with_clock_id (w : world) : with_clock (clock w) w = w.
Proof. destruct w; reflexivity. Qed.

Lemma run_do {A X} (o : op X) (k : X -> prog A) (w : world) :
  run (Do o k) w = run (k (fst (exec_op o w))) (snd (exec_op o w)).
Proof. simpl. destruct (exec_op o w); reflexivity. Qed.

(** One resumption: the task goes on to its next suspension and, from
    there, runs as it would have run without being suspended. *)
Lemma advance_spec {A} (p : prog A) (w : world) :
  unblocked p w ->
  match advance p w with
  | (Suspended wake p', w1) =>
      clock w1 <= wake
      /\ run p' (with_clock wake w1) = run p w
      /\ unblocked p' (with_clock wake w1)
      /\ (p' = OutOfFuel
          \/ S (suspensions p' (with_clock wake w1)) = suspensions p w)
  | (Returns a, w1) => run p w = (Returned a, w1)
  | (Raises e, w1) => run p w = (Raised e, w1)
  end.
Proof.
  revert w. induction p as [a|e| |X o k IH]; intros w Hu;
    try reflexivity.
  - simpl. rewrite with_clock_id. repeat split; auto; lia.
  - rewrite run_do. destruct Hu as [Ho Hu].
    destruct o; cbn [advance];
      try (specialize (IH _ _ Hu); exact IH).
    + rewrite Ho. specialize (IH _ _ Hu). exact IH.
    + cbn [fst snd exec_op suspensions] in *. unfold wake_time.
      split; [simpl; lia|]. split; [reflexivity|]. split; [exact Hu|].
      right. reflexivity.
    + cbn [fst snd exec_op suspensions] in *.
      split; [simpl; lia|].
      assert (E : with_clock (clock w) (next_request (emit (EvGet (clock w) r) w))
                  = next_request (emit (EvGet (clock w) r) w)) by reflexivity.
      rewrite E. split; [reflexivity|]. split; [exact Hu|].
      right. reflexivity.
Qed.

Lemma replace_replace {A} (i : nat) (x y : A) (l : list A) :
  replace i x (replace i y l) = replace i x l.
Proof.
  revert i. induction l as [|z l IH]; intros [|i]; simpl; auto.
  now rewrite IH.
Qed.

Lemma exec_repeat_finished {A} (k i : nat) (s : system A) (t : task A) :
  nth_error (tasks s) i = Some t -> finished t = true ->
  exec (repeat (i, 0) k) s = s.
Proof.
  intros Ht Hf. unfold exec. induction k as [|k IH]; simpl; auto.
  rewrite Ht. destruct t; try discriminate; exact IH.
Qed.

Lemma exec_app {A} (a b : schedule) (s : system A) :
  exec (a ++ b) s = exec b (exec a s).
Proof. apply fold_left_app. Qed.

(** A task that is resumed often enough, while no other task runs,
    ends as it would have run alone. *)
Lemma exec_solo {A} (k : nat) (s : system A) (i : nat) (wake : Z) (p : prog A) :
  nth_error (tasks s) i = Some (Suspended wake p) ->
  let w0 := with_clock (Z.max (clock (sys_world s)) wake) (sys_world s) in
  unblocked p w0 ->
  (suspensions p w0 < k)%nat ->
  fst (run p w0) <> Pending ->
  exec (repeat (i, 0) k) s =
  {| sys_world := snd (run p w0);
     tasks := replace i (task_of (fst (run p w0)) (snd (run p w0))) (tasks s);
     completed := completed s ++ [i] |}.
Proof.
  revert s wake p.
  induction k as [|k IH]; intros s wake p Hi w0 Hu Hk Hnp; [lia|].
  assert (Hlt : (i < List.length (tasks s))%nat).
  { apply nth_error_Some. congruence. }
  change (repeat (i, 0) (S k)) with ([(i, 0)] ++ repeat (i, 0) k).
  rewrite exec_app. unfold exec at 2. cbn [fold_left resume].
  rewrite Hi. change (Z.max 0 0) with 0. rewrite Z.add_0_r. fold w0.
  pose proof (advance_spec p w0 Hu) as Hspec.
  destruct (advance p w0) as [[wake' p'|a|e] w1].
  - destruct Hspec as (Hc & Hrun & Hu' & Hs). cbn [finished].
    destruct Hs as [->|Hs].
    { exfalso. apply Hnp. rewrite <- Hrun. reflexivity. }
    set (s1 := {| sys_world := w1;
                  tasks := replace i (Suspended wake' p') (tasks s);
                  completed := completed s |}).
    assert (E : with_clock (Z.max (clock (sys_world s1)) wake') (sys_world s1)
                = with_clock wake' w1).
    { simpl. now rewrite Z.max_r by lia. }
    rewrite (IH s1 wake' p').
    + rewrite E, Hrun. simpl. now rewrite replace_replace.
    + simpl. now apply nth_error_replace_same.
    + now rewrite E.
    + rewrite E. lia.
    + now rewrite E, Hrun.
  - rewrite Hspec. cbn [fst snd task_of finished].
    eapply exec_repeat_finished.
    + simpl. now apply nth_error_replace_same.
    + reflexivity.
  - rewrite Hspec. cbn [fst snd task_of finished].
    eapply exec_repeat_finished.
    + simpl. now apply nth_error_replace_same.
    + reflexivity.
Qed.

Lemma exec_op_clock {X} (o : op X) (w : world) :
  clock w <= clock (snd (exec_op o w)).
Proof. destruct o; simpl; unfold wake_time; lia. Qed.

Lemma run_clock {A} (p : prog A) (w : world) : clock w <= clock (snd (run p w)).
Proof.
  revert w. induction p as [a|e| |X o k IH]; intros w; try (simpl; lia).
  rewrite run_do. pose proof (exec_op_clock o w).
  specialize (IH (fst (exec_op o w)) (snd (exec_op o w))). lia.
Qed.

Lemma replace_middle {A} (done rest : list A) (x y : A) :
  replace (List.length done) y (done ++ x :: rest) = done ++ y :: rest.
Proof. induction done as [|z done IH]; simpl; auto. now rewrite IH. Qed.

(** The serial schedule runs the tasks as [run_all] does. *)
Lemma exec_serial {A} (k : nat) (progs : list (prog A)) (done : list (task A))
    (c0 : Z) (w : world) (comp : list nat) :
  serial_ok k progs w ->
  c0 <= clock w ->
  exec (List.concat (map (fun i => repeat (i, 0) k)
                       (seq (List.length done) (List.length progs))))
    {| sys_world := w;
       tasks := done ++ map (Suspended c0) progs;
       completed := comp |}
  = {| sys_world := serial_world progs w;
       tasks := done ++ serial_tasks progs w;
       completed := comp ++ seq (List.length done) (List.length progs) |}.
Proof.
  revert done w comp.
  induction progs as [|p progs IH]; intros done w comp Hok Hc.
  - simpl. rewrite !app_nil_r. reflexivity.
  - destruct Hok as (Hu & Hk & Hnp & Hok).
    cbn [List.length seq map List.concat]. rewrite exec_app.
    assert (Hw : with_clock (Z.max (clock w) c0) w = w).
    { rewrite Z.max_l by lia. apply with_clock_id. }
    rewrite (exec_solo k _ (List.length done) c0 p).
    + cbn [sys_world tasks completed]. rewrite Hw.
      cbn [map]. rewrite replace_middle.
      specialize (IH (done ++ [task_of (fst (run p w)) (snd (run p w))])
                    (snd (run p w)) (comp ++ [List.length done]) Hok).
      rewrite length_app, Nat.add_1_r in IH. cbn [List.length] in IH.
      rewrite <- !app_assoc in IH. cbn [app] in IH.
      rewrite IH.
      * cbn [serial_world serial_tasks]. reflexivity.
      * pose proof (run_clock p w). lia.
    + cbn [tasks map]. rewrite nth_error_app2 by lia.
      now rewrite Nat.sub_diag.
    + cbn [sys_world]. now rewrite Hw.
    + cbn [sys_world]. now rewrite Hw.
    + cbn [sys_world]. now rewrite Hw.
Qed.

(** ** Calm code *)

Lemma unblocked_bind {A B} (p : prog A) (f : A -> prog B) (w : world) :
  unblocked p w ->
  (forall a, fst (run p w) = Returned a -> unblocked (f a) (snd (run p w))) ->
  unblocked (bind p f) w.
Proof.
  revert w. induction p as [a|e| |X o k IH]; intros w Hp Hf; simpl; auto.
  destruct Hp as [Ho Hp]. split; [exact Ho|].
  apply IH; [exact Hp|]. intros a. rewrite run_do in Hf. apply Hf.
Qed.

Lemma unblocked_try_except {A} (p : prog A) (h : exn -> prog A) (w : world) :
  unblocked p w ->
  (forall e, fst (run p w) = Raised e -> unblocked (h e) (snd (run p w))) ->
  unblocked (try_except p h) w.
Proof.
  revert w. induction p as [a|e| |X o k IH]; intros w Hp Hh; simpl; auto.
  destruct Hp as [Ho Hp]. split; [exact Ho|].
  apply IH; [exact Hp|]. intros e. rewrite run_do in Hh. apply Hh.
Qed.

Lemma suspensions_bind {A B} (p : prog A) (f : A -> prog B) (w : world) :
  suspensions (bind p f) w =
  (suspensions p w +
   match fst (run p w) with
   | Returned a => suspensions (f a) (snd (run p w))
   | _ => 0
   end)%nat.
Proof.
  revert w. induction p as [a|e| |X o k IH]; intros w; simpl bind;
    try reflexivity.
  cbn [suspensions]. rewrite IH, run_do. lia.
Qed.

Lemma suspensions_try_except {A} (p : prog A) (h : exn -> prog A) (w : world) :
  suspensions (try_except p h) w =
  (suspensions p w +
   match fst (run p w) with
   | Raised e => suspensions (h e) (snd (run p w))
   | _ => 0
   end)%nat.
Proof.
  revert w. induction p as [a|e| |X o k IH]; intros w; simpl try_except;
    try reflexivity.
  cbn [suspensions]. rewrite IH, run_do. lia.
Qed.

Lemma calm_weaken {A} (k k' : nat) (p : prog A) (w : world) :
  calm k p w -> (k <= k')%nat -> calm k' p w.
Proof. intros (H1 & H2 & H3 & H4) Hk. repeat split; auto. lia. Qed.

Lemma calm_bind {A B} (k1 k2 : nat) (p : prog A) (f : A -> prog B) (w : world) :
  calm k1 p w ->
  (forall a, fst (run p w) = Returned a -> locked (snd (run p w)) = false ->
             calm k2 (f a) (snd (run p w))) ->
  calm (k1 + k2) (bind p f) w.
Proof.
  intros (Hl & Hu & Hs & Hl') Hf. split; [exact Hl|]. split; [|split].
  - apply unblocked_bind; [exact Hu|]. intros a Ha. now apply Hf.
  - rewrite suspensions_bind.
    destruct (fst (run p w)) as [a|e|] eqn:E; try lia.
    destruct (Hf a eq_refl Hl') as (_ & _ & Hs' & _). lia.
  - rewrite run_bind. destruct (run p w) as [[a|e|] w'] eqn:E; auto.
    simpl in Hf, Hl'. now destruct (Hf a eq_refl Hl') as (_ & _ & _ & H).
Qed.

Lemma calm_try_except {A} (k1 k2 : nat) (p : prog A) (h : exn -> prog A)
    (w : world) :
  calm k1 p w ->
  (forall e, fst (run p w) = Raised e -> locked (snd (run p w)) = false ->
             calm k2 (h e) (snd (run p w))) ->
  calm (k1 + k2) (try_except p h) w.
Proof.
  intros (Hl & Hu & Hs & Hl') Hh. split; [exact Hl|]. split; [|split].
  - apply unblocked_try_except; [exact Hu|]. intros e He. now apply Hh.
  - rewrite suspensions_try_except.
    destruct (fst (run p w)) as [a|e|] eqn:E; try lia.
    destruct (Hh e eq_refl Hl') as (_ & _ & Hs' & _). lia.
  - rewrite run_try_except. destruct (run p w) as [[a|e|] w'] eqn:E; auto.
    simpl in Hh, Hl'. now destruct (Hh e eq_refl Hl') as (_ & _ & _ & H).
Qed.

Lemma quiet_calm {A} (p : prog A) (w : world) :
  quiet p -> locked w = false -> calm 0 p w.
Proof.
  revert w. induction p as [a|e| |X o k IH]; intros w Hq Hl;
    try (repeat split; auto; fail).
  destruct Hq as [Ho Hq].
  assert (Hl' : locked (snd (exec_op o w)) = false)
    by (destruct o; try contradiction; exact Hl).
  destruct (IH (fst (exec_op o w)) (snd (exec_op o w)) (Hq _) Hl')
    as (_ & Hu & Hs & Hlr).
  split; [exact Hl|]. split; [|split].
  - split; [destruct o; auto|exact Hu].
  - cbn [suspensions]. destruct o; try contradiction; exact Hs.
  - rewrite run_do. exact Hlr.
Qed.

Lemma quiet_bind {A B} (p : prog A) (f : A -> prog B) :
  quiet p -> (forall a, quiet (f a)) -> quiet (bind p f).
Proof.
  intros Hp Hf. induction p as [a|e| |X o k IH]; simpl; auto.
  destruct Hp as [Ho Hp]. split; auto.
Qed.

Lemma quiet_try_except {A} (p : prog A) (h : exn -> prog A) :
  quiet p -> (forall e, quiet (h e)) -> quiet (try_except p h).
Proof.
  intros Hp Hh. induction p as [a|e| |X o k IH]; simpl; auto.
  destruct Hp as [Ho Hp]. split; auto.
Qed.

Lemma quiet_subscript (c k : value) : quiet (subscript c k).
Proof.
  destruct (subscript_cases c k) as [ [v ->] | [ -> | [ -> | -> ] ] ]; exact I.
Qed.

Lemma quiet_method_get (c : value) (k : string) : quiet (method_get c k).
Proof.
  destruct c; try exact I. rewrite method_get_dict. exact I.
Qed.

Lemma quiet_annotate (variant : dict) (p : value) : quiet (annotate variant p).
Proof.
  unfold annotate, tc_block, maf_block, merge, getitem.
  repeat first
    [ apply quiet_bind; [|intros ?]
    | apply quiet_try_except; [|intros ?]
    | apply quiet_subscript
    | apply quiet_method_get
    | match goal with |- quiet (if ?b then _ else _) => destruct b end
    | exact I
    | (simpl; tauto) ].
Qed.

Lemma calm_apply_rate_limit (w : world) :
  locked w = false -> calm 1 _apply_rate_limit w.
Proof.
  intros Hl. unfold calm, _apply_rate_limit. simpl.
  destruct (req_count (client w) >=? reqs_per_sec (client w)); simpl.
  - destruct (clock w - last_req (client w) <? second); simpl;
      repeat split; auto.
  - repeat split; auto.
Qed.

Lemma calm_sleep (ms : Z) (w : world) :
  locked w = false -> calm 1 (perform (Sleep ms)) w.
Proof. intros Hl. repeat split; auto. Qed.

Lemma calm_session_get (r : request) (w : world) :
  locked w = false -> calm 1 (session_get r) w.
Proof.
  intros Hl. unfold session_get, calm. simpl.
  destruct (network w (sent w)); simpl; repeat split; auto.
Qed.

Lemma quiet_log {A} (l : level) (fmt : string) (p : prog A) :
  quiet p -> quiet (perform (Log l fmt) ;; p).
Proof. intros Hp. simpl. auto. Qed.

Lemma calm_perform_rest_action (fuel : nat) (e : endpoint)
    (params : list (string * value)) (w : world) :
  locked w = false -> calm (3 * fuel) (perform_rest_action fuel e params) w.
Proof.
  revert w. induction fuel as [|fuel IH]; intros w Hl.
  - repeat split; auto.
  - cbn [perform_rest_action].
    apply calm_weaken
      with (k := (0 + (1 + ((1 + 0) + (0 + (0 + (1 + 3 * fuel))))))%nat);
      [|lia].
    apply calm_bind; [apply quiet_calm; [simpl; tauto|exact Hl]|].
    intros self _ Hl0.
    apply calm_bind; [apply calm_apply_rate_limit; exact Hl0|].
    intros _ _ Hl1.
    apply calm_try_except.
    + apply calm_bind; [apply calm_session_get; exact Hl1|].
      intros resp _ Hl2. apply quiet_calm; [|exact Hl2].
      apply quiet_bind;
        [unfold raise_for_status; destruct (400 <=? _); exact I|].
      intros _.
      apply quiet_bind; [unfold json; destruct (resp_body resp); exact I|].
      intros v. apply quiet_subscript.
    + intros ex _ Hl2.
      assert (Hquiet : forall (p : prog value),
                 quiet p -> calm (0 + (0 + (1 + 3 * fuel))) p
                   (snd (run (response <- session_get
                                {| url_server := server self;
                                   url_endpoint := e;
                                   url_params := params;
                                   req_headers :=
                                     [("Content-Type", "application/json")%string] |} ;;
                              raise_for_status response ;;
                              payload <- json response ;;
                              subscript payload (VInt 0))
                           (snd (run _apply_rate_limit
                                   (snd (run (perform Self) w))))))).
      { intros p Hp. apply calm_weaken with (k := 0%nat); [|lia].
        apply quiet_calm; [exact Hp|exact Hl2]. }
      destruct ex as [st msg hd| | | | | | | |];
        try (apply Hquiet; apply quiet_log; exact I).
      destruct (st =? 429).
      * destruct (header_get "Retry-After" hd) as [retry|];
          [|apply Hquiet; exact I].
        apply calm_bind; [apply quiet_calm; [simpl; tauto|exact Hl2]|].
        intros _ _ Hl3.
        apply calm_bind; [apply quiet_calm; [destruct retry; exact I|exact Hl3]|].
        intros d _ Hl4.
        apply calm_bind; [apply calm_sleep; exact Hl4|].
        intros _ _ Hl5. apply IH. exact Hl5.
      * destruct (st =? 400); apply Hquiet; apply quiet_log; exact I.
Qed.

Lemma calm_update_variant_info (fuel : nat) (variant : dict) (w : world) :
  locked w = false -> calm (3 * fuel) (update_variant_info fuel variant) w.
Proof.
  intros Hl. rewrite update_variant_info_blocks.
  apply calm_weaken with (k := (0 + (3 * fuel + 0))%nat); [|lia].
  apply calm_bind; [apply quiet_calm; [apply quiet_subscript|exact Hl]|].
  intros hgvs _ Hl0.
  apply calm_bind; [apply calm_perform_rest_action; exact Hl0|].
  intros p _ Hl1. apply quiet_calm; [|exact Hl1].
  apply (quiet_annotate variant p).
Qed.

(** Tasks that return when run one after the other return under the
    serial schedule, with the same results. *)
Lemma process_variants_serial (fuel : nat) (vcf_reader : list dict) (now : Z)
    (net : nat -> exchange) (rs : list dict) (w' : world) :
  run_all (map (update_variant_info fuel) vcf_reader)
    (boot now default_client net) = (Returned rs, w') ->
  process_variants fuel vcf_reader
    (serial_schedule (List.length vcf_reader) (3 * fuel + 1)) now net
  = Returned rs.
Proof.
  intros Hall.
  assert (Hgen : forall vs w rs w',
             locked w = false ->
             run_all (map (update_variant_info fuel) vs) w = (Returned rs, w') ->
             serial_ok (3 * fuel + 1) (map (update_variant_info fuel) vs) w
             /\ List.length rs = List.length vs
             /\ forall done,
                  gather (done ++ serial_tasks (map (update_variant_info fuel) vs) w)
                    (seq (List.length done) (List.length vs)) = Returned rs).
  { clear. induction vs as [|v vs IH]; intros w rs w' Hl Hr.
    - simpl in Hr. injection Hr as <- _. simpl. auto.
    - cbn [map run_all] in Hr.
      destruct (calm_update_variant_info fuel v w Hl) as (_ & Hu & Hs & Hl').
      destruct (run (update_variant_info fuel v) w) as [[r|e|] w1] eqn:Er;
        try discriminate.
      destruct (run_all (map (update_variant_info fuel) vs) w1)
        as [[l|e|] w2] eqn:Ea; try discriminate.
      injection Hr as <- _. simpl in Hl'.
      destruct (IH w1 l w2 Hl' Ea) as (Hok & Hlen & Hg).
      cbn [map serial_ok serial_tasks]. rewrite Er. cbn [fst snd task_of].
      split; [|split].
      + split; [exact Hu|]. split; [lia|]. split; [discriminate|exact Hok].
      + simpl. now rewrite Hlen.
      + intros done. cbn [List.length seq gather].
        rewrite nth_error_app2 by lia. rewrite Nat.sub_diag. cbn [nth_error].
        specialize (Hg (done ++ [Returns r])).
        rewrite length_app, Nat.add_1_r, <- app_assoc in Hg. cbn [app] in Hg.
        now rewrite Hg. }
  destruct (Hgen vcf_reader (boot now default_client net) rs w' eq_refl Hall)
    as (Hok & Hlen & Hg).
  unfold process_variants, annotating, serial_schedule, spawn.
  pose proof (exec_serial (3 * fuel + 1) (map (update_variant_info fuel) vcf_reader)
                [] (clock (boot now default_client net))
                (boot now default_client net) [] Hok (Z.le_refl _)) as He.
  cbn [List.length app] in He. rewrite length_map in He. cbv zeta.
  rewrite !He. cbn [tasks completed app].
  specialize (Hg []). cbn [List.length app] in Hg.
  rewrite Hg, Hlen, Nat.eqb_refl. reflexivity.
Qed.

(** ** The orchestrator returns *)

Lemma gather_all_returned {A} (ts : list (task A)) (done : list nat) :
  (forall i, In i done -> exists a, nth_error ts i = Some (Returns a)) ->
  exists rs, gather ts done = Returned rs.
Proof.
  induction done as [|i done IH]; intros H; simpl.
  - eexists; reflexivity.
  - destruct (H i (or_introl eq_refl)) as [a ->].
    destruct IH as [rs ->]; [intros j Hj; apply H; now right|].
    eexists; reflexivity.
Qed.

(** Once every task has returned, [process_variants] returns. *)
Lemma process_variants_all_returned (fuel : nat) (vcf_reader : list dict)
    (sched : schedule) (now : Z) (net : nat -> exchange) :
  Forall (fun t => exists a, t = Returns a)
    (tasks (annotating fuel vcf_reader sched now net)) ->
  exists rs, process_variants fuel vcf_reader sched now net = Returned rs.
Proof.
  intros Hall. unfold process_variants.
  set (s := annotating fuel vcf_reader sched now net) in *.
  assert (Hs : sound (map frame vcf_reader) s) by apply sound_annotating.
  assert (Hlen : List.length (tasks s) = List.length vcf_reader).
  { unfold s, annotating. rewrite length_tasks_exec. simpl.
    now rewrite !length_map. }
  rewrite Forall_forall in Hall.
  destruct (gather_all_returned (tasks s) (completed s)) as [rs Hrs].
  { intros i Hi. destruct (sound_finished _ _ Hs i Hi) as (t & Ht & _).
    destruct (Hall t (nth_error_In _ _ Ht)) as [a ->]. now exists a. }
  exists rs. rewrite Hrs.
  assert (Hp : Permutation (completed s) (seq 0 (List.length vcf_reader))).
  { apply NoDup_Permutation; [apply Hs|apply seq_NoDup|].
    intros i. rewrite in_seq. split.
    - intros Hi. apply (sound_completed _ _ Hs) in Hi. lia.
    - intros Hi.
      destruct (nth_error (tasks s) i) as [t|] eqn:Et.
      + apply (sound_all _ _ Hs i t Et).
        destruct (Hall t (nth_error_In _ _ Et)) as [a ->]. reflexivity.
      + apply nth_error_None in Et. lia. }
  apply Permutation_length in Hp. rewrite length_seq in Hp.
  rewrite (gather_length _ _ _ Hrs), Hp, Nat.eqb_refl. reflexivity.
Qed.

Lemma exec_op_network {X} (o : op X) (w : world) :
  network (snd (exec_op o w)) = network w.
Proof. destruct o; reflexivity. Qed.

Lemma run_network {A} (p : prog A) (w : world) :
  network (snd (run p w)) = network w.
Proof.
  revert w. induction p as [a|e| |X o k IH]; intros w; try reflexivity.
  rewrite run_do, IH. apply exec_op_network.
Qed.

Lemma update_variant_info_well_behaved (fuel : nat) (variant : dict) (w : world) :
  (exists alt, variant_of alt variant) ->
  well_behaved (network w (sent w)) ->
  exists r, fst (run (update_variant_info (S fuel) variant) w) = Returned r.
Proof.
  intros [alt Hv] [Hf|(resp & p & Hn & Hc & Hp)].
  - destruct Hv as [[h Hh] _].
    destruct (perform_rest_action_ordinary_failure fuel (vep_endpoint h)
                pick_one w Hf) as [w1 Hw1].
    rewrite run_update_variant_info, Hh, Hw1, run_annotate_empty.
    eexists; reflexivity.
  - destruct (update_variant_info_carries fuel variant alt w resp p Hv Hn Hc Hp)
      as [w' Hw'].
    rewrite Hw'. eexists; reflexivity.
Qed.

Lemma run_all_well_behaved (fuel : nat) (vs : list dict) (w : world) :
  Forall (fun v => exists alt, variant_of alt v) vs ->
  (forall n, well_behaved (network w n)) ->
  exists rs w', run_all (map (update_variant_info (S fuel)) vs) w = (Returned rs, w').
Proof.
  intros Hvs. revert w. induction Hvs as [|v vs Hv Hvs IH]; intros w Hnet.
  - simpl. eauto.
  - cbn [map run_all].
    destruct (update_variant_info_well_behaved fuel v w Hv (Hnet _)) as [r Hr].
    pose proof (run_network (update_variant_info (S fuel) v) w) as Hn.
    destruct (run (update_variant_info (S fuel) v) w) as [o w1].
    simpl in Hr, Hn. subst o.
    destruct (IH w1) as (rs & w' & ->).
    + intros n. rewrite Hn. apply Hnet.
    + eauto.
Qed.

Lemma frame_same_variant (v r : dict) : frame v r -> same_variant v r.
Proof.
  intros H. repeat split; apply H; apply not_annotation_field; tauto.
Qed.

(** C2: whatever the schedule, when [process_variants] returns it
    returns as many results as there are variants, and the results are
    the records of the variants in some order: there is a permutation
    of the task numbers that sends each result to a variant with the
    same chromosome, position, reference and alternate allele.  It
    returns once every task has returned; and when every variant has
    its identifier and a string as alternate allele and the service
    answers every request with an ordinary failure or with a response
    object, it returns under the schedule that lets the tasks run one
    after the other. *)
Theorem completeness :
  (forall (fuel : nat) (vcf_reader : list dict) (sched : schedule) (now : Z)
          (net : nat -> exchange) (rs : list dict),
      process_variants fuel vcf_reader sched now net = Returned rs ->
      List.length rs = List.length vcf_reader
      /\ exists order,
           Permutation order (seq 0 (List.length vcf_reader))
           /\ Forall2 (fun i r => exists v, nth_error vcf_reader i = Some v
                                            /\ same_variant v r) order rs)
  /\
  (forall (fuel : nat) (vcf_reader : list dict) (sched : schedule) (now : Z)
          (net : nat -> exchange),
      Forall (fun t => exists a, t = Returns a)
        (tasks (annotating fuel vcf_reader sched now net)) ->
      exists rs, process_variants fuel vcf_reader sched now net = Returned rs)
  /\
  (forall (fuel : nat) (vcf_reader : list dict) (now : Z) (net : nat -> exchange),
      Forall (fun v => exists alt, variant_of alt v) vcf_reader ->
      (forall n, well_behaved (net n)) ->
      exists rs,
        process_variants (S fuel) vcf_reader
          (serial_schedule (List.length vcf_reader) (3 * S fuel + 1)) now net
        = Returned rs).
Proof.
  split; [|split].
  - intros fuel vcf_reader sched now net rs Hr.
    destruct (process_variants_sound _ _ _ _ _ _ Hr) as (Hlen & order & Hp & Hf).
    split; [exact Hlen|]. exists order. split; [exact Hp|].
    eapply Forall2_impl; [|exact Hf].
    intros i r (v & Hv & Hfr). exists v. split; [exact Hv|].
    now apply frame_same_variant.
  - exact process_variants_all_returned.
  - intros fuel vcf_reader now net Hvs Hnet.
    destruct (run_all_well_behaved fuel vcf_reader (boot now default_client net)
                Hvs Hnet) as (rs & w' & Hall).
    exists rs. exact (process_variants_serial _ _ _ _ _ _ Hall).
Qed.

Lemma completeness_two_variants :
  exists rs,
    process_variants 1 [variant_A; variant_B] (serial_schedule 2 4) noon
      (always (ok payload_A)) = Returned rs.
Proof.
  refine (proj2 (proj2 completeness) 0%nat [variant_A; variant_B] noon
            (always (ok payload_A)) _ _).
  - repeat constructor.
    + exists "T"%string. split; [exists (VStr "1:g.100A>T")|]; reflexivity.
    + exists "G"%string. split; [exists (VStr "1:g.200C>G")|]; reflexivity.
  - intros n. right. eexists _, payload_A. split; [reflexivity|].
    split; [|reflexivity]. split; [reflexivity|]. exists []. reflexivity.
Defined.

(** ** The frame of the annotation *)

(** C8: a record returned by [update_variant_info] has, for every field
    that is not one of the six annotation fields, the value the input
    record has, and the keys of the input record keep their places
    before the annotation fields that are added; the results that
    [process_variants] returns are such records, one per variant; and
    [main] hands the list it gets from [process_variants] to
    [write_to_tsv] as it is. *)
Theorem only_annotation_fields_change :
  (forall (fuel : nat) (variant r : dict) (w w' : world),
      run (update_variant_info fuel variant) w = (Returned r, w') ->
      frame variant r
      /\ exists added,
           keys r = keys variant ++ added
           /\ forall k, In k added -> In k annotation_fields)
  /\
  (forall (fuel : nat) (vcf_reader : list dict) (sched : schedule) (now : Z)
          (net : nat -> exchange) (rs : list dict),
      process_variants fuel vcf_reader sched now net = Returned rs ->
      exists order,
        Permutation order (seq 0 (List.length vcf_reader))
        /\ Forall2 (fun i r => exists v, nth_error vcf_reader i = Some v
                                         /\ frame v r) order rs)
  /\
  (forall (fuel : nat) (vcf_reader : list dict) (output_tsv : string)
          (sched : schedule) (now : Z) (net : nat -> exchange)
          (fs : filesystem) (rs : list dict),
      process_variants fuel vcf_reader sched now net = Returned rs ->
      main (Some vcf_reader) output_tsv fuel sched now net fs =
      match write_to_tsv rs output_tsv fs with
      | (Returned _, fs') => Some (0, fs')
      | (Raised _, fs') => Some (1, fs')
      | (Pending, _) => None
      end).
Proof.
  split; [|split].
  - intros fuel variant r w w' Hr.
    destruct (update_variant_info_returns _ _ _ _ _ Hr) as (u & Hu & ->).
    split; [now apply frame_update|].
    destruct (keys_dict_update u variant) as (added & Hk & Hin).
    exists added. split; [exact Hk|]. intros k Hka. rewrite <- Hu. now apply Hin.
  - intros fuel vcf_reader sched now net rs Hr.
    now destruct (process_variants_sound _ _ _ _ _ _ Hr) as (_ & H).
  - intros fuel vcf_reader output_tsv sched now net fs rs Hr.
    unfold main. rewrite Hr. reflexivity.
Qed.

Lemma only_annotation_fields_change_scenario_A :
  let r := dict_update variant_A (extracted "T" payload_A) in
  frame variant_A r
  /\ exists added,
       keys r = keys variant_A ++ added
       /\ forall k, In k added -> In k annotation_fields.
Proof.
  exact (proj1 only_annotation_fields_change 1%nat variant_A
           (dict_update variant_A (extracted "T" payload_A))
           (boot noon default_client (always (ok payload_A)))
           (snd (run (update_variant_info 1 variant_A)
                   (boot noon default_client (always (ok payload_A)))))
           eq_refl).
Defined.

(** * Further properties of the client *)

(** ** What [perform_rest_action] raises *)

(** The only exception that leaves [perform_rest_action] is the
    ValueError of a [Retry-After] header that [float()] cannot parse,
    and such a header on HTTP 429 does raise it. *)
Theorem perform_rest_action_only_ValueError :
  (forall (fuel : nat) (e : endpoint) (params : list (string * value))
          (w w' : world) (ex : exn),
      run (perform_rest_action fuel e params) w = (Raised ex, w') ->
      ex = ValueError)
  /\
  (forall (fuel : nat) (e : endpoint) (params : list (string * value))
          (w : world) (resp : response) (s : string),
      network w (sent w) = Responded resp ->
      status resp = 429 ->
      header_get "Retry-After" (resp_headers resp) = Some (HText s) ->
      fst (run (perform_rest_action (S fuel) e params) w) = Raised ValueError).
Proof.
  split; [exact perform_rest_action_raises|].
  intros fuel e params w resp s Hn H429 Hra.
  rewrite perform_rest_action_S. cbv zeta. rewrite Hn, H429, Hra. reflexivity.
Qed.

Lemma perform_rest_action_only_ValueError_date :
  fst (run (perform_rest_action 1 (vep_endpoint (VStr "1:g.100A>T")) pick_one)
         (boot noon default_client (always retry_at_date)))
  = Raised ValueError.
Proof.
  exact (proj2 perform_rest_action_only_ValueError 0%nat
           (vep_endpoint (VStr "1:g.100A>T")) pick_one
           (boot noon default_client (always retry_at_date)) _ _
           eq_refl eq_refl eq_refl).
Defined.

(** ** Retries *)

Lemma backoff_attempt_facts (w : world) (r : request) (d : Z) :
  let w2 := backoff (emit retry_warning (attempt w r)) d in
  network w2 = network w
  /\ sent w2 = S (sent w)
  /\ server (client w2) = server (client w)
  /\ clock w2 = clock (admitted w) + Z.max 0 d
  /\ sends (trace w2) = sends (trace w) ++ [(clock (admitted w), r)]
  /\ admissions (trace w2) = admissions (trace w) ++ [clock (admitted w)]
  /\ locked w2 = locked (admitted w).
Proof.
  cbv zeta. unfold backoff. cbn [network sent client clock trace locked
    with_clock emit attempt next_request].
  rewrite admitted_network, admitted_sent, admitted_server.
  repeat split; auto.
  - rewrite !sends_app, admitted_sends. simpl. now rewrite !app_nil_r.
  - rewrite !admissions_app, admitted_admissions. simpl. now rewrite !app_nil_r.
Qed.

Lemma perform_rest_action_throttled (fuel : nat) (e : endpoint)
    (params : list (string * value)) (w : world) (d : Z) :
  throttled_for d (network w (sent w)) ->
  run (perform_rest_action (S fuel) e params) w
  = run (perform_rest_action fuel e params)
      (backoff (emit retry_warning (attempt w (request_of (client w) e params))) d).
Proof.
  intros (resp & Hn & H429 & Hra).
  rewrite perform_rest_action_S. cbv zeta. rewrite Hn, H429, Hra. reflexivity.
Qed.

(** A call that is throttled [k] times, with fuel to spare, goes on as
    the same call made after [k] requests and at least the delays
    asked for. *)
Theorem retries_until_not_throttled (delays : list Z) (fuel : nat) (e : endpoint)
    (params : list (string * value)) (w : world) :
  (List.length delays <= fuel)%nat ->
  (forall i d, nth_error delays i = Some d ->
               throttled_for d (network w (sent w + i)%nat)) ->
  exists wk,
    run (perform_rest_action fuel e params) w
    = run (perform_rest_action (fuel - List.length delays) e params) wk
    /\ sent wk = (sent w + List.length delays)%nat
    /\ network wk = network w
    /\ request_of (client wk) e params = request_of (client w) e params
    /\ clock w + total_delay delays <= clock wk
    /\ List.length (sends (trace wk))
       = (List.length (sends (trace w)) + List.length delays)%nat.
Proof.
  revert fuel w. induction delays as [|d delays IH]; intros fuel w Hk Hnet.
  - exists w. simpl. rewrite Nat.sub_0_r, !Nat.add_0_r.
    repeat split; auto. lia.
  - destruct fuel as [|fuel]; [simpl in Hk; lia|].
    assert (Hd : throttled_for d (network w (sent w))).
    { specialize (Hnet 0%nat d eq_refl). now rewrite Nat.add_0_r in Hnet. }
    rewrite (perform_rest_action_throttled fuel e params w d Hd).
    set (w2 := backoff _ d).
    destruct (backoff_attempt_facts w (request_of (client w) e params) d)
      as (Hn & Hs & Hsv & Hc & Hse & _). fold w2 in Hn, Hs, Hsv, Hc, Hse.
    destruct (IH fuel w2) as (wk & Hrun & Hsent & Hnk & Hreq & Hclock & Hlen).
    + simpl in Hk. lia.
    + intros i d' Hi. rewrite Hn, Hs.
      replace (S (sent w) + i)%nat with (sent w + S i)%nat by lia.
      now apply Hnet.
    + exists wk. cbn [List.length Nat.sub total_delay].
      split; [exact Hrun|]. split; [lia|]. split; [congruence|].
      split; [|split].
      * rewrite Hreq. unfold request_of. now rewrite Hsv.
      * pose proof (admitted_clock w). lia.
      * rewrite Hlen, Hse, length_app. simpl. lia.
Qed.

Lemma retries_until_not_throttled_example :
  exists wk,
    run (perform_rest_action 3 (vep_endpoint (VStr "1:g.100A>T")) pick_one)
        (boot noon default_client (script [throttle 500; throttle 700] (ok payload_A)))
    = run (perform_rest_action 1 (vep_endpoint (VStr "1:g.100A>T")) pick_one) wk
    /\ sent wk = 2%nat
    /\ network wk = script [throttle 500; throttle 700] (ok payload_A)
    /\ request_of (client wk) (vep_endpoint (VStr "1:g.100A>T")) pick_one = request_A
    /\ noon + 1200 <= clock wk
    /\ List.length (sends (trace wk)) = 2%nat.
Proof.
  apply (retries_until_not_throttled [500; 700] 3
           (vep_endpoint (VStr "1:g.100A>T")) pick_one
           (boot noon default_client
              (script [throttle 500; throttle 700] (ok payload_A)))).
  - simpl. lia.
  - intros [|[|i]] d Hi; simpl in Hi; try (destruct i; discriminate);
      injection Hi as <-;
      (eexists; split; [reflexivity|split; reflexivity]).
Defined.

(** ** Requests and admissions *)

Lemma emit_log_wire (l : level) (fmt : string) (w : world) :
  sends (trace (emit (EvLog l fmt) w)) = sends (trace w)
  /\ admissions (trace (emit (EvLog l fmt) w)) = admissions (trace w).
Proof.
  cbn [trace emit]. rewrite sends_app, admissions_app. simpl.
  now rewrite !app_nil_r.
Qed.

(** Every request of a call is put on the wire at the moment an
    admission by [_apply_rate_limit] returns, it is the same request
    each time, and there are no more requests than the bound on the
    retries allows. *)
Theorem every_request_is_admitted (fuel : nat) (e : endpoint)
    (params : list (string * value)) (w : world) :
  exists l,
    sends (trace (snd (run (perform_rest_action fuel e params) w)))
      = sends (trace w) ++ l
    /\ admissions (trace (snd (run (perform_rest_action fuel e params) w)))
      = admissions (trace w) ++ map fst l
    /\ Forall (fun tr => snd tr = request_of (client w) e params) l
    /\ (List.length l <= fuel)%nat
    /\ (fuel = 0%nat \/ l <> []).
Proof.
  revert w. induction fuel as [|fuel IH]; intros w.
  - exists []. simpl. rewrite !app_nil_r. repeat split; auto.
  - set (r := request_of (client w) e params).
    assert (Hone : forall o wx,
               sends (trace wx) = sends (trace (attempt w r)) ->
               admissions (trace wx) = admissions (trace (attempt w r)) ->
               exists l,
                 sends (trace (snd (o : outcome value, wx))) = sends (trace w) ++ l
                 /\ admissions (trace (snd (o, wx)))
                    = admissions (trace w) ++ map fst l
                 /\ Forall (fun tr => snd tr = r) l
                 /\ (List.length l <= S fuel)%nat
                 /\ (S fuel = 0%nat \/ l <> [])).
    { intros o wx Hs Ha. exists [(clock (admitted w), r)]. cbn [snd].
      rewrite Hs, Ha, attempt_sends, attempt_admissions.
      repeat split; auto.
      - simpl. lia.
      - right. discriminate. }
    assert (Hlog : forall o l0 fmt,
               exists l,
                 sends (trace (snd (o : outcome value,
                                    emit (EvLog l0 fmt) (attempt w r))))
                   = sends (trace w) ++ l
                 /\ admissions (trace (snd (o, emit (EvLog l0 fmt) (attempt w r))))
                    = admissions (trace w) ++ map fst l
                 /\ Forall (fun tr => snd tr = r) l
                 /\ (List.length l <= S fuel)%nat
                 /\ (S fuel = 0%nat \/ l <> [])).
    { intros o l0 fmt. apply Hone; apply emit_log_wire. }
    rewrite perform_rest_action_S. cbv zeta. fold r.
    destruct (network w (sent w)) as [resp|]; [|apply Hlog].
    destruct (400 <=? status resp).
    + destruct (status resp =? 429).
      * destruct (header_get "Retry-After" (resp_headers resp)) as [[d|s]|];
          [|apply Hlog|apply Hone; reflexivity].
        destruct (backoff_attempt_facts w r d) as (_ & _ & Hsv & _ & Hse & Had & _).
        destruct (IH (backoff (emit retry_warning (attempt w r)) d))
          as (l & Hs & Ha & Hf & Hlen & _).
        exists ((clock (admitted w), r) :: l).
        unfold retry_warning in *. rewrite Hs, Ha, Hse, Had, <- !app_assoc.
        split; [reflexivity|]. split; [reflexivity|].
        split; [|split; [simpl; lia|right; discriminate]].
        constructor; [reflexivity|].
        eapply Forall_impl; [|exact Hf]. intros tr Htr. rewrite Htr.
        unfold request_of. rewrite Hsv. reflexivity.
      * destruct (status resp =? 400); apply Hlog.
    + destruct (resp_body resp) as [v| |]; try apply Hlog.
      destruct (subscript v (VInt 0)); try apply Hlog. apply Hone; reflexivity.
Qed.

(** A call whose request is not answered by HTTP 429 with a delay makes
    that one request, at the moment it is admitted, and sleeps no more. *)
Theorem one_request_unless_throttled (fuel : nat) (e : endpoint)
    (params : list (string * value)) (w : world) :
  (forall d, ~ throttled_for d (network w (sent w))) ->
  let w' := snd (run (perform_rest_action (S fuel) e params) w) in
  sends (trace w')
    = sends (trace w) ++ [(clock (admitted w), request_of (client w) e params)]
  /\ sent w' = S (sent w)
  /\ clock w' = clock (admitted w).
Proof.
  intros Hnt. cbv zeta. rewrite perform_rest_action_S. cbv zeta.
  set (r := request_of (client w) e params).
  assert (Hone : forall (o : outcome value),
             sends (trace (snd (o, attempt w r)))
               = sends (trace w) ++ [(clock (admitted w), r)]
             /\ sent (snd (o, attempt w r)) = S (sent w)
             /\ clock (snd (o, attempt w r)) = clock (admitted w)).
  { intros o. cbn [snd]. rewrite attempt_sends. split; [reflexivity|].
    unfold attempt. cbn [sent clock next_request emit].
    now rewrite admitted_sent. }
  assert (Hlog : forall (o : outcome value) l0 fmt,
             sends (trace (snd (o, emit (EvLog l0 fmt) (attempt w r))))
               = sends (trace w) ++ [(clock (admitted w), r)]
             /\ sent (snd (o, emit (EvLog l0 fmt) (attempt w r))) = S (sent w)
             /\ clock (snd (o, emit (EvLog l0 fmt) (attempt w r)))
                = clock (admitted w)).
  { intros o l0 fmt. cbn [snd].
    destruct (emit_log_wire l0 fmt (attempt w r)) as [-> _].
    apply (Hone o). }
  destruct (network w (sent w)) as [resp|] eqn:En; [|apply Hlog].
  destruct (400 <=? status resp).
  - destruct (status resp =? 429) eqn:E429.
    + destruct (header_get "Retry-After" (resp_headers resp)) as [[d|s]|] eqn:Eh;
        [|apply Hlog|apply Hone].
      exfalso. apply (Hnt d). exists resp. repeat split; auto. lia.
    + destruct (status resp =? 400); apply Hlog.
  - destruct (resp_body resp) as [v| |]; try apply Hlog.
    destruct (subscript v (VInt 0)); try apply Hlog. apply Hone.
Qed.

Lemma one_request_unless_throttled_scenario_B :
  let w := boot noon default_client (always (http_error 400 [])) in
  let w' := snd (run (perform_rest_action 1 (vep_endpoint (VStr "1:g.200C>G"))
                        pick_one) w) in
  sends (trace w')
    = sends (trace w)
      ++ [(clock (admitted w),
           request_of (client w) (vep_endpoint (VStr "1:g.200C>G")) pick_one)]
  /\ sent w' = S (sent w)
  /\ clock w' = clock (admitted w).
Proof.
  apply (one_request_unless_throttled 0 (vep_endpoint (VStr "1:g.200C>G")) pick_one
           (boot noon default_client (always (http_error 400 [])))).
  intros d (resp & Hn & H429 & _). injection Hn as <-. discriminate.
Defined.

(** ** What leaves [update_variant_info] *)

(** A record without the [hgvs] key raises KeyError before anything is
    done: no admission, no request, the world is as it was. *)
Theorem missing_identifier (fuel : nat) (variant : dict) (w : world) :
  dict_get "hgvs" variant = None ->
  run (update_variant_info fuel variant) w = (Raised KeyError, w).
Proof.
  intros Hh. now rewrite run_update_variant_info, Hh.
Qed.

Lemma missing_identifier_example :
  run (update_variant_info 1 variant_without_hgvs)
      (boot noon default_client (always (ok payload_A)))
  = (Raised KeyError, boot noon default_client (always (ok payload_A))).
Proof.
  exact (missing_identifier 1 variant_without_hgvs
           (boot noon default_client (always (ok payload_A))) eq_refl).
Defined.

(** A success whose element zero is not an object is not absorbed:
    the subscript on it raises TypeError, which is not one of the
    exceptions the [try] blocks catch. *)
Theorem non_object_payload (fuel : nat) (variant : dict) (hgvs : value)
    (w : world) (resp : response) (p : value) :
  dict_get "hgvs" variant = Some hgvs ->
  network w (sent w) = Responded resp ->
  carries resp p ->
  is_dict p = false ->
  fst (run (update_variant_info (S fuel) variant) w) = Raised TypeError.
Proof.
  intros Hh Hn Hc Hp.
  rewrite run_update_variant_info, Hh.
  rewrite (perform_rest_action_carries _ _ _ _ _ _ Hn Hc).
  unfold annotate, tc_block. rewrite run_bind, run_try_except, run_bind.
  destruct p; try discriminate; reflexivity.
Qed.

Lemma non_object_payload_example :
  fst (run (update_variant_info 1 variant_A)
         (boot noon default_client (always (ok (VInt 5))))) = Raised TypeError.
Proof.
  refine (non_object_payload 0 variant_A (VStr "1:g.100A>T")
            (boot noon default_client (always (ok (VInt 5)))) _ (VInt 5)
            eq_refl eq_refl _ eq_refl).
  split; [reflexivity|]. exists []. reflexivity.
Defined.

(** * Further properties of the orchestrator *)

Lemma gather_returned_tasks {A} (ts : list (task A)) (done : list nat)
    (rs : list A) :
  gather ts done = Returned rs ->
  forall i, In i done -> exists a, nth_error ts i = Some (Returns a).
Proof.
  revert rs. induction done as [|j done IH]; intros rs Hg i Hi; [contradiction|].
  simpl in Hg.
  destruct (nth_error ts j) as [[wake p|a|e]|] eqn:Ej; try discriminate.
  destruct (gather ts done) as [l|e|] eqn:Eg; try discriminate.
  destruct Hi as [<-|Hi]; [eauto|]. now apply (IH l).
Qed.

(** [process_variants] never returns a partial list: when it returns,
    every task has returned. *)
Theorem never_a_partial_list (fuel : nat) (vcf_reader : list dict)
    (sched : schedule) (now : Z) (net : nat -> exchange) (rs : list dict) :
  process_variants fuel vcf_reader sched now net = Returned rs ->
  Forall (fun t => exists a, t = Returns a)
    (tasks (annotating fuel vcf_reader sched now net)).
Proof.
  unfold process_variants.
  set (s := annotating fuel vcf_reader sched now net).
  pose proof (sound_annotating fuel vcf_reader sched now net) as Hs. fold s in Hs.
  assert (Hlen : List.length (tasks s) = List.length vcf_reader).
  { unfold s, annotating. rewrite length_tasks_exec. simpl.
    now rewrite !length_map. }
  destruct (gather (tasks s) (completed s)) as [l|e|] eqn:Eg; try discriminate.
  destruct (Nat.eqb (List.length l) (List.length vcf_reader)) eqn:El;
    [|discriminate].
  intros _. apply Nat.eqb_eq in El.
  assert (Hp : Permutation (completed s) (seq 0 (List.length vcf_reader))).
  { apply NoDup_bounded_Permutation.
    - apply Hs.
    - intros i Hi. rewrite <- Hlen. now apply Hs.
    - rewrite <- El. symmetry. eapply gather_length. exact Eg. }
  apply Forall_forall. intros t Ht.
  apply In_nth_error in Ht. destruct Ht as [i Hi].
  assert (Hin : In i (completed s)).
  { eapply Permutation_in; [symmetry; exact Hp|].
    apply in_seq. split; [lia|]. simpl. rewrite <- Hlen.
    apply nth_error_Some. congruence. }
  destruct (gather_returned_tasks _ _ _ Eg i Hin) as [a Ha].
  exists a. congruence.
Qed.

Lemma never_a_partial_list_example :
  Forall (fun t => exists a, t = Returns a)
    (tasks (annotating 1 [variant_A; variant_B] [(1%nat, 0); (0%nat, 0); (0%nat, 5); (1%nat, 7)]
              noon (always (ok payload_A)))).
Proof.
  apply (never_a_partial_list 1 [variant_A; variant_B]
           [(1%nat, 0); (0%nat, 0); (0%nat, 5); (1%nat, 7)] noon (always (ok payload_A))
           [dict_update variant_A (extracted "T" payload_A);
            dict_update variant_B (extracted "G" payload_A)]).
  vm_compute. reflexivity.
Defined.

Lemma gather_raised {A} (ts : list (task A)) (done : list nat) :
  (forall j, In j done -> exists t, nth_error ts j = Some t /\ finished t = true) ->
  (exists i e, In i done /\ nth_error ts i = Some (Raises e)) ->
  exists e', gather ts done = Raised e'.
Proof.
  induction done as [|j done IH]; intros Hfin (i & e & Hi & He);
    [contradiction|].
  simpl.
  destruct (Hfin j (or_introl eq_refl)) as (t & Ht & Hf). rewrite Ht.
  destruct t as [wake p|a|e0]; try discriminate; [|eauto].
  destruct Hi as [<-|Hi]; [congruence|].
  destruct IH as [e' ->]; eauto.
  intros k Hk. apply Hfin. now right.
Qed.

(** One task that has raised ends the batch: [process_variants] raises,
    and [main] exits with status 1 without writing. *)
Theorem one_exception_ends_the_batch (fuel : nat) (vcf_reader : list dict)
    (output_tsv : string) (sched : schedule) (now : Z) (net : nat -> exchange)
    (fs : filesystem) (i : nat) (e : exn) :
  nth_error (tasks (annotating fuel vcf_reader sched now net)) i = Some (Raises e) ->
  (exists e', process_variants fuel vcf_reader sched now net = Raised e')
  /\ main (Some vcf_reader) output_tsv fuel sched now net fs = Some (1, fs).
Proof.
  intros Hi.
  pose proof (sound_annotating fuel vcf_reader sched now net) as Hs.
  assert (He : exists e', process_variants fuel vcf_reader sched now net = Raised e').
  { unfold process_variants.
    destruct (gather_raised (tasks (annotating fuel vcf_reader sched now net))
                (completed (annotating fuel vcf_reader sched now net)))
      as [e' He'].
    - apply Hs.
    - exists i, e. split; [|exact Hi]. now apply (sound_all _ _ Hs i _ Hi).
    - exists e'. now rewrite He'. }
  split; [exact He|]. destruct He as [e' He']. unfold main. now rewrite He'.
Qed.

Lemma one_exception_ends_the_batch_example :
  (exists e', process_variants 1 [variant_A; variant_without_hgvs]
                [(1%nat, 0)] noon (always (ok payload_A)) = Raised e')
  /\ main (Some [variant_A; variant_without_hgvs]) "out.tsv" 1
        [(1%nat, 0)] noon (always (ok payload_A))
        {| writable := fun _ => true; files := [] |}
     = Some (1, {| writable := fun _ => true; files := [] |}).
Proof.
  exact (one_exception_ends_the_batch 1 [variant_A; variant_without_hgvs]
           "out.tsv" [(1%nat, 0)] noon (always (ok payload_A))
           {| writable := fun _ => true; files := [] |} 1%nat KeyError eq_refl).
Defined.

(** * The report sink *)

Lemma writerows_report (fieldnames : list string) (rows : list dict) (file : tsv) :
  Forall (fun r => incl (keys r) fieldnames) rows ->
  writerows fieldnames rows file
  = (Returned tt, file ++ map (row_of fieldnames) rows).
Proof.
  intros H. revert file. induction H as [|r rows Hr H IH]; intros file; simpl.
  - now rewrite app_nil_r.
  - unfold dict_to_list.
    assert (forallb (fun k => mem k fieldnames) (keys r) = true) as ->.
    { apply forallb_forall. intros k Hk. unfold mem. apply existsb_exists.
      exists k. split; [now apply Hr|apply String.eqb_refl]. }
    rewrite IH, <- app_assoc. reflexivity.
Qed.

Lemma write_to_tsv_uniform (first : dict) (rest : list dict)
    (output_tsv : string) (fs : filesystem) :
  writable fs output_tsv = true ->
  Forall (fun r => incl (keys r) (keys first)) rest ->
  write_to_tsv (first :: rest) output_tsv fs
  = (Returned tt, store output_tsv (report (keys first) (first :: rest)) fs).
Proof.
  intros Hw Hrows. unfold write_to_tsv. rewrite Hw.
  rewrite writerows_report.
  - reflexivity.
  - constructor; [apply incl_refl|exact Hrows].
Qed.

(** When the output can be opened and no record has a key outside the
    keys of the first record, [write_to_tsv] stores the header of the
    first record's keys and one row per record, each cell the field of
    the record under that key, or the empty string. *)
Theorem write_to_tsv_report (first : dict) (rest : list dict)
    (output_tsv : string) (fs : filesystem) :
  writable fs output_tsv = true ->
  Forall (fun r => incl (keys r) (keys first)) rest ->
  write_to_tsv (first :: rest) output_tsv fs
  = (Returned tt, store output_tsv (report (keys first) (first :: rest)) fs).
Proof.
  intros Hw Hrows. unfold write_to_tsv. rewrite Hw.
  rewrite writerows_report.
  - reflexivity.
  - constructor; [apply incl_refl|exact Hrows].
Qed.

Lemma write_to_tsv_report_example :
  write_to_tsv [variant_A; variant_B] "out.tsv"
    {| writable := fun _ => true; files := [] |}
  = (Returned tt,
     store "out.tsv" (report (keys variant_A) [variant_A; variant_B])
       {| writable := fun _ => true; files := [] |}).
Proof.
  apply (write_to_tsv_report variant_A [variant_B] "out.tsv"
           {| writable := fun _ => true; files := [] |} eq_refl).
  constructor; [|constructor]. unfold incl. intros k Hk. exact Hk.
Defined.

Lemma writerows_extra_key (fieldnames : list string) (good : list dict)
    (bad : dict) (rest : list dict) (file : tsv) :
  Forall (fun r => incl (keys r) fieldnames) good ->
  ~ incl (keys bad) fieldnames ->
  writerows fieldnames (good ++ bad :: rest) file
  = (Raised ValueError, file ++ map (row_of fieldnames) good).
Proof.
  intros H Hbad. revert file. induction H as [|r rows Hr H IH]; intros file.
  - simpl. unfold dict_to_list.
    destruct (forallb (fun k => mem k fieldnames) (keys bad)) eqn:E.
    + exfalso. apply Hbad. intros k Hk.
      rewrite forallb_forall in E. specialize (E k Hk).
      unfold mem in E. apply existsb_exists in E.
      destruct E as (k' & Hk' & Ek). apply String.eqb_eq in Ek. now subst.
    + now rewrite app_nil_r.
  - simpl. unfold dict_to_list at 1.
    assert (forallb (fun k => mem k fieldnames) (keys r) = true) as ->.
    { apply forallb_forall. intros k Hk. unfold mem. apply existsb_exists.
      exists k. split; [now apply Hr|apply String.eqb_refl]. }
    rewrite IH, <- app_assoc. reflexivity.
Qed.

Lemma write_to_tsv_raises (first bad : dict) (good rest : list dict)
    (output_tsv : string) (fs : filesystem) :
  writable fs output_tsv = true ->
  Forall (fun r => incl (keys r) (keys first)) good ->
  ~ incl (keys bad) (keys first) ->
  write_to_tsv (first :: good ++ bad :: rest) output_tsv fs
  = (Raised ValueError,
     store output_tsv (report (keys first) (first :: good)) fs).
Proof.
  intros Hw Hgood Hbad. unfold write_to_tsv. rewrite Hw.
  change (first :: good ++ bad :: rest) with ((first :: good) ++ bad :: rest).
  rewrite writerows_extra_key; auto.
  constructor; [apply incl_refl|exact Hgood].
Qed.

(** A record with a key that the first record lacks makes
    [write_to_tsv] raise ValueError; the header and the rows before
    that record are in the file by then. *)
Theorem write_to_tsv_extra_key (first bad : dict) (good rest : list dict)
    (output_tsv : string) (fs : filesystem) :
  writable fs output_tsv = true ->
  Forall (fun r => incl (keys r) (keys first)) good ->
  ~ incl (keys bad) (keys first) ->
  write_to_tsv (first :: good ++ bad :: rest) output_tsv fs
  = (Raised ValueError,
     store output_tsv (report (keys first) (first :: good)) fs).
Proof.
  intros Hw Hgood Hbad. unfold write_to_tsv. rewrite Hw.
  change (first :: good ++ bad :: rest) with ((first :: good) ++ bad :: rest).
  rewrite writerows_extra_key; auto.
  constructor; [apply incl_refl|exact Hgood].
Qed.

Lemma write_to_tsv_extra_key_example :
  write_to_tsv (variant_without_hgvs :: [] ++ variant_A :: []) "out.tsv"
    {| writable := fun _ => true; files := [] |}
  = (Raised ValueError,
     store "out.tsv" (report (keys variant_without_hgvs) [variant_without_hgvs])
       {| writable := fun _ => true; files := [] |}).
Proof.
  apply (write_to_tsv_extra_key variant_without_hgvs variant_A [] [] "out.tsv"
           {| writable := fun _ => true; files := [] |} eq_refl).
  - constructor.
  - intros H. unfold incl in H. specialize (H "hgvs"%string).
    assert (Hin : In "hgvs"%string (keys variant_without_hgvs))
      by (apply H; simpl; tauto).
    simpl in Hin. intuition discriminate.
Defined.

(** When the output cannot be opened [write_to_tsv] raises IOError and
    [main] exits with status 1; the file system is as it was. *)
Theorem unwritable_output (fuel : nat) (vcf_reader : list dict)
    (output_tsv : string) (sched : schedule) (now : Z) (net : nat -> exchange)
    (fs : filesystem) (r : dict) (rs : list dict) :
  writable fs output_tsv = false ->
  process_variants fuel vcf_reader sched now net = Returned (r :: rs) ->
  write_to_tsv (r :: rs) output_tsv fs = (Raised IOError, fs)
  /\ main (Some vcf_reader) output_tsv fuel sched now net fs = Some (1, fs).
Proof.
  intros Hw Hr.
  assert (H : write_to_tsv (r :: rs) output_tsv fs = (Raised IOError, fs)).
  { unfold write_to_tsv. now rewrite Hw. }
  split; [exact H|]. unfold main. now rewrite Hr, H.
Qed.

Lemma unwritable_output_example :
  write_to_tsv [dict_update variant_A (extracted "T" payload_A)] "out.tsv"
    {| writable := fun _ => false; files := [] |}
  = (Raised IOError, {| writable := fun _ => false; files := [] |})
  /\ main (Some [variant_A]) "out.tsv" 1 [(0%nat, 0); (0%nat, 0)] noon
       (always (ok payload_A)) {| writable := fun _ => false; files := [] |}
     = Some (1, {| writable := fun _ => false; files := [] |}).
Proof.
  apply (unwritable_output 1 [variant_A] "out.tsv" [(0%nat, 0); (0%nat, 0)] noon
           (always (ok payload_A)) {| writable := fun _ => false; files := [] |}
           (dict_update variant_A (extracted "T" payload_A)) [] eq_refl).
  vm_compute. reflexivity.
Defined.

(** ** The columns of the report *)

Lemma keys_dict_set_congr (k : string) (v v' : value) (d d' : dict) :
  keys d = keys d' -> keys (dict_set k v d) = keys (dict_set k v' d').
Proof.
  revert d'. induction d as [|[k0 v0] d IH]; intros [|[k1 v1] d'] H;
    simpl in H; try discriminate; [reflexivity|].
  injection H as <- H. simpl.
  destruct (String.eqb k k0); simpl; f_equal; auto.
Qed.

Lemma keys_dict_update_congr (u u' d d' : dict) :
  keys u = keys u' -> keys d = keys d' ->
  keys (dict_update d u) = keys (dict_update d' u').
Proof.
  unfold dict_update. revert u' d d'.
  induction u as [|[k v] u IH]; intros [|[k' v'] u'] d d' Hu Hd;
    simpl in Hu; try discriminate; [exact Hd|].
  injection Hu as <- Hu. simpl. apply IH; [exact Hu|].
  now apply keys_dict_set_congr.
Qed.

Lemma keys_dict_update_fresh (u d : dict) :
  NoDup (keys u) ->
  (forall k, In k (keys u) -> ~ In k (keys d)) ->
  keys (dict_update d u) = keys d ++ keys u.
Proof.
  unfold dict_update. revert d.
  induction u as [|[k v] u IH]; intros d Hnd Hfresh; simpl.
  - now rewrite app_nil_r.
  - inversion Hnd as [|? ? Hk Hnd']; subst.
    rewrite IH; [|exact Hnd'|].
    + rewrite keys_dict_set_new by (apply Hfresh; now left).
      now rewrite <- app_assoc.
    + intros k' Hk'. rewrite in_keys_dict_set. intros [->|Hin].
      * contradiction.
      * apply (Hfresh k'); [now right|exact Hin].
Qed.

(** On a record that has none of the annotation fields the six fields
    are added after the fields of the record, in the order of the
    [update] call: these are the last six columns of the report. *)
Theorem annotation_columns (fuel : nat) (variant r : dict) (w w' : world) :
  (forall f, In f annotation_fields -> ~ In f (keys variant)) ->
  run (update_variant_info fuel variant) w = (Returned r, w') ->
  keys r = keys variant ++ annotation_fields.
Proof.
  intros Hfresh Hr.
  destruct (update_variant_info_returns _ _ _ _ _ Hr) as (u & Hu & ->).
  rewrite keys_dict_update_fresh, Hu; auto.
  - rewrite Hu. exact NoDup_annotation_fields.
  - now rewrite Hu.
Qed.

Lemma annotation_columns_scenario_A :
  keys (dict_update variant_A (extracted "T" payload_A))
  = keys variant_A ++ annotation_fields.
Proof.
  refine (annotation_columns 1 variant_A _
            (boot noon default_client (always (ok payload_A)))
            (snd (run (update_variant_info 1 variant_A)
                    (boot noon default_client (always (ok payload_A)))))
            _ eq_refl).
  intros f Hf Hin. unfold annotation_fields in Hf. simpl in Hf, Hin.
  intuition (subst; discriminate).
Defined.

Lemma all_rets_annotated (fuel : nat) (variant : dict) :
  all_rets (annotated variant) (update_variant_info fuel variant).
Proof.
  rewrite update_variant_info_blocks.
  do 4 (apply all_rets_bind; intros ?).
  unfold merge.
  destruct a1 as [| | | | | |t]; try exact I.
  rewrite !method_get_dict. cbn [bind].
  destruct a0 as [| | | | | |d]; try exact I.
  rewrite method_get_dict. cbn [bind all_rets].
  eexists. split; [|reflexivity]. reflexivity.
Qed.

Lemma process_variants_annotated (fuel : nat) (vcf_reader : list dict)
    (sched : schedule) (now : Z) (net : nat -> exchange) (rs : list dict) :
  process_variants fuel vcf_reader sched now net = Returned rs ->
  List.length rs = List.length vcf_reader
  /\ Forall (fun r => exists v, In v vcf_reader /\ annotated v r) rs.
Proof.
  unfold process_variants.
  set (s := annotating fuel vcf_reader sched now net).
  assert (Hs : sound (map annotated vcf_reader) s).
  { apply sound_exec, sound_spawn.
    clear. induction vcf_reader as [|v vs IH]; simpl; constructor; auto.
    apply all_rets_annotated. }
  destruct (gather (tasks s) (completed s)) as [l|e|] eqn:Eg; try discriminate.
  destruct (Nat.eqb (List.length l) (List.length vcf_reader)) eqn:El;
    [|discriminate].
  intros H. injection H as <-. apply Nat.eqb_eq in El.
  split; [exact El|].
  pose proof (gather_sound _ _ _ _ (sound_tasks _ _ Hs) Eg) as Hg.
  clear Eg El. induction Hg as [|i r done l (P & HP & Hr) Hg IH]; constructor; auto.
  rewrite nth_error_map in HP.
  destruct (nth_error vcf_reader i) as [v|] eqn:Ev; [|discriminate].
  injection HP as <-. exists v. split; [|exact Hr].
  eapply nth_error_In. exact Ev.
Qed.

(** When the variants all have the same fields, the output can be
    opened and [process_variants] returns, [main] writes the header and
    one row per variant and exits with status 0. *)
Theorem report_is_written (fuel : nat) (v0 : dict) (vs : list dict)
    (output_tsv : string) (sched : schedule) (now : Z) (net : nat -> exchange)
    (fs : filesystem) (rs : list dict) :
  Forall (fun v => keys v = keys v0) vs ->
  writable fs output_tsv = true ->
  process_variants fuel (v0 :: vs) sched now net = Returned rs ->
  exists r0,
    hd_error rs = Some r0
    /\ keys r0 = keys (dict_update v0 null_annotation)
    /\ main (Some (v0 :: vs)) output_tsv fuel sched now net fs
       = Some (0, store output_tsv (report (keys r0) rs) fs)
    /\ List.length (report (keys r0) rs) = S (S (List.length vs)).
Proof.
  intros Hkeys Hw Hr.
  destruct (process_variants_annotated _ _ _ _ _ _ Hr) as [Hlen Hann].
  assert (Hk : Forall (fun r => keys r = keys (dict_update v0 null_annotation)) rs).
  { eapply Forall_impl; [|exact Hann].
    intros r (v & Hv & u & Hu & ->).
    apply keys_dict_update_congr; [exact Hu|].
    destruct Hv as [<-|Hv]; [reflexivity|].
    rewrite Forall_forall in Hkeys. now apply Hkeys. }
  destruct rs as [|r0 rest]; [discriminate|].
  exists r0. inversion Hk as [|? ? Hk0 Hkrest]; subst.
  split; [reflexivity|]. split; [exact Hk0|]. split.
  - unfold main. rewrite Hr, write_to_tsv_uniform; auto.
    eapply Forall_impl; [|exact Hkrest].
    intros r Hkr. rewrite Hkr, Hk0. apply incl_refl.
  - unfold report. simpl. rewrite length_map. simpl in Hlen. lia.
Qed.

Lemma report_is_written_example :
  exists r0,
    hd_error [dict_update variant_B (extracted "G" payload_A);
              dict_update variant_A (extracted "T" payload_A)] = Some r0
    /\ keys r0 = keys (dict_update variant_A null_annotation)
    /\ main (Some [variant_A; variant_B]) "out.tsv" 1
         [(1%nat, 0); (0%nat, 0); (1%nat, 5); (0%nat, 7)] noon (always (ok payload_A))
         {| writable := fun _ => true; files := [] |}
       = Some (0, store "out.tsv"
                    (report (keys r0)
                       [dict_update variant_B (extracted "G" payload_A);
                        dict_update variant_A (extracted "T" payload_A)])
                    {| writable := fun _ => true; files := [] |})
    /\ List.length (report (keys r0)
                      [dict_update variant_B (extracted "G" payload_A);
                       dict_update variant_A (extracted "T" payload_A)]) = 3%nat.
Proof.
  apply (report_is_written 1 variant_A [variant_B] "out.tsv"
           [(1%nat, 0); (0%nat, 0); (1%nat, 5); (0%nat, 7)] noon
           (always (ok payload_A)) {| writable := fun _ => true; files := [] |}).
  - repeat constructor.
  - reflexivity.
  - vm_compute. reflexivity.
Defined.

(** * Further properties of the rate limiter *)

Lemma admitted_below (w : world) :
  req_count (client w) < reqs_per_sec (client w) ->
  clock (admitted w) = clock w
  /\ req_count (client (admitted w)) = req_count (client w) + 1
  /\ last_req (client (admitted w)) = last_req (client w)
  /\ reqs_per_sec (client (admitted w)) = reqs_per_sec (client w)
  /\ slept (trace (admitted w)) = slept (trace w).
Proof.
  intros Hlt. unfold admitted, _apply_rate_limit. simpl.
  assert ((req_count (client w) >=? reqs_per_sec (client w)) = false) as ->
    by lia.
  simpl. repeat split; auto.
  assert (Happ : forall l l', slept (l ++ l') = slept l + slept l').
  { induction l as [|ev l IH]; intros l'; simpl; auto.
    destruct ev; rewrite ?IH; lia. }
  rewrite !Happ. simpl. lia.
Qed.

Lemma admitted_reset (w : world) :
  reqs_per_sec (client w) <= req_count (client w) ->
  clock (admitted w) = Z.max (clock w) (last_req (client w) + second)
  /\ req_count (client (admitted w)) = 1
  /\ last_req (client (admitted w)) = clock (admitted w)
  /\ reqs_per_sec (client (admitted w)) = reqs_per_sec (client w).
Proof.
  intros Hge. unfold admitted, _apply_rate_limit.
  cbn -[Z.add Z.sub Z.max Z.ltb Z.geb second].
  assert ((req_count (client w) >=? reqs_per_sec (client w)) = true) as ->
    by lia.
  cbn -[Z.add Z.sub Z.max Z.ltb Z.geb second].
  destruct (clock w - last_req (client w) <? second) eqn:E;
    cbn -[Z.add Z.sub Z.max Z.ltb Z.geb second]; unfold wake_time;
    cbn -[Z.add Z.sub Z.max Z.ltb Z.geb second];
    repeat split; auto; lia.
Qed.

(** One admission: below the ceiling the call returns at once and
    counts itself; at the ceiling it returns no sooner than a second
    after the last reset, and starts a new count at 1 from then. *)
Theorem one_admission (w : world) :
  (req_count (client w) < reqs_per_sec (client w) ->
     clock (admitted w) = clock w
     /\ req_count (client (admitted w)) = req_count (client w) + 1
     /\ last_req (client (admitted w)) = last_req (client w)
     /\ slept (trace (admitted w)) = slept (trace w))
  /\ (reqs_per_sec (client w) <= req_count (client w) ->
     clock (admitted w) = Z.max (clock w) (last_req (client w) + second)
     /\ req_count (client (admitted w)) = 1
     /\ last_req (client (admitted w)) = clock (admitted w))
  /\ locked (admitted w) = false
  /\ admissions (trace (admitted w)) = admissions (trace w) ++ [clock (admitted w)].
Proof.
  split; [|split; [|split]].
  - intros H. destruct (admitted_below w H) as (H1 & H2 & H3 & _ & H5). auto.
  - intros H. destruct (admitted_reset w H) as (H1 & H2 & H3 & _). auto.
  - unfold admitted, _apply_rate_limit. simpl.
    destruct (req_count (client w) >=? reqs_per_sec (client w)); simpl; auto.
    destruct (clock w - last_req (client w) <? second); reflexivity.
  - apply admitted_admissions.
Qed.

Lemma one_admission_at_the_ceiling :
  let w := with_client (set_last_req (noon - 300)
                          (set_req_count 10 default_client))
             (boot noon default_client (always Failed)) in
  clock (admitted w) = Z.max (clock w) (last_req (client w) + second)
  /\ req_count (client (admitted w)) = 1
  /\ last_req (client (admitted w)) = clock (admitted w).
Proof.
  intros w. apply (proj1 (proj2 (one_admission w))). simpl. lia.
Defined.

Lemma window_count_app (t : Z) (l l' : list Z) :
  window_count t (l ++ l') = (window_count t l + window_count t l')%nat.
Proof. unfold window_count. now rewrite filter_app, length_app. Qed.

Lemma window_count_length (t : Z) (l : list Z) :
  (window_count t l <= List.length l)%nat.
Proof. unfold window_count. apply filter_length_le. Qed.

Lemma window_count_old (t : Z) (l : list Z) :
  Forall (fun a => a <= t - second) l -> window_count t l = 0%nat.
Proof.
  unfold window_count. induction 1 as [|a l Ha H IH]; simpl; auto.
  assert ((t - second <? a) = false) as -> by lia. exact IH.
Qed.

Lemma window_count_later (t a : Z) : t < a -> window_count t [a] = 0%nat.
Proof.
  intros H. unfold window_count. simpl.
  assert ((a <=? t) = false) as -> by lia. now rewrite andb_false_r.
Qed.

Lemma limiter_inv_later (w : world) (t : Z) :
  clock w <= t -> limiter_inv w -> limiter_inv (with_clock t w).
Proof.
  intros Ht (older & prev & cur & Ha & Ho & Hp & Hc & Hlp & Hlc & Hcnt & Hwin).
  exists older, prev, cur. cbn [with_clock trace clock client].
  repeat split; auto.
  - eapply Forall_impl; [|exact Ho]. simpl. intros; lia.
  - eapply Forall_impl; [|exact Hc]. simpl. intros; lia.
Qed.

Lemma limiter_inv_admitted (w : world) :
  1 <= reqs_per_sec (client w) -> limiter_inv w -> limiter_inv (admitted w).
Proof.
  intros HC (older & prev & cur & Ha & Ho & Hp & Hc & Hlp & Hlc & Hcnt & Hwin).
  assert (Hnew : forall older' prev' cur' t,
             admissions (trace (admitted w)) = older' ++ prev' ++ cur' ->
             Forall (fun a => a <= clock (admitted w) - second) older' ->
             Z.of_nat (List.length prev') <= reqs_per_sec (client w) ->
             Z.of_nat (List.length cur') <= reqs_per_sec (client w) ->
             Z.of_nat (window_count t (admissions (trace (admitted w))))
             <= 2 * reqs_per_sec (client w)).
  { intros older' prev' cur' t Hadm Hold Hl1 Hl2.
    destruct (Z_lt_le_dec t (clock (admitted w))) as [Hlt|Hge].
    - rewrite admitted_admissions, window_count_app, window_count_later by lia.
      rewrite Nat.add_0_r. apply Hwin.
    - rewrite Hadm, !window_count_app, window_count_old.
      + pose proof (window_count_length t prev').
        pose proof (window_count_length t cur'). lia.
      + eapply Forall_impl; [|exact Hold]. simpl. intros; lia. }
  destruct (Z_lt_le_dec (req_count (client w)) (reqs_per_sec (client w)))
    as [Hlt|Hge].
  - destruct (admitted_below w Hlt) as (Hck & Hrc & Hlr & Hrs & _).
    assert (Hadm : admissions (trace (admitted w))
                   = older ++ prev ++ cur ++ [clock w]).
    { rewrite admitted_admissions, Ha, Hck, <- !app_assoc. reflexivity. }
    exists older, prev, (cur ++ [clock w]).
    rewrite Hck, Hrc, Hlr, Hrs.
    split; [exact Hadm|]. split; [exact Ho|]. split; [exact Hp|].
    split; [|split; [exact Hlp|split; [|split; [lia|]]]].
    + apply Forall_app. split; [exact Hc|]. constructor; [lia|constructor].
    + rewrite length_app. simpl. lia.
    + intros t. apply (Hnew older prev (cur ++ [clock w])).
      * exact Hadm.
      * now rewrite Hck.
      * exact Hlp.
      * rewrite length_app. simpl. lia.
  - destruct (admitted_reset w Hge) as (Hck & Hrc & Hlr & Hrs).
    assert (Hadm : admissions (trace (admitted w))
                   = (older ++ prev) ++ cur ++ [clock (admitted w)]).
    { rewrite admitted_admissions, Ha, <- !app_assoc. reflexivity. }
    assert (Hold : Forall (fun a => a <= clock (admitted w) - second)
                     (older ++ prev)).
    { apply Forall_app. split.
      - eapply Forall_impl; [|exact Ho]. simpl. intros; lia.
      - eapply Forall_impl; [|exact Hp]. simpl. intros; lia. }
    exists (older ++ prev), cur, [clock (admitted w)].
    rewrite Hrc, Hlr, Hrs.
    split; [exact Hadm|]. split; [exact Hold|].
    split; [|split; [|split; [lia|split; [reflexivity|split; [lia|]]]]].
    + eapply Forall_impl; [|exact Hc]. simpl. intros; lia.
    + constructor; [lia|constructor].
    + intros t. apply (Hnew (older ++ prev) cur [clock (admitted w)]).
      * exact Hadm.
      * exact Hold.
      * lia.
      * simpl. lia.
Qed.

Lemma limiter_inv_admit_each (delays : list Z) (w : world) :
  1 <= reqs_per_sec (client w) -> limiter_inv w ->
  limiter_inv (admit_each delays w)
  /\ reqs_per_sec (client (admit_each delays w)) = reqs_per_sec (client w).
Proof.
  revert w. induction delays as [|dt delays IH]; intros w HC Hinv; [auto|].
  cbn [admit_each].
  set (w1 := with_clock (clock w + Z.max 0 dt) w).
  assert (Hinv1 : limiter_inv w1) by (apply limiter_inv_later; [lia|exact Hinv]).
  assert (Hrs : reqs_per_sec (client (admitted w1)) = reqs_per_sec (client w)).
  { destruct (Z_lt_le_dec (req_count (client w1)) (reqs_per_sec (client w1)))
      as [Hlt|Hge].
    - now destruct (admitted_below w1 Hlt) as (_ & _ & _ & -> & _).
    - now destruct (admitted_reset w1 Hge) as (_ & _ & _ & ->). }
  destruct (IH (admitted w1)) as [H1 H2].
  - now rewrite Hrs.
  - now apply limiter_inv_admitted.
  - split; [exact H1|congruence].
Qed.

(** What the rate limiter does guarantee: with a ceiling of at least 1,
    however the calls are spaced, no second holds more than twice the
    ceiling of admissions. *)
Theorem at_most_twice_the_ceiling (server : string) (ceiling : Z) (now : Z)
    (net : nat -> exchange) (delays : list Z) (t : Z) :
  1 <= ceiling ->
  Z.of_nat (window_count t
              (admissions (trace (admit_each delays
                                    (boot now (init server ceiling) net)))))
  <= 2 * ceiling.
Proof.
  intros HC.
  destruct (limiter_inv_admit_each delays (boot now (init server ceiling) net))
    as [(older & prev & cur & _ & _ & _ & _ & _ & _ & _ & Hwin) Hrs].
  - exact HC.
  - exists [], [], []. cbn -[Z.mul]. repeat split; auto; try lia.
  - specialize (Hwin t). rewrite Hrs in Hwin. exact Hwin.
Qed.

Lemma at_most_twice_the_ceiling_burst :
  Z.of_nat (window_count noon
              (admissions (trace (admit_each (repeat 0 25)
                                    (boot noon (init "https://grch37.rest.ensembl.org" 10)
                                       (always Failed))))))
  <= 2 * 10.
Proof.
  apply (at_most_twice_the_ceiling "https://grch37.rest.ensembl.org" 10 noon
           (always Failed) (repeat 0 25) noon).
  lia.
Defined.

(** * The reader *)

Lemma enumerate_snd {A} (i : nat) (l : list A) :
  map snd (enumerate i l) = l.
Proof.
  revert i. induction l as [|x l IH]; intros i; simpl; auto. now rewrite IH.
Qed.

Lemma length_enumerate {A} (i : nat) (l : list A) :
  List.length (enumerate i l) = List.length l.
Proof.
  revert i. induction l as [|x l IH]; intros i; simpl; auto.
Qed.

Lemma variant_info_fields (record : vcf_record) (i : nat) (alt : string) :
  let v := variant_info record i alt in
  variant_of alt v
  /\ dict_get "chrom" v = Some (VStr (CHROM record))
  /\ dict_get "pos" v = Some (VInt (POS record))
  /\ dict_get "ref" v = Some (VStr (REF record))
  /\ dict_get "hgvs" v = Some (VStr (hgvs_of record alt))
  /\ dict_get "num_reads" v = option_map (fun r => fst (fst r)) (reads record i)
  /\ NoDup (keys v)
  /\ (forall f, In f annotation_fields -> ~ In f (keys v)).
Proof.
  cbv zeta. unfold variant_info, coverage_info, variant_fields, variant_of.
  destruct (reads record i) as [[[nr nv] pct]|]; cbn.
  - repeat split; eauto.
    + repeat (constructor; [simpl; intuition discriminate|]). constructor.
    + intros f Hf Hin. unfold annotation_fields in Hf. simpl in Hf.
      intuition (subst; discriminate).
  - repeat split; eauto.
    + repeat (constructor; [simpl; intuition discriminate|]). constructor.
    + intros f Hf Hin. unfold annotation_fields in Hf. simpl in Hf.
      intuition (subst; discriminate).
Qed.

Lemma in_enumerate {A} (l : list A) (k i : nat) (x : A) :
  In (i, x) (enumerate k l) ->
  exists j, nth_error l j = Some x /\ i = (k + j)%nat.
Proof.
  revert k. induction l as [|y l IH]; intros k H; [contradiction|].
  destruct H as [E|H].
  - injection E as <- <-. exists 0%nat. split; [reflexivity|lia].
  - destruct (IH _ H) as (j & Hj & ->). exists (S j). split; [exact Hj|lia].
Qed.

(** When [get_coverage_info] returns, it returns [coverage_info]. *)
Lemma get_coverage_info_inr (record : vcf_record) (i : nat) (info : dict) :
  get_coverage_info record i = inr info -> info = coverage_info record i.
Proof.
  unfold get_coverage_info, coverage_info, reads.
  destruct (sample record i) as [e|[[nr nv] pct]].
  - destruct (is_lookup_error e); intros H; inversion H; reflexivity.
  - intros H; inversion H; reflexivity.
Qed.

(** It raises only what its handler does not catch. *)
Lemma get_coverage_info_inl (record : vcf_record) (i : nat) (e : exn) :
  get_coverage_info record i = inl e ->
  sample record i = inl e /\ is_lookup_error e = false.
Proof.
  unfold get_coverage_info.
  destruct (sample record i) as [e'|[[nr nv] pct]]; [|discriminate].
  destruct (is_lookup_error e') eqn:E; [discriminate|].
  intros H. inversion H. subst. auto.
Qed.

(** The inner loop yields the variants of the alleles before the first
    one for which [get_coverage_info] raises. *)
Lemma alternates_spec (record : vcf_record) (l : list (nat * string)) :
  exists before after,
    l = before ++ after
    /\ fst (alternates record l)
       = map (fun ia => variant_info record (fst ia) (snd ia)) before
    /\ Forall (fun ia => get_coverage_info record (fst ia)
                         = inr (coverage_info record (fst ia))) before
    /\ match snd (alternates record l) with
       | None => after = []
       | Some e => exists ia after',
                     after = ia :: after'
                     /\ get_coverage_info record (fst ia) = inl e
       end.
Proof.
  induction l as [|[i alt] l IH]; simpl.
  - exists [], []. repeat split; auto.
  - destruct (get_coverage_info record i) as [e|info] eqn:E.
    + exists [], ((i, alt) :: l). simpl. repeat split; auto.
      exists (i, alt), l. auto.
    + destruct IH as (before & after & Hl & Hy & Hall & Herr).
      destruct (alternates record l) as [ys err]. simpl in *.
      exists ((i, alt) :: before), after.
      pose proof (get_coverage_info_inr _ _ _ E) as ->.
      split; [simpl; now rewrite Hl|].
      split; [simpl; unfold variant_info at 1; now rewrite Hy|].
      split; [constructor; auto|exact Herr].
Qed.

Lemma in_alleles (vcf_reader : list vcf_record) (a : vcf_record * nat * string) :
  In a (alleles vcf_reader) ->
  In (fst (fst a)) vcf_reader
  /\ nth_error (ALT (fst (fst a))) (snd (fst a)) = Some (snd a).
Proof.
  intros Ha. unfold alleles in Ha. apply in_flat_map in Ha.
  destruct Ha as (record & Hrec & Ha). apply in_map_iff in Ha.
  destruct Ha as ([i alt] & <- & Hin).
  destruct (in_enumerate _ _ _ _ Hin) as (j & Hj & ->). simpl. auto.
Qed.

Lemma length_alleles (vcf_reader : list vcf_record) :
  List.length (alleles vcf_reader)
  = list_sum (map (fun record => List.length (ALT record)) vcf_reader).
Proof.
  unfold alleles. induction vcf_reader as [|record records IH]; simpl; auto.
  rewrite length_app, length_map, length_enumerate, IH. reflexivity.
Qed.

(** The generator yields the variants of a first part of the alleles
    of the file, and of all of them when no exception ends it. *)
Lemma iter_prefix (vcf_reader : list vcf_record) :
  exists before after,
    alleles vcf_reader = before ++ after
    /\ fst (__iter__ vcf_reader) = map yielded_for before
    /\ (snd (__iter__ vcf_reader) = None -> after = []).
Proof.
  induction vcf_reader as [|record records IH]; simpl.
  - exists [], []. auto.
  - destruct (alternates_spec record (enumerate 0 (ALT record)))
      as (b & a & Hl & Hy & _ & Herr).
    destruct (alternates record (enumerate 0 (ALT record))) as [ys [e|]];
      simpl in *.
    + exists (map (fun ia => (record, fst ia, snd ia)) b),
             (map (fun ia => (record, fst ia, snd ia)) a ++ alleles records).
      split; [|split].
      * unfold alleles at 1. simpl. fold (alleles records).
        rewrite Hl, map_app, app_assoc. reflexivity.
      * rewrite Hy, map_map. reflexivity.
      * discriminate.
    + subst a. rewrite app_nil_r in Hl.
      destruct IH as (before & after & Ha & Hf & Hn).
      destruct (__iter__ records) as [ys' err]. simpl in *.
      exists (map (fun ia => (record, fst ia, snd ia)) b ++ before), after.
      split; [|split].
      * unfold alleles at 1. simpl. fold (alleles records).
        rewrite Hl, Ha, app_assoc. reflexivity.
      * rewrite Hy, Hf, map_app, map_map. reflexivity.
      * exact Hn.
Qed.

Lemma length_iter (vcf_reader : list vcf_record) :
  snd (__iter__ vcf_reader) = None ->
  List.length (fst (__iter__ vcf_reader))
  = list_sum (map (fun record => List.length (ALT record)) vcf_reader).
Proof.
  intros Hn. destruct (iter_prefix vcf_reader) as (before & after & Ha & Hf & He).
  rewrite (He Hn), app_nil_r in Ha.
  rewrite Hf, length_map, <- Ha. apply length_alleles.
Qed.

Lemma well_formed_iter (vcf_reader : list vcf_record) :
  Forall (fun v => exists alt, variant_of alt v) (fst (__iter__ vcf_reader)).
Proof.
  destruct (iter_prefix vcf_reader) as (before & after & _ & -> & _).
  apply Forall_forall. intros v Hv. apply in_map_iff in Hv.
  destruct Hv as ([[record i] alt] & <- & _).
  exists alt. apply variant_info_fields.
Qed.

(** The reader yields the variants of the alternate alleles in the
    order of the file, one per allele, up to the first allele for which
    [get_coverage_info] raises; that exception ends the generator, and
    without one every allele has its variant.  Each variant has the
    chromosome, position and reference of its record, its alternate
    allele as a string and the query identifier [chrom:g.posRef>Alt];
    its keys are distinct and none of them is an annotation field. *)
Theorem reader_yields_variants (vcf_reader : list vcf_record) :
  exists before after,
    alleles vcf_reader = before ++ after
    /\ fst (__iter__ vcf_reader) = map yielded_for before
    /\ Forall (fun a => exists info, coverage_of a = inr info) before
    /\ match snd (__iter__ vcf_reader) with
       | None =>
           after = []
           /\ List.length (fst (__iter__ vcf_reader))
              = list_sum (map (fun record => List.length (ALT record)) vcf_reader)
       | Some e =>
           exists a after',
             after = a :: after' /\ coverage_of a = inl e
             /\ is_lookup_error e = false
       end
    /\ Forall (fun a =>
                 let record := fst (fst a) in
                 let alt := snd a in
                 let v := yielded_for a in
                 In record vcf_reader
                 /\ nth_error (ALT record) (snd (fst a)) = Some alt
                 /\ variant_of alt v
                 /\ dict_get "chrom" v = Some (VStr (CHROM record))
                 /\ dict_get "pos" v = Some (VInt (POS record))
                 /\ dict_get "ref" v = Some (VStr (REF record))
                 /\ dict_get "hgvs" v = Some (VStr (hgvs_of record alt))
                 /\ NoDup (keys v)
                 /\ (forall f, In f annotation_fields -> ~ In f (keys v)))
         (alleles vcf_reader).
Proof.
  assert (Hfields : Forall (fun a =>
                 let record := fst (fst a) in
                 let alt := snd a in
                 let v := yielded_for a in
                 In record vcf_reader
                 /\ nth_error (ALT record) (snd (fst a)) = Some alt
                 /\ variant_of alt v
                 /\ dict_get "chrom" v = Some (VStr (CHROM record))
                 /\ dict_get "pos" v = Some (VInt (POS record))
                 /\ dict_get "ref" v = Some (VStr (REF record))
                 /\ dict_get "hgvs" v = Some (VStr (hgvs_of record alt))
                 /\ NoDup (keys v)
                 /\ (forall f, In f annotation_fields -> ~ In f (keys v)))
         (alleles vcf_reader)).
  { apply Forall_forall. intros [[record i] alt] Ha.
    destruct (in_alleles _ _ Ha) as [Hrec Hi]. simpl in Hrec, Hi.
    destruct (variant_info_fields record i alt)
      as (H1 & H2 & H3 & H4 & H5 & _ & H7 & H8).
    cbv zeta. unfold yielded_for. simpl. repeat split; auto; apply H1. }
  assert (Hmain : exists before after,
    alleles vcf_reader = before ++ after
    /\ fst (__iter__ vcf_reader) = map yielded_for before
    /\ Forall (fun a => exists info, coverage_of a = inr info) before
    /\ match snd (__iter__ vcf_reader) with
       | None => after = []
       | Some e => exists a after',
                     after = a :: after' /\ coverage_of a = inl e
                     /\ is_lookup_error e = false
       end).
  { clear Hfields. induction vcf_reader as [|record records IH]; simpl.
    - exists [], []. repeat split; auto.
    - destruct (alternates_spec record (enumerate 0 (ALT record)))
        as (b & a & Hl & Hy & Hall & Herr).
      assert (Hall' : Forall (fun a0 => exists info, coverage_of a0 = inr info)
                        (map (fun ia => (record, fst ia, snd ia)) b)).
      { apply Forall_forall. intros x Hx. apply in_map_iff in Hx.
        destruct Hx as (ia & <- & Hia).
        rewrite Forall_forall in Hall. unfold coverage_of. simpl. eauto. }
      destruct (alternates record (enumerate 0 (ALT record))) as [ys [e|]];
        simpl in *.
      + destruct Herr as (ia & a' & -> & He).
        exists (map (fun ia => (record, fst ia, snd ia)) b),
               ((record, fst ia, snd ia)
                :: map (fun ia => (record, fst ia, snd ia)) a' ++ alleles records).
        split; [|split; [|split]].
        * unfold alleles at 1. simpl. fold (alleles records).
          rewrite Hl, map_app, <- app_assoc. reflexivity.
        * rewrite Hy, map_map. reflexivity.
        * exact Hall'.
        * eexists _, _. split; [reflexivity|]. unfold coverage_of. simpl.
          split; [exact He|]. now apply (get_coverage_info_inl _ _ _ He).
      + subst a. rewrite app_nil_r in Hl.
        destruct IH as (before & after & Ha & Hf & Hb & He).
        destruct (__iter__ records) as [ys' err]. simpl in *.
        exists (map (fun ia => (record, fst ia, snd ia)) b ++ before), after.
        split; [|split; [|split]].
        * unfold alleles at 1. simpl. fold (alleles records).
          rewrite Hl, Ha, app_assoc. reflexivity.
        * rewrite Hy, Hf, map_app, map_map. reflexivity.
        * apply Forall_app. auto.
        * exact He. }
  destruct Hmain as (before & after & Ha & Hf & Hb & He).
  exists before, after. repeat split; auto.
  destruct (snd (__iter__ vcf_reader)) as [e|] eqn:Es; [exact He|].
  split; [exact He|]. subst after. rewrite app_nil_r in Ha.
  rewrite Hf, length_map, <- Ha. apply length_alleles.
Qed.

(** Scenario A, then a record with two alleles, then a record whose
    sample has no field [NR], then scenario A again: three variants
    are yielded and AttributeError ends the generator. *)
Lemma reader_yields_variants_example :
  __iter__ [record_A; record_C; record_D; record_A]
  = ([variant_A; variant_info record_C 0 "A"; variant_info record_C 1 "GT"],
     Some AttributeError)
  /\ exists before after,
    alleles [record_A; record_C; record_D; record_A] = before ++ after
    /\ fst (__iter__ [record_A; record_C; record_D; record_A])
       = map yielded_for before
    /\ Forall (fun a => exists info, coverage_of a = inr info) before
    /\ (exists a after',
          after = a :: after' /\ coverage_of a = inl AttributeError
          /\ is_lookup_error AttributeError = false)
    /\ Forall (fun a =>
                 let record := fst (fst a) in
                 let alt := snd a in
                 let v := yielded_for a in
                 In record [record_A; record_C; record_D; record_A]
                 /\ nth_error (ALT record) (snd (fst a)) = Some alt
                 /\ variant_of alt v
                 /\ dict_get "chrom" v = Some (VStr (CHROM record))
                 /\ dict_get "pos" v = Some (VInt (POS record))
                 /\ dict_get "ref" v = Some (VStr (REF record))
                 /\ dict_get "hgvs" v = Some (VStr (hgvs_of record alt))
                 /\ NoDup (keys v)
                 /\ (forall f, In f annotation_fields -> ~ In f (keys v)))
         (alleles [record_A; record_C; record_D; record_A]).
Proof.
  split; [reflexivity|].
  exact (reader_yields_variants [record_A; record_C; record_D; record_A]).
Defined.

(** From the reader to the results.  When the reader raises nothing and
    the service answers every request with an ordinary failure or with
    a response object, the tasks run one after the other all return and
    [process_variants] returns one result per alternate allele of the
    file.  When the reader raises, [process_variants] raises the same
    exception under every schedule. *)
Theorem one_result_per_alternate_allele (fuel : nat)
    (vcf_reader : list vcf_record) (now : Z) (net : nat -> exchange) :
  (forall n, well_behaved (net n)) ->
  match snd (__iter__ vcf_reader) with
  | None =>
      exists rs,
        process_reader (S fuel) vcf_reader
          (serial_schedule (List.length (fst (__iter__ vcf_reader)))
             (3 * S fuel + 1))
          now net = Returned rs
        /\ process_variants (S fuel) (fst (__iter__ vcf_reader))
             (serial_schedule (List.length (fst (__iter__ vcf_reader)))
                (3 * S fuel + 1))
             now net = Returned rs
        /\ List.length rs
           = list_sum (map (fun record => List.length (ALT record)) vcf_reader)
  | Some e =>
      forall sched,
        process_reader (S fuel) vcf_reader sched now net = Raised e
  end.
Proof.
  intros Hnet.
  pose proof (well_formed_iter vcf_reader) as Hwf.
  pose proof (length_iter vcf_reader) as Hlen.
  unfold process_reader.
  destruct (__iter__ vcf_reader) as [variants [e|]]; simpl in *.
  - intros sched. reflexivity.
  - destruct (run_all_well_behaved fuel variants
                (boot now default_client net) Hwf Hnet)
      as (rs & w' & Hall).
    exists rs.
    pose proof (process_variants_serial _ _ _ _ _ _ Hall) as Hr.
    split; [exact Hr|]. split; [exact Hr|].
    destruct (process_variants_sound _ _ _ _ _ _ Hr) as [Hl _].
    rewrite Hl. now apply Hlen.
Qed.

Lemma one_result_per_alternate_allele_example :
  exists rs,
    process_reader 1 [record_A; record_C]
      (serial_schedule (List.length (fst (__iter__ [record_A; record_C])))
         (3 * 1 + 1))
      noon (always (http_error 500 [])) = Returned rs
    /\ process_variants 1 (fst (__iter__ [record_A; record_C]))
         (serial_schedule (List.length (fst (__iter__ [record_A; record_C])))
            (3 * 1 + 1))
         noon (always (http_error 500 [])) = Returned rs
    /\ List.length rs
       = list_sum (map (fun record => List.length (ALT record)) [record_A; record_C]).
Proof.
  apply (one_result_per_alternate_allele 0 [record_A; record_C] noon
           (always (http_error 500 []))).
  intros n. left. reflexivity.
Defined.

Lemma annotated_keys (v r : dict) :
  annotated v r ->
  (forall k, In k (keys v) -> In k (keys r))
  /\ (forall k, In k (keys r) -> In k (keys v) \/ In k annotation_fields).
Proof.
  intros (u & Hu & ->).
  destruct (keys_dict_update u v) as (added & Hk & Hin).
  rewrite Hk. split.
  - intros k H. apply in_or_app. now left.
  - intros k H. apply in_app_or in H. destruct H as [H|H]; [now left|].
    right. rewrite <- Hu. now apply Hin.
Qed.

(** A report whose first record has no coverage fields cannot take a
    record that has them: when the first result comes from a variant
    for which [get_coverage_info] gave nothing and a later one from a
    variant with its reads, [write_to_tsv] raises ValueError with the
    rows before that one written, and [main] exits with status 1. *)
Theorem mixed_coverage_breaks_the_report (fuel : nat) (vcf_reader : list dict)
    (output_tsv : string) (sched : schedule) (now : Z) (net : nat -> exchange)
    (fs : filesystem) (record0 record1 : vcf_record) (i0 i1 : nat)
    (alt0 alt1 : string) (r0 r1 : dict) (good rest : list dict) :
  reads record0 i0 = None ->
  reads record1 i1 <> None ->
  annotated (variant_info record0 i0 alt0) r0 ->
  annotated (variant_info record1 i1 alt1) r1 ->
  Forall (fun r => incl (keys r) (keys r0)) good ->
  writable fs output_tsv = true ->
  process_variants fuel vcf_reader sched now net
    = Returned (r0 :: good ++ r1 :: rest) ->
  write_to_tsv (r0 :: good ++ r1 :: rest) output_tsv fs
    = (Raised ValueError, store output_tsv (report (keys r0) (r0 :: good)) fs)
  /\ main (Some vcf_reader) output_tsv fuel sched now net fs
     = Some (1, store output_tsv (report (keys r0) (r0 :: good)) fs).
Proof.
  intros H0 H1 Ha0 Ha1 Hgood Hw Hr.
  assert (Hraise : write_to_tsv (r0 :: good ++ r1 :: rest) output_tsv fs
                   = (Raised ValueError,
                      store output_tsv (report (keys r0) (r0 :: good)) fs)).
  { apply write_to_tsv_raises; auto.
    intros Hincl.
    destruct (annotated_keys _ _ Ha0) as [_ Hk0].
    destruct (annotated_keys _ _ Ha1) as [Hk1 _].
    assert (Hin1 : In "num_reads"%string (keys (variant_info record1 i1 alt1))).
    { unfold variant_info, coverage_info, variant_fields.
      destruct (reads record1 i1) as [[[nr nv] pct]|]; [|congruence].
      cbn. tauto. }
    destruct (Hk0 _ (Hincl _ (Hk1 _ Hin1))) as [Hin|Hin].
    - unfold variant_info, coverage_info, variant_fields in Hin.
      rewrite H0 in Hin.
      cbn in Hin. intuition discriminate.
    - unfold annotation_fields in Hin. simpl in Hin. intuition discriminate. }
  split; [exact Hraise|]. unfold main. now rewrite Hr, Hraise.
Qed.

Lemma mixed_coverage_breaks_the_report_example :
  let v0 := variant_info record_C 1 "GT" in
  let v1 := variant_info record_C 0 "A" in
  let r0 := dict_update v0 null_annotation in
  let r1 := dict_update v1 null_annotation in
  let fs := {| writable := fun _ => true; files := [] |} in
  write_to_tsv (r0 :: [] ++ r1 :: []) "out.tsv" fs
    = (Raised ValueError, store "out.tsv" (report (keys r0) [r0]) fs)
  /\ main (Some [v1; v0]) "out.tsv" 1
       [(1%nat, 0); (1%nat, 0); (0%nat, 0); (0%nat, 0)] noon
       (always (http_error 400 [])) fs
     = Some (1, store "out.tsv" (report (keys r0) [r0]) fs).
Proof.
  intros v0 v1 r0 r1 fs.
  apply (mixed_coverage_breaks_the_report 1 [v1; v0] "out.tsv"
           [(1%nat, 0); (1%nat, 0); (0%nat, 0); (0%nat, 0)] noon
           (always (http_error 400 [])) fs record_C record_C 1 0 "GT" "A"
           r0 r1 [] []).
  - reflexivity.
  - discriminate.
  - exists null_annotation. split; reflexivity.
  - exists null_annotation. split; reflexivity.
  - constructor.
  - reflexivity.
  - vm_compute. reflexivity.
Defined.

(** * The exit status *)

(** [main] exits with status 0 only when the annotation has returned
    and [write_to_tsv] has returned; it exits with status 1 when the
    input cannot be opened or the annotation raises, the file system
    being then as it was, and when [write_to_tsv] raises. *)
Theorem main_exit_status (vcf : option (list dict)) (output_tsv : string)
    (fuel : nat) (sched : schedule) (now : Z) (net : nat -> exchange)
    (fs fs' : filesystem) (code : Z) :
  main vcf output_tsv fuel sched now net fs = Some (code, fs') ->
  (code = 0
   /\ exists vcf_reader rs,
        vcf = Some vcf_reader
        /\ process_variants fuel vcf_reader sched now net = Returned rs
        /\ write_to_tsv rs output_tsv fs = (Returned tt, fs'))
  \/ (code = 1
      /\ (vcf = None /\ fs' = fs
          \/ (exists vcf_reader e,
                vcf = Some vcf_reader
                /\ process_variants fuel vcf_reader sched now net = Raised e
                /\ fs' = fs)
          \/ (exists vcf_reader rs e,
                vcf = Some vcf_reader
                /\ process_variants fuel vcf_reader sched now net = Returned rs
                /\ write_to_tsv rs output_tsv fs = (Raised e, fs')))).
Proof.
  unfold main. destruct vcf as [vcf_reader|].
  - destruct (process_variants fuel vcf_reader sched now net) as [rs|e|] eqn:Ep;
      try discriminate.
    + destruct (write_to_tsv rs output_tsv fs) as [[[]|e|] fs1] eqn:Ew;
        try discriminate; intros H; injection H as <- <-.
      * left. split; [reflexivity|]. exists vcf_reader, rs. auto.
      * right. split; [reflexivity|]. right. right.
        exists vcf_reader, rs, e. auto.
    + intros H. injection H as <- <-. right. split; [reflexivity|].
      right. left. exists vcf_reader, e. auto.
  - intros H. injection H as <- <-. right. split; [reflexivity|]. now left.
Qed.

Lemma main_exit_status_scenario_A :
  let fs := {| writable := fun _ => true; files := [] |} in
  let fs' := store "out.tsv"
               (report (keys (dict_update variant_A (extracted "T" payload_A)))
                  [dict_update variant_A (extracted "T" payload_A)]) fs in
  (0 = 0
   /\ exists vcf_reader rs,
        Some [variant_A] = Some vcf_reader
        /\ process_variants 1 vcf_reader [(0%nat, 0); (0%nat, 0)] noon
             (always (ok payload_A)) = Returned rs
        /\ write_to_tsv rs "out.tsv" fs = (Returned tt, fs'))
  \/ (0 = 1
      /\ (Some [variant_A] = None /\ fs' = fs
          \/ (exists vcf_reader e,
                Some [variant_A] = Some vcf_reader
                /\ process_variants 1 vcf_reader [(0%nat, 0); (0%nat, 0)] noon
                     (always (ok payload_A)) = Raised e
                /\ fs' = fs)
          \/ (exists vcf_reader rs e,
                Some [variant_A] = Some vcf_reader
                /\ process_variants 1 vcf_reader [(0%nat, 0); (0%nat, 0)] noon
                     (always (ok payload_A)) = Returned rs
                /\ write_to_tsv rs "out.tsv" fs = (Raised e, fs')))).
Proof.
  intros fs fs'.
  apply (main_exit_status (Some [variant_A]) "out.tsv" 1
           [(0%nat, 0); (0%nat, 0)] noon (always (ok payload_A)) fs fs' 0).
  vm_compute. reflexivity.
Defined.
